(** * scculs: conditional clade distributions over posterior tree samples

    A shallow embedding of [libscculs.py] and the properties of its
    clade/split codec, its discrete probability tables, the conditional
    clade model and the topology counter.

    Python byte strings ([str] of Python 2) are [string]s whose characters are
    8-bit [ascii] values; numpy [uint8] arrays holding only 0 and 1 are
    [list bool]; Python [dict]s and [set]s are stdpp's [gmap] and [gset]. *)

From Stdlib Require Import ZArith QArith Ascii String.
From stdpp Require Import base gmap strings list fin_maps sorting.

Local Open Scope string_scope.
Local Open Scope list_scope.
Local Open Scope nat_scope.

(** ** Bits and bytes *)

Module Bits.

(** Reading [bits[i]] of a 0/1 array, with 0 beyond its end. *)
Definition bit (bits : list bool) (i : nat) : bool := nth i bits false.

(** One byte of [numpy.packbits]: the first of eight bits is the most
    significant one. *)
Definition pack_byte (bits : list bool) (k : nat) : ascii :=
  Ascii (bit bits (8 * k + 7)) (bit bits (8 * k + 6)) (bit bits (8 * k + 5))
        (bit bits (8 * k + 4)) (bit bits (8 * k + 3)) (bit bits (8 * k + 2))
        (bit bits (8 * k + 1)) (bit bits (8 * k)).

Fixpoint string_of_bytes (l : list ascii) : string :=
  match l with
  | [] => EmptyString
  | a :: l' => String a (string_of_bytes l')
  end.

(** [numpy.packbits(bits).tostring()]: the array is cut in groups of eight,
    the last group padded with zeros. *)
Definition packbits (bits : list bool) : string :=
  string_of_bytes (map (pack_byte bits) (seq 0 (Nat.div (length bits + 7) 8))).

(** [numpy.unpackbits] of the bytes of a string. *)
Fixpoint unpackbits (s : string) : list bool :=
  match s with
  | EmptyString => []
  | String (Ascii b0 b1 b2 b3 b4 b5 b6 b7) s' =>
      b7 :: b6 :: b5 :: b4 :: b3 :: b2 :: b1 :: b0 :: unpackbits s'
  end.

(** [s.rstrip("\x00")]. *)
Fixpoint rstrip_nul (s : string) : string :=
  match s with
  | EmptyString => EmptyString
  | String a s' =>
      match rstrip_nul s' with
      | EmptyString => if Ascii.eqb a zero then EmptyString else String a EmptyString
      | r => String a r
      end
  end.

(** The last character of a string, if any. *)
Fixpoint last_byte (s : string) : option ascii :=
  match s with
  | EmptyString => None
  | String a EmptyString => Some a
  | String _ s' => last_byte s'
  end.

(** The number of set bits of an array ([sum(bits)]). *)
Definition popcount (bits : list bool) : nat := length (filter (λ b, b = true) bits).

End Bits.

Import Bits.

(** ** The clade/split codec *)

(** [clade_size]: the number of taxa of a clade id. *)
Definition clade_size (clade_hash : string) : nat :=
  let clade_node_bits := unpackbits clade_hash in
  popcount clade_node_bits.

(** [calculate_root_hash]: the clade of all [n_taxa] taxa. *)
Definition calculate_root_hash (n_taxa : nat) : string :=
  let root_hash_bits := replicate n_taxa true in
  packbits root_hash_bits.

(** The loop state of [calculate_node_hashes]. [a_first] is unbound in the
    source until the first member of the clade is met, where it is assigned
    before it is read; its initial value here is never read. *)
Record node_hash_state := NodeHashState {
  parent_boolean : list bool;
  split_boolean : list bool;
  nh_i : nat;
  a_first : bool
}.

Definition node_hash_step (children_a children_b : gset string)
    (st : node_hash_state) (jt : nat * string) : node_hash_state :=
  let '(j, t) := jt in
  if bool_decide (t ∈ children_a ∪ children_b) then
    let a_first' :=
      if Nat.eqb (nh_i st) 0 then bool_decide (t ∈ children_a) else a_first st in
    let split' :=
      if xorb (bool_decide (t ∈ children_b)) a_first'
      then <[nh_i st := true]> (split_boolean st)
      else split_boolean st in
    NodeHashState (<[j := true]> (parent_boolean st)) split' (S (nh_i st)) a_first'
  else st.

Definition calculate_node_hashes (children_a children_b : gset string)
    (taxon_order : list string) : string * string :=
  let n_taxa := length taxon_order in
  let st0 := NodeHashState (replicate n_taxa false) (replicate n_taxa false) 0 false in
  let st := foldl (node_hash_step children_a children_b) st0
                  (zip (seq 0 n_taxa) taxon_order) in
  let parent_id := packbits (parent_boolean st) in
  let split_id := packbits (split_boolean st) in
  (parent_id, split_id).

(** The loop state of [elucidate_cc_split]. *)
Record split_state := SplitState {
  child1_bits : list bool;
  child2_bits : list bool;
  sp_j : nat
}.

Definition split_step (parent_id_bits split_id_bits : list bool)
    (st : split_state) (i : nat) : split_state :=
  let n_split_bits := length split_id_bits in
  if bit parent_id_bits i then
    if Nat.ltb (sp_j st) n_split_bits then
      if bit split_id_bits (sp_j st)
      then SplitState (<[i := true]> (child1_bits st)) (child2_bits st) (S (sp_j st))
      else SplitState (child1_bits st) (<[i := true]> (child2_bits st)) (S (sp_j st))
    else SplitState (child1_bits st) (<[i := true]> (child2_bits st)) (S (sp_j st))
  else st.

Definition elucidate_cc_split (parent_id split_id : string) : string * string :=
  let parent_id_bits := unpackbits parent_id in
  let split_id_bits := unpackbits split_id in
  let n_parent_bits := length parent_id_bits in
  let st0 := SplitState (replicate n_parent_bits false) (replicate n_parent_bits false) 0 in
  let st := foldl (split_step parent_id_bits split_id_bits) st0 (seq 0 n_parent_bits) in
  let child1_id := rstrip_nul (packbits (child1_bits st)) in
  let child2_id := rstrip_nul (packbits (child2_bits st)) in
  (child1_id, child2_id).

(** [clade_taxon_names]: the names of the taxa of a clade id, in taxon order.
    [taxon_order[i]] raises [IndexError] beyond the end of the list: [None]. *)
Definition taxon_names_step (clade_node_bits : list bool) (taxon_order : list string)
    (acc : option (list string)) (i : nat) : option (list string) :=
  names ← acc;
  if bit clade_node_bits i then
    t ← taxon_order !! i; Some (names ++ [t])
  else Some names.

Definition clade_taxon_names (clade_hash : string) (taxon_order : list string)
    : option (list string) :=
  let clade_node_bits := unpackbits clade_hash in
  let n_bits := length clade_node_bits in
  foldl (taxon_names_step clade_node_bits taxon_order) (Some []) (seq 0 n_bits).

(** The split id given to every clade of two taxa. *)
Definition cherry_hash : string := String (Ascii false false false false false false false true) EmptyString.

(** ** Floating-point numbers

    [numpy.float64] and Python's [float] are kept abstract: a type with the
    operations the program applies to it. The program's control flow only
    depends on comparisons of these values. *)

Class Float64 (F : Type) := {
  f_zero : F;
  f_one : F;
  f_add : F → F → F;
  f_mul : F → F → F;
  f_sub : F → F → F;
  f_leb : F → F → bool;
  f_ltb : F → F → bool
}.

(** Exact rational arithmetic, an instance on which the tables can be run. *)
#[export] Instance Q_float64 : Float64 Q := {
  f_zero := 0%Q;
  f_one := 1%Q;
  f_add := Qplus;
  f_mul := Qmult;
  f_sub := Qminus;
  f_leb := Qle_bool;
  f_ltb := λ x y, negb (Qle_bool y x)
}.

(** The one property of floating-point addition that the culling bounds rest
    on: adding a number that is not negative to a value at or above a bound
    leaves it at or above the bound (rounding is monotone). *)
Class Float64Order (F : Type) `{Float64 F} : Prop := {
  f_leb_add_nonneg : ∀ m x p : F,
    f_leb m x = true → f_leb f_zero p = true → f_leb m (f_add x p) = true
}.

#[export] Instance Q_float64_order : Float64Order Q.
Proof.
  split. intros m x p. simpl. rewrite !Qle_bool_iff. intros Hm Hp.
  apply Qle_trans with (x + 0)%Q.
  - by rewrite Qplus_0_r.
  - apply Qplus_le_r. exact Hp.
Qed.

(** [numpy.argsort] is only specified: its result lists the indices of the
    array so that the values ascend; the order of equal values is not fixed. *)
Definition is_argsort `{Float64 F} (l : list F) (order : list nat) : Prop :=
  order ≡ₚ seq 0 (length l) ∧
  ∀ a b ia ib x y, a < b → order !! a = Some ia → order !! b = Some ib →
    l !! ia = Some x → l !! ib = Some y → f_leb x y = true.

(** A stable argsort by insertion, one function meeting [is_argsort]. *)
Fixpoint insert_index `{Float64 F} (l : list F) (i : nat) (sorted : list nat) : list nat :=
  match sorted with
  | [] => [i]
  | j :: s =>
      if f_leb (nth i l f_zero) (nth j l f_zero) then i :: j :: s
      else j :: insert_index l i s
  end.

Definition argsort_insertion `{Float64 F} (l : list F) : list nat :=
  foldr (insert_index l) [] (seq 0 (length l)).

(** [numpy.delete(arr, indices)]: the array without the elements at the given
    positions; a position beyond the array raises [IndexError]. *)
Fixpoint delete_from {A} (indices : list nat) (i : nat) (arr : list A) : list A :=
  match arr with
  | [] => []
  | x :: arr' =>
      if bool_decide (i ∈ indices) then delete_from indices (S i) arr'
      else x :: delete_from indices (S i) arr'
  end.

Definition numpy_delete {A} (arr : list A) (indices : list nat) : option (list A) :=
  if forallb (λ i, Nat.ltb i (length arr)) indices
  then Some (delete_from indices 0 arr)
  else None.

(** [sorted] on byte strings: the order of Python 2 strings is that of their
    bytes. *)
Definition str_le (x y : string) : Prop := String.leb x y = true.

#[export] Instance str_le_dec : RelDecision str_le.
Proof. intros x y. unfold str_le. apply _. Defined.

Definition sorted (keys : list string) : list string := merge_sort str_le keys.

(** ** Discrete probability tables *)

Section DiscreteProbabilities.

Context {F : Type} `{Float64 F} {D : Type}.

(** The attributes of a [DiscreteProbabilities] object. The elements of
    [hashes_array], a numpy array of strings, are read without trailing zero
    bytes. *)
Record table := Table {
  n_features : nat;
  hashes_array : list string;
  data_array : list D;
  probabilities : gmap string F;
  probabilities_array : list F
}.

Definition set_probabilities (self : table) (p : gmap string F) : table :=
  Table (n_features self) (hashes_array self) (data_array self) p (probabilities_array self).

(** [convert_probabilities]; a hash without a probability raises [KeyError]. *)
Definition convert_probabilities (self : table) : option table :=
  sorted_probabilities ← mapM (λ feature_hash, probabilities self !! feature_hash)
                               (hashes_array self);
  Some (Table (n_features self) (hashes_array self) (data_array self)
              (probabilities self) sorted_probabilities).

(** [__init__]: the keys sorted, every probability 0. *)
Definition new_table (data : gmap string D) : option table :=
  let sorted_hashes := sorted (map fst (map_to_list data)) in
  let hashes := map rstrip_nul sorted_hashes in
  sorted_data ← mapM (λ feature_hash, data !! feature_hash) hashes;
  let probs : gmap string F :=
    foldl (λ m feature_hash, <[feature_hash := f_zero]> m) ∅ sorted_hashes in
  convert_probabilities (Table (length sorted_hashes) hashes sorted_data probs []).

(** [add_probabilities]: [probabilities[feature_hash]] raises [KeyError] for a
    hash of the table that the argument does not hold. *)
Definition add_probabilities_step (probs : gmap string F)
    (acc : option (gmap string F)) (feature_hash : string) : option (gmap string F) :=
  m ← acc;
  p ← probs !! feature_hash;
  Some (<[feature_hash := p]> m).

Definition add_probabilities (self : table) (probs : gmap string F) : option table :=
  m ← foldl (add_probabilities_step probs) (Some (probabilities self)) (hashes_array self);
  convert_probabilities (set_probabilities self m).

(** [probabilities_from_counts]. [math.log] raises [ValueError] on a count
    that is not positive, [math.exp] may raise [OverflowError], and
    subtracting [None] raises [TypeError]. *)
Section FromCounts.

Variable math_log : Z → option F.
Variable math_exp : F → option F.
Variable logaddexp_reduce : list F → F.

Definition log_count_item (item : string * Z) : option (string * F) :=
  log_count ← math_log item.2; Some (item.1, log_count).

Definition from_counts_step (log_counts : gmap string F) (log_sum_of_counts : option F)
    (acc : option (gmap string F)) (feature_hash : string) : option (gmap string F) :=
  m ← acc;
  match log_counts !! feature_hash with
  | Some log_count =>
      s ← log_sum_of_counts;
      normalized_probability ← math_exp (f_sub log_count s);
      Some (<[feature_hash := normalized_probability]> m)
  | None => Some (<[feature_hash := f_zero]> m)
  end.

Definition probabilities_from_counts (self : table) (counts : gmap string Z) : option table :=
  logs ← mapM log_count_item (map_to_list counts);
  let log_counts : gmap string F := list_to_map logs in
  let all_log_counts := map snd logs in
  let log_sum_of_counts :=
    if Nat.ltb 0 (length all_log_counts) then Some (logaddexp_reduce all_log_counts)
    else None in
  m ← foldl (from_counts_step log_counts log_sum_of_counts)
            (Some (probabilities self)) (hashes_array self);
  convert_probabilities (set_probabilities self m).

End FromCounts.

(** [cull_probabilities]. *)
Record cull_state := CullState {
  posterior_features : Z;
  posterior_probability : F;
  cull_indices : list nat;
  cull_probs : gmap string F
}.

Definition cull_step (self : table) (max_features : Z) (max_probability : F)
    (acc : option cull_state) (i : nat) : option cull_state :=
  st ← acc;
  st1 ← (if Z.leb max_features (posterior_features st)
            || f_leb max_probability (posterior_probability st)
         then
           cull_hash ← hashes_array self !! i;
           _ ← cull_probs st !! cull_hash;
           Some (CullState (posterior_features st) (posterior_probability st)
                           (cull_indices st ++ [i]) (delete cull_hash (cull_probs st)))
         else Some st);
  p ← probabilities_array self !! i;
  Some (CullState (posterior_features st1 + 1) (f_add (posterior_probability st1) p)
                  (cull_indices st1) (cull_probs st1)).

Variable argsort : list F → list nat.

Definition cull_probabilities (self : table) (max_features : Z) (max_probability : F)
    : option table :=
  let topology_ascending_order := argsort (probabilities_array self) in
  let topology_descending_order := reverse topology_ascending_order in
  st ← foldl (cull_step self max_features max_probability)
             (Some (CullState 0 f_zero [] (probabilities self)))
             topology_descending_order;
  probabilities_array' ← numpy_delete (probabilities_array self) (cull_indices st);
  hashes_array' ← numpy_delete (hashes_array self) (cull_indices st);
  data_array' ← numpy_delete (data_array self) (cull_indices st);
  Some (Table (length probabilities_array') hashes_array' data_array'
              (cull_probs st) probabilities_array').

End DiscreteProbabilities.

Arguments table F D : clear implicits.

(** ** The conditional clade model *)

(** [l[idx]] on a Python list of length [len]: a negative index counts from
    the end, an index out of range raises [IndexError]. *)
Definition py_index (len : nat) (idx : Z) : option nat :=
  if (Z.leb 0 idx && Z.ltb idx (Z.of_nat len))%bool then Some (Z.to_nat idx)
  else if (Z.leb (- Z.of_nat len) idx && Z.ltb idx 0)%bool
       then Some (Z.to_nat (Z.of_nat len + idx))
       else None.

Section ConditionalClades.

Context {F : Type} `{Float64 F}.

(** [reverse_cc_probabilities]: for every child clade, its parents and the
    probability of the split that gives the child. *)
Definition reverse_update (reverse_ccp : gmap string (gmap string F))
    (child_hash parent_id : string) (cc_probability : F) : gmap string (gmap string F) :=
  match reverse_ccp !! child_hash with
  | Some parents => <[child_hash := <[parent_id := cc_probability]> parents]> reverse_ccp
  | None => <[child_hash := {[parent_id := cc_probability]}]> reverse_ccp
  end.

Definition reverse_split_step (parent_id : string)
    (reverse_ccp : gmap string (gmap string F)) (item : string * F)
    : gmap string (gmap string F) :=
  let split_id := item.1 in
  let cc_probability := item.2 in
  let children := elucidate_cc_split parent_id split_id in
  reverse_update (reverse_update reverse_ccp children.1 parent_id cc_probability)
                 children.2 parent_id cc_probability.

Definition reverse_parent_step {D} (reverse_ccp : gmap string (gmap string F))
    (item : string * table F D) : gmap string (gmap string F) :=
  foldl (reverse_split_step item.1) reverse_ccp (map_to_list (probabilities item.2)).

Definition reverse_cc_probabilities {D} (cc_sets : gmap string (table F D))
    : gmap string (gmap string F) :=
  foldl reverse_parent_step ∅ (map_to_list cc_sets).

(** [CladeProbabilities.derive_clade_probabilities]. The payload of a clade
    is its number of taxa. *)
Definition size_bucket_step (self : table F nat) (n_taxa : nat)
    (acc : option (list (gset string))) (i : nat) : option (list (gset string)) :=
  clades_by_size ← acc;
  clade_hash ← hashes_array self !! i;
  n_clade_taxa ← data_array self !! i;
  j ← py_index (length clades_by_size) (Z.of_nat n_taxa - Z.of_nat n_clade_taxa);
  Some (alter (λ s, {[clade_hash]} ∪ s) j clades_by_size).

Definition path_step (conditional_parents probs : gmap string F)
    (acc : option F) (parent_hash : string) : option F :=
  clade_probability ← acc;
  cc_probability ← conditional_parents !! parent_hash;
  parent_probability ← probs !! parent_hash;
  Some (f_add clade_probability (f_mul cc_probability parent_probability)).

(** The sum of the path probabilities of a clade, over its parents. *)
Definition path_probability (conditional_parents probs : gmap string F) : option F :=
  foldl (path_step conditional_parents probs) (Some f_zero)
        (map fst (map_to_list conditional_parents)).

(** The body of the loop over the clades: [reverse_ccp[clade_hash]] raises
    [KeyError] for a clade that is the child of no split. *)
Definition clade_probability (reverse_ccp : gmap string (gmap string F))
    (probs : gmap string F) (clade_hash : string) : option F :=
  conditional_parents ← reverse_ccp !! clade_hash;
  path_probability conditional_parents probs.

Definition clade_step (reverse_ccp : gmap string (gmap string F))
    (acc : option (gmap string F)) (clade_hash : string) : option (gmap string F) :=
  probs ← acc;
  p ← clade_probability reverse_ccp probs clade_hash;
  Some (<[clade_hash := p]> probs).

Definition bucket_step {V} (step : option V → string → option V)
    (clades_by_size : list (gset string)) (acc : option V) (i : nat) : option V :=
  v ← acc;
  bucket ← clades_by_size !! i;
  foldl step (Some v) (elements bucket).

Definition derive_clade_probabilities {D} (self : table F nat)
    (cc_sets : gmap string (table F D)) (n_taxa : nat) : option (table F nat) :=
  let reverse_ccp := reverse_cc_probabilities cc_sets in
  let root_hash := calculate_root_hash n_taxa in
  let probs0 := <[root_hash := f_one]> (probabilities self) in
  clades_by_size ← foldl (size_bucket_step self n_taxa)
                         (Some (replicate (n_taxa - 1) ∅)) (seq 0 (n_features self));
  probs ← foldl (bucket_step (clade_step reverse_ccp) clades_by_size)
                (Some probs0) (seq 1 (n_taxa - 2));
  convert_probabilities (set_probabilities self probs).

(** [n_derived_topologies]. *)
Definition count_bucket_step (acc : option (list (gset string))) (clade_hash : string)
    : option (list (gset string)) :=
  clades_by_size ← acc;
  let n_clade_taxa := clade_size clade_hash in
  if Nat.leb 3 n_clade_taxa then
    if Nat.ltb (n_clade_taxa - 3) (length clades_by_size)
    then Some (alter (λ s, {[clade_hash]} ∪ s) (n_clade_taxa - 3) clades_by_size)
    else None
  else Some clades_by_size.

Definition child_factor (n_subtrees : gmap string Z) (child_hash : string)
    (n_split_subtrees : Z) : option Z :=
  if Nat.ltb 2 (clade_size child_hash) then
    n_child ← n_subtrees !! child_hash; Some (n_split_subtrees * n_child)%Z
  else Some n_split_subtrees.

Definition split_count_step {D} (include_zero_probability : bool) (parent_hash : string)
    (parent_splits : table F D) (n_subtrees : gmap string Z)
    (acc : option Z) (j : nat) : option Z :=
  n_parent_subtrees ← acc;
  split_hash ← hashes_array parent_splits !! j;
  split_probability ← probabilities_array parent_splits !! j;
  if include_zero_probability || f_ltb f_zero split_probability then
    let children := elucidate_cc_split parent_hash split_hash in
    n1 ← child_factor n_subtrees children.1 1%Z;
    n_split_subtrees ← child_factor n_subtrees children.2 n1;
    Some (n_parent_subtrees + n_split_subtrees)%Z
  else Some n_parent_subtrees.

Definition parent_subtrees {D} (include_zero_probability : bool)
    (cc_sets : gmap string (table F D)) (n_subtrees : gmap string Z) (parent_hash : string)
    : option Z :=
  parent_splits ← cc_sets !! parent_hash;
  foldl (split_count_step include_zero_probability parent_hash parent_splits n_subtrees)
        (Some 0%Z) (seq 0 (n_features parent_splits)).

Definition parent_count_step {D} (include_zero_probability : bool)
    (cc_sets : gmap string (table F D))
    (acc : option (gmap string Z)) (parent_hash : string) : option (gmap string Z) :=
  n_subtrees ← acc;
  n_parent_subtrees ← parent_subtrees include_zero_probability cc_sets n_subtrees parent_hash;
  Some (<[parent_hash := n_parent_subtrees]> n_subtrees).

Definition n_derived_topologies {D} (cc_sets : gmap string (table F D)) (n_taxa : nat)
    (include_zero_probability : bool) : option Z :=
  let reverse_ccp := reverse_cc_probabilities cc_sets in
  clades_by_size ← foldl count_bucket_step (Some (replicate (n_taxa - 2) ∅))
                         (map fst (map_to_list cc_sets));
  n_subtrees ← foldl (bucket_step (parent_count_step include_zero_probability cc_sets)
                                  clades_by_size)
                     (Some ∅) (seq 0 (n_taxa - 2));
  let root_id := calculate_root_hash n_taxa in
  n_subtrees !! root_id.

End ConditionalClades.

(** ** Topologies

    The tree library is outside the program; a parsed tree is a leaf with its
    name or a node with two children (the source assumes strictly bifurcating
    trees). *)
Inductive tree :=
  | Leaf (name : string)
  | Node (child1 child2 : tree).

Fixpoint get_leaf_names (node : tree) : list string :=
  match node with
  | Leaf name => [name]
  | Node child1 child2 => get_leaf_names child1 ++ get_leaf_names child2
  end.

(** [TopologySample.recurse_node_properties]. *)
Fixpoint recurse_node_properties (taxon_order : list string) (node : tree)
    (topology_values : list (string * string)) : list (string * string) :=
  match node with
  | Leaf _ => topology_values
  | Node child1 child2 =>
      let child1_clade : gset string := list_to_set (get_leaf_names child1) in
      let child2_clade : gset string := list_to_set (get_leaf_names child2) in
      let values1 := recurse_node_properties taxon_order child1 topology_values in
      let values2 := recurse_node_properties taxon_order child2 values1 in
      values2 ++ [calculate_node_hashes child1_clade child2_clade taxon_order]
  end.

(** The order of the records of a topology array: by clade id, then split id. *)
Definition record_le (a b : string * string) : Prop :=
  match String.compare a.1 b.1 with
  | Lt => True
  | Eq => String.leb a.2 b.2 = true
  | Gt => False
  end.

#[export] Instance record_le_dec : RelDecision record_le.
Proof. intros a b. unfold record_le. destruct (String.compare a.1 b.1); apply _. Defined.

(** [TopologySample.generate_topology_array]. *)
Definition generate_topology_array (taxon_order : list string) (topology_root : tree)
    : list (string * string) :=
  let topology_values := recurse_node_properties taxon_order topology_root [] in
  merge_sort record_le topology_values.

(** [TopologySample.__init__]: the taxon order is that of the first tree. *)
Definition sample_taxon_order (trees : list tree) : list string :=
  match trees with
  | first :: _ => sorted (get_leaf_names first)
  | [] => []
  end.

Definition topology_arrays (trees : list tree) : list (list (string * string)) :=
  map (generate_topology_array (sample_taxon_order trees)) trees.

Section TopologyProbabilities.

Context {F : Type} `{Float64 F}.

(** [numpy.prod] of a list of numbers; 1 for the empty list. *)
Definition numpy_prod (l : list F) : F :=
  match l with
  | [] => f_one
  | x :: l' => foldl f_mul x l'
  end.

(** [TopologyProbabilities.probabilities_from_ccs]. A field of a record is
    read without its trailing zero bytes. *)
Definition node_probability_step {D} (cc_sets : gmap string (table F D))
    (acc : option (list F)) (node : string * string) : option (list F) :=
  node_probabilities ← acc;
  let parent_hash := rstrip_nul node.1 in
  let split_hash := rstrip_nul node.2 in
  let n_node_taxa := clade_size parent_hash in
  if Nat.leb 3 n_node_taxa then
    splits ← cc_sets !! parent_hash;
    split_probability ← probabilities splits !! split_hash;
    Some (node_probabilities ++ [split_probability])
  else Some node_probabilities.

Definition topology_step {D} (self : table F tree) (cc_sets : gmap string (table F D))
    (arrays : list (list (string * string)))
    (acc : option (gmap string F)) (i : nat) : option (gmap string F) :=
  probs ← acc;
  topology_array ← arrays !! i;
  topology_hash ← hashes_array self !! i;
  node_probabilities ← foldl (node_probability_step cc_sets) (Some []) topology_array;
  Some (<[topology_hash := numpy_prod node_probabilities]> probs).

Definition probabilities_from_ccs {D} (self : table F tree)
    (cc_sets : gmap string (table F D)) : option (table F tree) :=
  let arrays := topology_arrays (data_array self) in
  probs ← foldl (topology_step self cc_sets arrays) (Some (probabilities self))
                (seq 0 (n_features self));
  convert_probabilities (set_probabilities self probs).

End TopologyProbabilities.

(** ** The sorted queue of candidates *)

(** [l.insert(rank, x)] for a rank that is not negative: the element is put
    before the one at [rank], at the end when [rank] is beyond the list. *)
Definition insert_at {A} (rank : nat) (x : A) (l : list A) : list A :=
  take rank l ++ x :: drop rank l.

Section IntegrateProbability.

Context {F : Type} `{Float64 F} {O : Type}.

(** [numpy.searchsorted(a, v)] is only specified: on an ascending list it
    returns the first position at which [v] can be inserted with the list
    staying ascending. *)
Variable searchsorted : list F → F → nat.

(** [integrate_probability]. The source changes its first two arguments in
    place and returns nothing; here the two lists are returned as they are
    after the call. Reading [new_data[i]] beyond the end of the list raises
    [IndexError]. *)
Definition integrate_step (new_probs : list F) (new_data : list O)
    (acc : option (list F * list O)) (i : nat) : option (list F * list O) :=
  lists ← acc;
  let original_probs := lists.1 in
  let original_data := lists.2 in
  probability ← new_probs !! i;
  observation ← new_data !! i;
  let rank := searchsorted original_probs probability in
  Some (insert_at rank probability original_probs, insert_at rank observation original_data).

Definition integrate_probability (original_probs : list F) (original_data : list O)
    (new_probs : list F) (new_data : list O) : option (list F * list O) :=
  foldl (integrate_step new_probs new_data) (Some (original_probs, original_data))
        (seq 0 (length new_probs)).

End IntegrateProbability.

(** ** Trees from splits *)

(** [derive_tree_from_splits]. The source hangs the two children it builds
    under [current_node], a node without children that its caller made; here
    the node is returned with its children, a leaf carrying its name. [depth]
    is the number of nested calls the interpreter still allows: beyond it the
    call fails ([RuntimeError]), as it does with [KeyError] for a clade
    without a split and with [IndexError] for a taxon beyond the order. *)
Fixpoint derive_tree_from_splits (depth : nat) (parent_hash : string)
    (taxon_order : list string) (splits : gmap string string) : option tree :=
  match depth with
  | 0 => None
  | S depth' =>
      split_hash ← splits !! parent_hash;
      let children := elucidate_cc_split parent_hash split_hash in
      let child1_hash := children.1 in
      let child2_hash := children.2 in
      let child1_size := clade_size child1_hash in
      let child2_size := clade_size child2_hash in
      child1_node ← (if Nat.eqb child1_size 1
                     then names ← clade_taxon_names child1_hash taxon_order;
                          name ← names !! 0;
                          Some (Leaf name)
                     else derive_tree_from_splits depth' child1_hash taxon_order splits);
      child2_node ← (if Nat.eqb child2_size 1
                     then names ← clade_taxon_names child2_hash taxon_order;
                          name ← names !! 0;
                          Some (Leaf name)
                     else derive_tree_from_splits depth' child2_hash taxon_order splits);
      Some (Node child1_node child2_node)
  end.

(** ** Counting topologies and conditional clades *)

(** What [calculate_topology_probabilities] reads of a sample of ultrametric
    trees: the number of trees, the array of every tree and its newick
    string. A record of an array has the clade id and the split id of a node,
    as bytes of the width of their fields, and the height of the node. *)
Record ultrametric_sample (N Hgt : Type) := UltrametricSample {
  n_trees : nat;
  tree_arrays : list (list (string * string * Hgt));
  newick_strings : list N
}.

Arguments UltrametricSample {N Hgt}.
Arguments n_trees {N Hgt}.
Arguments tree_arrays {N Hgt}.
Arguments newick_strings {N Hgt}.

(** The five mappings that the loop over the trees fills. *)
Record tally (T : Type) := Tally {
  topology_counts : gmap string Z;
  topology_data : gmap string T;
  cc_counts : gmap string (gmap string Z);
  cc_data : gmap string (gmap string (string * string));
  clade_sizes : gmap string nat
}.

Arguments Tally {T}.
Arguments topology_counts {T}.
Arguments topology_data {T}.
Arguments cc_counts {T}.
Arguments cc_data {T}.
Arguments clade_sizes {T}.

Section CalculateTopologyProbabilities.

Context {F : Type} `{Float64 F} {N Hgt T : Type}.

(** The tree library parses a newick string and writes it back without its
    branch lengths ([write(format = 9)]). *)
Variable topology_newick_of : N → T.

(** [tree_array["f0"].tostring()]: the clade ids of the records, end to end. *)
Definition topology_hash_of (tree_array : list (string * string * Hgt)) : string :=
  String.concat "" (map (λ node, node.1.1) tree_array).

(** The body of the loop over the nodes of a tree. A field of a record is
    read without its trailing zero bytes. The payload kept for a split is the
    record of the node where it was first seen. *)
Definition record_node (acc : option (tally T)) (node : string * string)
    : option (tally T) :=
  st ← acc;
  let parent_hash := rstrip_nul node.1 in
  let split_hash := rstrip_nul node.2 in
  let n_node_taxa := clade_size parent_hash in
  let clade_sizes' := <[parent_hash := n_node_taxa]> (clade_sizes st) in
  if Nat.leb 3 n_node_taxa then
    match cc_counts st !! parent_hash with
    | None =>
        Some (Tally (topology_counts st) (topology_data st)
                    (<[parent_hash := {[split_hash := 1%Z]}]> (cc_counts st))
                    (<[parent_hash := {[split_hash := node]}]> (cc_data st))
                    clade_sizes')
    | Some split_counts =>
        match split_counts !! split_hash with
        | None =>
            splits_data ← cc_data st !! parent_hash;
            Some (Tally (topology_counts st) (topology_data st)
                        (<[parent_hash := <[split_hash := 1%Z]> split_counts]> (cc_counts st))
                        (<[parent_hash := <[split_hash := node]> splits_data]> (cc_data st))
                        clade_sizes')
        | Some count =>
            Some (Tally (topology_counts st) (topology_data st)
                        (<[parent_hash := <[split_hash := (count + 1)%Z]> split_counts]>
                           (cc_counts st))
                        (cc_data st)
                        clade_sizes')
        end
    end
  else Some (Tally (topology_counts st) (topology_data st) (cc_counts st) (cc_data st)
                   clade_sizes').

(** The body of the loop over the trees: the topology is counted, and
    recorded with its newick string when it is new, then the nodes are
    counted. [ts.tree_arrays[i]] and [ts.newick_strings[i]] raise
    [IndexError] beyond the end of the lists. *)
Definition count_tree_step (ts : ultrametric_sample N Hgt)
    (acc : option (tally T)) (i : nat) : option (tally T) :=
  st ← acc;
  tree_array ← tree_arrays ts !! i;
  let topology_hash := topology_hash_of tree_array in
  st1 ← match topology_counts st !! topology_hash with
        | None =>
            tree_newick ← newick_strings ts !! i;
            let topology_newick := topology_newick_of tree_newick in
            Some (Tally (<[topology_hash := 1%Z]> (topology_counts st))
                        (<[topology_hash := topology_newick]> (topology_data st))
                        (cc_counts st) (cc_data st) (clade_sizes st))
        | Some count =>
            Some (Tally (<[topology_hash := (count + 1)%Z]> (topology_counts st))
                        (topology_data st) (cc_counts st) (cc_data st) (clade_sizes st))
        end;
  let topology_array := map (λ node : string * string * Hgt, (node.1.1, node.1.2)) tree_array in
  foldl record_node (Some st1) topology_array.

(** The table of the splits of one clade. *)
Definition splits_table (item : string * gmap string (string * string))
    : option (string * table F (string * string)) :=
  splits_set ← new_table item.2; Some (item.1, splits_set).

(** [calculate_topology_probabilities]: the topologies with their counts,
    the conditional clades with the counts of their splits, and the clades
    with their sizes. *)
Definition calculate_topology_probabilities (ts : ultrametric_sample N Hgt)
    : option (table F T * gmap string Z * gmap string (table F (string * string))
              * gmap string (gmap string Z) * table F nat) :=
  st ← foldl (count_tree_step ts) (Some (Tally ∅ ∅ ∅ ∅ ∅)) (seq 0 (n_trees ts));
  clades_set ← new_table (clade_sizes st);
  topology_set ← new_table (topology_data st);
  cc_list ← mapM splits_table (map_to_list (cc_data st));
  let cc_sets : gmap string (table F (string * string)) := list_to_map cc_list in
  Some (topology_set, topology_counts st, cc_sets, cc_counts st, clades_set).

End CalculateTopologyProbabilities.

(** ** Samples of ultrametric trees *)

(** A parsed tree with its branch lengths: [dist] is the length of the
    branch above a node. *)
Inductive tree_node (F : Type) :=
  | TLeaf (name : string) (dist : F)
  | TNode (child1 child2 : tree_node F) (dist : F).

Arguments TLeaf {F}.
Arguments TNode {F}.

Module Ultrametric.

Section UltrametricSample.

Context {F : Type} `{Float64 F} {N : Type}.

Definition dist (node : tree_node F) : F :=
  match node with
  | TLeaf _ d => d
  | TNode _ _ d => d
  end.

Fixpoint get_leaf_names (node : tree_node F) : list string :=
  match node with
  | TLeaf name _ => [name]
  | TNode child1 child2 _ => get_leaf_names child1 ++ get_leaf_names child2
  end.

(** The tree without its branch lengths. *)
Fixpoint topology (node : tree_node F) : tree :=
  match node with
  | TLeaf name _ => Leaf name
  | TNode child1 child2 _ => Node (topology child1) (topology child2)
  end.

(** [ete2.Tree(newick_string)]. *)
Variable parse : N → tree_node F.

(** [tree_root.get_distance(tree_root.get_leaves_by_name(calibration_taxon)[0])]:
    the distance from the root to the first leaf with the name; without such
    a leaf the index raises [IndexError]. *)
Variable calibration_distance : tree_node F → string → option F.

(** [UltrametricSample.recurse_node_properties]. *)
Fixpoint recurse_node_properties (taxon_order : list string) (node : tree_node F)
    (node_height : F) (tree_values : list (string * string * F))
    : list (string * string * F) :=
  match node with
  | TLeaf _ _ => tree_values
  | TNode child1 child2 _ =>
      let child1_clade : gset string := list_to_set (get_leaf_names child1) in
      let child2_clade : gset string := list_to_set (get_leaf_names child2) in
      let child1_height := f_sub node_height (dist child1) in
      let child2_height := f_sub node_height (dist child2) in
      let values1 := recurse_node_properties taxon_order child1 child1_height tree_values in
      let values2 := recurse_node_properties taxon_order child2 child2_height values1 in
      values2 ++ [(calculate_node_hashes child1_clade child2_clade taxon_order, node_height)]
  end.

(** The order of the records of a tree array: by clade id, then split id,
    then height. *)
Definition node_le (a b : string * string * F) : Prop :=
  record_le a.1 b.1 ∧ (a.1 = b.1 → f_leb a.2 b.2 = true).

#[global] Instance node_le_dec : RelDecision node_le.
Proof. intros a b. unfold node_le. apply _. Defined.

(** [UltrametricSample.generate_tree_array], returning the array that it
    appends to [tree_arrays]. *)
Definition generate_tree_array (taxon_order : list string) (newick_string : N)
    (calibration_taxon : string) (calibration_date : F)
    : option (list (string * string * F)) :=
  let tree_root := parse newick_string in
  distance ← calibration_distance tree_root calibration_taxon;
  let root_height := f_add distance calibration_date in
  let tree_values := recurse_node_properties taxon_order tree_root root_height [] in
  Some (merge_sort node_le tree_values).

(** The taxon order of a sample is that of its first tree. *)
Definition sample_taxon_order (newick_strings : list N) : list string :=
  match newick_strings with
  | ns :: _ => sorted (get_leaf_names (parse ns))
  | [] => []
  end.

(** The calibration taxon after the first round of the loop: an empty name
    stands for the first taxon of the order. *)
Definition sample_calibration_taxon (newick_strings : list N) (calibration_taxon : string)
    : option string :=
  match newick_strings with
  | _ :: _ =>
      if decide (calibration_taxon = "") then sample_taxon_order newick_strings !! 0
      else Some calibration_taxon
  | [] => Some calibration_taxon
  end.

(** [UltrametricSample.__init__]. *)
Definition init (newick_strings : list N) (calibration_taxon : string)
    (calibration_date : F) : option (ultrametric_sample N F) :=
  let n_trees := length newick_strings in
  let taxon_order := sample_taxon_order newick_strings in
  calibration_taxon' ← sample_calibration_taxon newick_strings calibration_taxon;
  tree_arrays ← mapM (λ ns, generate_tree_array taxon_order ns calibration_taxon'
                                                calibration_date) newick_strings;
  Some (UltrametricSample n_trees tree_arrays newick_strings).

End UltrametricSample.

End Ultrametric.

(** ** Melting topology probabilities into clade probabilities *)

Section MeltCladeProbabilities.

Context {F : Type} `{Float64 F} {D : Type}.

(** [numpy.array(list(topology_hash)).view("a" + str(n_bytes))]: the
    characters of a topology hash regrouped in clade ids of [n_bytes] bytes,
    as the elements of the view are read; numpy raises [ValueError] when the
    characters cannot be regrouped. *)
Variable numpy_view : nat → string → option (list string).

(** [self.probabilities[clade_hash] += topology_probability]; a clade
    without a probability raises [KeyError]. *)
Definition melt_clade_step (topology_probability : F) (acc : option (gmap string F))
    (clade_hash : string) : option (gmap string F) :=
  m ← acc;
  p ← m !! clade_hash;
  Some (<[clade_hash := f_add p topology_probability]> m).

(** The body of the loop over the topologies; an index beyond the end of an
    array raises [IndexError]. *)
Definition melt_topology_step (topology_set : table F D) (n_bytes : nat)
    (acc : option (gmap string F)) (i : nat) : option (gmap string F) :=
  m ← acc;
  topology_hash ← hashes_array topology_set !! i;
  topology_probability ← probabilities_array topology_set !! i;
  clades_array ← numpy_view n_bytes topology_hash;
  foldl (melt_clade_step topology_probability) (Some m) clades_array.

(** [CladeProbabilities.melt_clade_probabilities]. *)
Definition melt_clade_probabilities (self : table F nat) (topology_set : table F D)
    (n_taxa : nat) : option (table F nat) :=
  let root_hash := calculate_root_hash n_taxa in
  let n_bytes := String.length root_hash in
  m ← foldl (melt_topology_step topology_set n_bytes) (Some (probabilities self))
            (seq 0 (n_features topology_set));
  convert_probabilities (set_probabilities self m).

End MeltCladeProbabilities.

(** ** Facts on bits and bytes *)

Section BitsFacts.

(** Two bit arrays denote the same set of positions when they agree at every
    index, whatever their lengths. *)
Definition bits_eq (l1 l2 : list bool) : Prop := ∀ i, bit l1 i = bit l2 i.

Lemma bit_lookup l i : bit l i = default false (l !! i).
Proof.
  unfold bit. revert i. induction l as [|b l IH]; intros [|i]; simpl; auto.
Qed.

Lemma bit_ge l i : length l ≤ i → bit l i = false.
Proof. intros H. unfold bit. by apply nth_overflow. Qed.

Lemma bit_true_lt l i : bit l i = true → i < length l.
Proof.
  intros H. destruct (decide (i < length l)) as [|Hn]; [done|].
  rewrite bit_ge in H; [done | lia].
Qed.

Lemma bit_app_l l1 l2 i : i < length l1 → bit (l1 ++ l2) i = bit l1 i.
Proof. intros H. unfold bit. by apply app_nth1. Qed.

Lemma bit_app_r l1 l2 i : length l1 ≤ i → bit (l1 ++ l2) i = bit l2 (i - length l1).
Proof. intros H. unfold bit. by apply app_nth2. Qed.

Lemma bit_replicate_false n i : bit (replicate n false) i = false.
Proof.
  rewrite bit_lookup. destruct (replicate n false !! i) as [b|] eqn:E; [|done].
  apply lookup_replicate in E as [-> _]. done.
Qed.

Lemma bit_app_false l n i : bit (l ++ replicate n false) i = bit l i.
Proof.
  destruct (decide (i < length l)) as [H|H].
  - by apply bit_app_l.
  - rewrite bit_app_r by lia. rewrite bit_replicate_false.
    symmetry. apply bit_ge. lia.
Qed.

Lemma length_string_of_bytes l : String.length (string_of_bytes l) = length l.
Proof. induction l; simpl; auto. Qed.

Lemma length_unpackbits s : length (unpackbits s) = 8 * String.length s.
Proof.
  induction s as [|[b0 b1 b2 b3 b4 b5 b6 b7] s IH]; simpl; [done|].
  rewrite IH. lia.
Qed.

Lemma length_packbits bits : String.length (packbits bits) = (length bits + 7) / 8.
Proof. unfold packbits. by rewrite length_string_of_bytes, length_map, length_seq. Qed.

Lemma bit_unpack_bytes bits m k i :
  bit (unpackbits (string_of_bytes (map (pack_byte bits) (seq k m)))) i
  = if decide (i < 8 * m) then bit bits (8 * k + i) else false.
Proof.
  revert k i. induction m as [|m IH]; intros k i.
  - simpl. destruct i; done.
  - cbn [seq map string_of_bytes]. unfold pack_byte at 1. cbn [unpackbits].
    do 8 (destruct i as [|i];
          [unfold bit at 1; cbn [nth]; case_decide; [f_equal; lia | lia] |]).
    unfold bit at 1. cbn [nth]. fold (bit (unpackbits (string_of_bytes (map (pack_byte bits) (seq (S k) m)))) i).
    rewrite IH. repeat case_decide; try lia; try done.
    f_equal. lia.
Qed.

(** Unpacking a packed array gives the array back, padded with zeros. *)
Lemma bits_eq_unpack_pack bits : bits_eq (unpackbits (packbits bits)) bits.
Proof.
  intros i. unfold packbits. rewrite bit_unpack_bytes.
  case_decide as H; [f_equal; lia|].
  symmetry. apply bit_ge.
  pose proof (Nat.div_mod_eq (length bits + 7) 8) as E.
  pose proof (Nat.mod_upper_bound (length bits + 7) 8). lia.
Qed.

Lemma unpackbits_zero_byte s i :
  bit (unpackbits (String zero s)) i = if decide (i < 8) then false else bit (unpackbits s) (i - 8).
Proof.
  cbn [unpackbits zero]. do 8 (destruct i as [|i]; [done|]).
  case_decide; [lia|]. unfold bit. cbn [nth]. f_equal. lia.
Qed.

Lemma bit_unpack_cons a s1 s2 :
  bits_eq (unpackbits s1) (unpackbits s2) →
  bits_eq (unpackbits (String a s1)) (unpackbits (String a s2)).
Proof.
  intros H i. destruct a as [b0 b1 b2 b3 b4 b5 b6 b7]. cbn [unpackbits].
  do 8 (destruct i as [|i]; [done|]). unfold bit. cbn [nth]. apply H.
Qed.

(** Stripping trailing zero bytes does not change the set bits. *)
Lemma bits_eq_rstrip s : bits_eq (unpackbits (rstrip_nul s)) (unpackbits s).
Proof.
  induction s as [|a s IH]; [done|].
  cbn [rstrip_nul]. destruct (rstrip_nul s) as [|a' r] eqn:E.
  - destruct (Ascii.eqb a zero) eqn:Ea.
    + apply Ascii.eqb_eq in Ea as ->. intros i.
      rewrite unpackbits_zero_byte. case_decide; [unfold bit; by destruct i|].
      rewrite <- IH. unfold bit. simpl. by destruct (i - 8), i.
    + by apply bit_unpack_cons.
  - by apply bit_unpack_cons.
Qed.

Lemma rstrip_nul_last s : last_byte (rstrip_nul s) ≠ Some zero.
Proof.
  induction s as [|a s IH]; [done|].
  cbn [rstrip_nul]. destruct (rstrip_nul s) as [|a' r] eqn:E.
  - destruct (Ascii.eqb a zero) eqn:Ea; [done|].
    simpl. intros [= ->]. by rewrite Ascii.eqb_refl in Ea.
  - done.
Qed.

Lemma rstrip_nul_idemp s : rstrip_nul (rstrip_nul s) = rstrip_nul s.
Proof.
  induction s as [|a s IH]; [done|].
  cbn [rstrip_nul]. destruct (rstrip_nul s) as [|a' r] eqn:E.
  - destruct (Ascii.eqb a zero) eqn:Ea; [done|].
    cbn [rstrip_nul]. by rewrite Ea.
  - cbn [rstrip_nul] in *. by rewrite IH.
Qed.

End BitsFacts.

(** ** Counting set bits *)

Section Popcount.

Lemma popcount_nil : popcount [] = 0.
Proof. done. Qed.

Lemma popcount_cons b l : popcount (b :: l) = (if b then 1 else 0) + popcount l.
Proof. unfold popcount. rewrite filter_cons. by destruct b. Qed.

Lemma popcount_app l1 l2 : popcount (l1 ++ l2) = popcount l1 + popcount l2.
Proof. unfold popcount. by rewrite filter_app, length_app. Qed.

Lemma popcount_replicate_false n : popcount (replicate n false) = 0.
Proof. induction n as [|n IH]; [done|]. simpl. by rewrite popcount_cons. Qed.

Lemma popcount_le_length l : popcount l ≤ length l.
Proof. unfold popcount. apply length_filter. Qed.

Lemma bits_eq_refl l : bits_eq l l.
Proof. done. Qed.

Lemma bits_eq_sym l1 l2 : bits_eq l1 l2 → bits_eq l2 l1.
Proof. intros H i. by rewrite H. Qed.

Lemma bits_eq_trans l1 l2 l3 : bits_eq l1 l2 → bits_eq l2 l3 → bits_eq l1 l3.
Proof. intros H1 H2 i. by rewrite H1, H2. Qed.

Lemma bits_eq_cons_inv b1 l1 b2 l2 :
  bits_eq (b1 :: l1) (b2 :: l2) → b1 = b2 ∧ bits_eq l1 l2.
Proof. intros H. split; [apply (H 0) | intros i; apply (H (S i))]. Qed.

Lemma bits_eq_nil_popcount l : bits_eq l [] → popcount l = 0.
Proof.
  induction l as [|b l IH]; intros H; [done|].
  rewrite popcount_cons, IH.
  - pose proof (H 0) as H0. unfold bit in H0. simpl in H0. by rewrite H0.
  - intros i. pose proof (H (S i)) as Hi. unfold bit in *. simpl in *.
    rewrite Hi. by destruct i.
Qed.

(** The number of set bits depends on the set positions only. *)
Lemma popcount_bits_eq l1 l2 : bits_eq l1 l2 → popcount l1 = popcount l2.
Proof.
  revert l2. induction l1 as [|b1 l1 IH]; intros l2 H.
  - symmetry. apply bits_eq_nil_popcount. by apply bits_eq_sym.
  - destruct l2 as [|b2 l2]; [by apply bits_eq_nil_popcount|].
    apply bits_eq_cons_inv in H as [-> H].
    rewrite !popcount_cons. by rewrite (IH l2).
Qed.

Lemma bit_take l k i : bit (take k l) i = if decide (i < k) then bit l i else false.
Proof.
  rewrite !bit_lookup. case_decide as H.
  - by rewrite lookup_take_lt.
  - by rewrite lookup_take_ge by lia.
Qed.

Lemma bits_eq_take l1 l2 k : bits_eq l1 l2 → bits_eq (take k l1) (take k l2).
Proof. intros H i. rewrite !bit_take. case_decide; auto. Qed.

(** [rank l k]: how many bits are set before position [k]. *)
Definition rank (l : list bool) (k : nat) : nat := popcount (take k l).

Lemma rank_bits_eq l1 l2 k : bits_eq l1 l2 → rank l1 k = rank l2 k.
Proof. intros H. apply popcount_bits_eq. by apply bits_eq_take. Qed.

Lemma rank_0 l : rank l 0 = 0.
Proof. unfold rank. by rewrite take_0. Qed.

Lemma rank_S l k : rank l (S k) = rank l k + (if bit l k then 1 else 0).
Proof.
  unfold rank. rewrite bit_lookup.
  destruct (l !! k) as [b|] eqn:E.
  - rewrite (take_S_r _ _ _ E), popcount_app, popcount_cons, popcount_nil.
    simpl. destruct b; lia.
  - apply lookup_ge_None in E. rewrite !take_ge by lia. simpl. lia.
Qed.

Lemma rank_ge l k : length l ≤ k → rank l k = popcount l.
Proof. intros H. unfold rank. by rewrite take_ge. Qed.

Lemma rank_le l k : rank l k ≤ popcount l.
Proof.
  unfold rank. rewrite <- (take_drop k l) at 2. rewrite popcount_app. lia.
Qed.

End Popcount.

(** ** Closed form of the split decoder *)

Section Elucidate.

(** Bit [i] of child 1 and of child 2: a position of the parent goes to
    child 1 when the split has a set bit at the parent's rank there. *)
Definition child1_bit (P S : list bool) (i : nat) : bool :=
  bit P i && bit S (rank P i).
Definition child2_bit (P S : list bool) (i : nat) : bool :=
  bit P i && negb (bit S (rank P i)).

Lemma insert_fresh_tail (l : list bool) n k x :
  length l = k → k < n →
  <[k := x]> (l ++ replicate (n - k) false) = (l ++ [x]) ++ replicate (n - S k) false.
Proof.
  intros Hl Hk. replace (n - k) with (S (n - S k)) by lia.
  rewrite <- Hl. rewrite insert_app_r_alt by lia.
  rewrite Nat.sub_diag. simpl. by rewrite <- app_assoc.
Qed.

Lemma keep_fresh_tail (l : list bool) n k :
  k < n →
  l ++ replicate (n - k) false = (l ++ [false]) ++ replicate (n - S k) false.
Proof.
  intros Hk. replace (n - k) with (S (n - S k)) by lia.
  simpl. by rewrite <- app_assoc.
Qed.

Lemma split_fold P S n k :
  k ≤ n →
  foldl (split_step P S)
        (SplitState (replicate n false) (replicate n false) 0) (seq 0 k)
  = SplitState (map (child1_bit P S) (seq 0 k) ++ replicate (n - k) false)
               (map (child2_bit P S) (seq 0 k) ++ replicate (n - k) false)
               (rank P k).
Proof.
  induction k as [|k IH]; intros Hk.
  - simpl. by rewrite Nat.sub_0_r, rank_0.
  - rewrite seq_S, foldl_app, IH by lia. simpl.
    rewrite !map_app. simpl.
    unfold split_step. cbn [child1_bits child2_bits sp_j].
    rewrite rank_S.
    change (child1_bit P S k) with (bit P k && bit S (rank P k)).
    change (child2_bit P S k) with (bit P k && negb (bit S (rank P k))).
    destruct (bit P k) eqn:EP.
    + rewrite Nat.add_1_r.
      destruct (Nat.ltb_spec (rank P k) (length S)) as [Hlt|Hge].
      * destruct (bit S (rank P k)) eqn:ES; simpl; f_equal;
          first [ apply insert_fresh_tail; [by rewrite length_map, length_seq | lia]
                | apply keep_fresh_tail; lia ].
      * rewrite (bit_ge S) by lia. simpl. f_equal;
          first [ apply insert_fresh_tail; [by rewrite length_map, length_seq | lia]
                | apply keep_fresh_tail; lia ].
    + rewrite Nat.add_0_r. simpl. f_equal; apply keep_fresh_tail; lia.
Qed.

Lemma bit_map_seq (f : nat → bool) n i :
  bit (map f (seq 0 n)) i = if decide (i < n) then f i else false.
Proof.
  rewrite bit_lookup, list_lookup_fmap. case_decide as H.
  - by rewrite lookup_seq_lt.
  - by rewrite lookup_seq_ge by lia.
Qed.

(** The two ids returned by [elucidate_cc_split], as bits. *)
Lemma elucidate_cc_split_bits parent_id split_id :
  let P := unpackbits parent_id in
  let S := unpackbits split_id in
  (∀ i, bit (unpackbits (elucidate_cc_split parent_id split_id).1) i = child1_bit P S i) ∧
  (∀ i, bit (unpackbits (elucidate_cc_split parent_id split_id).2) i = child2_bit P S i).
Proof.
  intros P S. unfold elucidate_cc_split. fold P S.
  rewrite split_fold by done. cbn [child1_bits child2_bits fst snd].
  rewrite Nat.sub_diag. simpl. rewrite !app_nil_r.
  split; intros i; rewrite bits_eq_rstrip, bits_eq_unpack_pack, bit_map_seq;
    case_decide as H; try done.
  - unfold child1_bit. rewrite (bit_ge P) by lia. done.
  - unfold child2_bit. rewrite (bit_ge P) by lia. done.
Qed.

End Elucidate.

(** ** Ids are determined by their set bits *)

Section Canonical.

Lemma bits_eq_unpack_nil s : bits_eq (unpackbits s) [] → rstrip_nul s = EmptyString.
Proof.
  induction s as [|a s IH]; intros H; [done|].
  destruct a as [b0 b1 b2 b3 b4 b5 b6 b7].
  pose proof (H 0) as H0. pose proof (H 1) as H1. pose proof (H 2) as H2.
  pose proof (H 3) as H3. pose proof (H 4) as H4. pose proof (H 5) as H5.
  pose proof (H 6) as H6. pose proof (H 7) as H7.
  unfold bit in H0, H1, H2, H3, H4, H5, H6, H7. simpl in *. subst.
  rewrite IH; [done|].
  intros i. specialize (H (8 + i)). unfold bit in *. simpl in *.
  rewrite H. by destruct i.
Qed.

Lemma bits_eq_unpack_cons_inv a1 s1 a2 s2 :
  bits_eq (unpackbits (String a1 s1)) (unpackbits (String a2 s2)) →
  a1 = a2 ∧ bits_eq (unpackbits s1) (unpackbits s2).
Proof.
  intros H. destruct a1 as [b0 b1 b2 b3 b4 b5 b6 b7], a2 as [c0 c1 c2 c3 c4 c5 c6 c7].
  pose proof (H 0) as H0. pose proof (H 1) as H1. pose proof (H 2) as H2.
  pose proof (H 3) as H3. pose proof (H 4) as H4. pose proof (H 5) as H5.
  pose proof (H 6) as H6. pose proof (H 7) as H7.
  unfold bit in H0, H1, H2, H3, H4, H5, H6, H7. simpl in *. subst.
  split; [done|]. intros i. apply (H (8 + i)).
Qed.

(** Two byte strings with the same set bits are equal once their trailing
    zero bytes are stripped. *)
Lemma rstrip_nul_bits_eq s1 s2 :
  bits_eq (unpackbits s1) (unpackbits s2) → rstrip_nul s1 = rstrip_nul s2.
Proof.
  revert s2. induction s1 as [|a1 s1 IH]; intros s2 H.
  - symmetry. apply bits_eq_unpack_nil. by apply bits_eq_sym.
  - destruct s2 as [|a2 s2].
    + by apply bits_eq_unpack_nil.
    + apply bits_eq_unpack_cons_inv in H as [-> H].
      cbn [rstrip_nul]. by rewrite (IH s2 H).
Qed.

Lemma rstrip_nul_packbits_ext l1 l2 :
  bits_eq l1 l2 → rstrip_nul (packbits l1) = rstrip_nul (packbits l2).
Proof.
  intros H. apply rstrip_nul_bits_eq.
  eapply bits_eq_trans; [apply bits_eq_unpack_pack|].
  eapply bits_eq_trans; [apply H|]. apply bits_eq_sym, bits_eq_unpack_pack.
Qed.

Lemma elucidate_cc_split_closed parent_id split_id :
  let P := unpackbits parent_id in
  let S := unpackbits split_id in
  elucidate_cc_split parent_id split_id
  = (rstrip_nul (packbits (map (child1_bit P S) (seq 0 (length P)))),
     rstrip_nul (packbits (map (child2_bit P S) (seq 0 (length P))))).
Proof.
  intros P S. unfold elucidate_cc_split. fold P S.
  rewrite split_fold by done. cbn [child1_bits child2_bits].
  rewrite Nat.sub_diag. simpl. by rewrite !app_nil_r.
Qed.

Lemma child1_bit_ge P S i : length P ≤ i → child1_bit P S i = false.
Proof. intros H. unfold child1_bit. by rewrite bit_ge. Qed.

Lemma child2_bit_ge P S i : length P ≤ i → child2_bit P S i = false.
Proof. intros H. unfold child2_bit. by rewrite bit_ge. Qed.

(** The decoder reads the parent's set bits and, of the split, only the
    bits at ranks below the parent's size. *)
Lemma elucidate_cc_split_ext p s p' s' :
  bits_eq (unpackbits p) (unpackbits p') →
  (∀ r, r < clade_size p → bit (unpackbits s) r = bit (unpackbits s') r) →
  elucidate_cc_split p s = elucidate_cc_split p' s'.
Proof.
  intros HP HS.
  assert (∀ i, bit (unpackbits p) i = true → rank (unpackbits p) i < clade_size p) as Hr.
  { intros i Hi. unfold clade_size.
    pose proof (rank_le (unpackbits p) (Datatypes.S i)) as Hle.
    rewrite rank_S, Hi in Hle. lia. }
  rewrite !elucidate_cc_split_closed. f_equal.
  - apply rstrip_nul_packbits_ext. intros i. rewrite !bit_map_seq.
    assert (child1_bit (unpackbits p) (unpackbits s) i
            = child1_bit (unpackbits p') (unpackbits s') i) as E.
    { unfold child1_bit. rewrite <- HP, <- (rank_bits_eq _ _ _ HP).
      destruct (bit (unpackbits p) i) eqn:Ei; [|done]. simpl. by apply HS, Hr. }
    repeat case_decide; try done.
    + rewrite E. by apply child1_bit_ge; lia.
    + rewrite <- E. symmetry. by apply child1_bit_ge; lia.
  - apply rstrip_nul_packbits_ext. intros i. rewrite !bit_map_seq.
    assert (child2_bit (unpackbits p) (unpackbits s) i
            = child2_bit (unpackbits p') (unpackbits s') i) as E.
    { unfold child2_bit. rewrite <- HP, <- (rank_bits_eq _ _ _ HP).
      destruct (bit (unpackbits p) i) eqn:Ei; [|done]. simpl. f_equal. by apply HS, Hr. }
    repeat case_decide; try done.
    + rewrite E. by apply child2_bit_ge; lia.
    + rewrite <- E. symmetry. by apply child2_bit_ge; lia.
Qed.

Lemma clade_size_rstrip s : clade_size (rstrip_nul s) = clade_size s.
Proof. apply popcount_bits_eq, bits_eq_rstrip. Qed.

Lemma popcount_map_seq_split (f g h : nat → bool) n :
  (∀ i, i < n → f i = g i || h i) → (∀ i, i < n → g i && h i = false) →
  popcount (map f (seq 0 n)) = popcount (map g (seq 0 n)) + popcount (map h (seq 0 n)).
Proof.
  induction n as [|n IH]; intros Hu Hd; [done|].
  rewrite seq_S, !map_app, !popcount_app. simpl.
  rewrite !popcount_cons, !popcount_nil, IH by (intros; auto with lia).
  specialize (Hu n (Nat.lt_succ_diag_r n)). specialize (Hd n (Nat.lt_succ_diag_r n)).
  destruct (f n), (g n), (h n); simpl in *; try done; lia.
Qed.

Lemma map_bit_seq l : map (bit l) (seq 0 (length l)) = l.
Proof.
  apply list_eq. intros i. rewrite list_lookup_fmap.
  destruct (decide (i < length l)) as [H|H].
  - rewrite lookup_seq_lt by done. simpl. rewrite bit_lookup.
    destruct (lookup_lt_is_Some_2 l i H) as [b Hb]. by rewrite Hb.
  - rewrite lookup_seq_ge by lia. simpl. symmetry. apply lookup_ge_None. lia.
Qed.

(** The sizes of the two children add up to the size of the parent. *)
Lemma elucidate_cc_split_sizes parent_id split_id :
  clade_size (elucidate_cc_split parent_id split_id).1
  + clade_size (elucidate_cc_split parent_id split_id).2 = clade_size parent_id.
Proof.
  rewrite elucidate_cc_split_closed. cbn [fst snd].
  rewrite !clade_size_rstrip. unfold clade_size.
  rewrite !(popcount_bits_eq _ _ (bits_eq_unpack_pack _)).
  rewrite <- (map_bit_seq (unpackbits parent_id)) at 5.
  symmetry. apply popcount_map_seq_split; intros i _; unfold child1_bit, child2_bit.
  - by destruct (bit (unpackbits parent_id) i), (bit (unpackbits split_id) _).
  - by destruct (bit (unpackbits parent_id) i), (bit (unpackbits split_id) _).
Qed.

End Canonical.

(** C10. For every parent clade id and every split id, the two child ids
    returned by [elucidate_cc_split] have no set bit in common, every set bit
    of the parent is set in exactly one of them and no other bit is set, so
    the two taxon sets are disjoint and their union is the parent's (the sizes
    add up); neither child id ends in a zero byte. *)
Theorem elucidate_cc_split_partition parent_id split_id :
  let c := elucidate_cc_split parent_id split_id in
  (∀ i, bit (unpackbits c.1) i && bit (unpackbits c.2) i = false) ∧
  (∀ i, bit (unpackbits c.1) i || bit (unpackbits c.2) i = bit (unpackbits parent_id) i) ∧
  clade_size c.1 + clade_size c.2 = clade_size parent_id ∧
  last_byte c.1 ≠ Some zero ∧ last_byte c.2 ≠ Some zero ∧
  rstrip_nul c.1 = c.1 ∧ rstrip_nul c.2 = c.2.
Proof.
  intros c. subst c.
  destruct (elucidate_cc_split_bits parent_id split_id) as [H1 H2].
  repeat split.
  - intros i. rewrite H1, H2. unfold child1_bit, child2_bit.
    by destruct (bit (unpackbits parent_id) i), (bit (unpackbits split_id) _).
  - intros i. rewrite H1, H2. unfold child1_bit, child2_bit.
    by destruct (bit (unpackbits parent_id) i), (bit (unpackbits split_id) _).
  - apply elucidate_cc_split_sizes.
  - unfold elucidate_cc_split. cbn [fst]. apply rstrip_nul_last.
  - unfold elucidate_cc_split. cbn [snd]. apply rstrip_nul_last.
  - unfold elucidate_cc_split. cbn [fst]. apply rstrip_nul_idemp.
  - unfold elucidate_cc_split. cbn [snd]. apply rstrip_nul_idemp.
Qed.

(** ** Closed form of the encoder *)

Section Encode.

Variables children_a children_b : gset string.

(** The taxa of the order that belong to the clade. *)
Definition members (l : list string) : list string :=
  filter (λ t, t ∈ children_a ∪ children_b) l.

Definition member (t : string) : bool := bool_decide (t ∈ children_a ∪ children_b).

(** Whether the first member of the clade, in taxon order, is a taxon of
    [children_a]. *)
Definition first_in_a (l : list string) : bool :=
  match members l with
  | t :: _ => bool_decide (t ∈ children_a)
  | [] => false
  end.

(** The split bit of a member: set when it is on the side of the first one. *)
Definition split_bit (af : bool) (t : string) : bool :=
  xorb (bool_decide (t ∈ children_b)) af.

Record node_hash_inv (n : nat) (pre : list string) (st : node_hash_state) : Prop := {
  inv_parent : parent_boolean st = map member pre ++ replicate (n - length pre) false;
  inv_i : nh_i st = length (members pre);
  inv_split : split_boolean st
              = map (split_bit (a_first st)) (members pre)
                ++ replicate (n - length (members pre)) false;
  inv_first : members pre ≠ [] → a_first st = first_in_a pre
}.

Lemma members_app l1 l2 : members (l1 ++ l2) = members l1 ++ members l2.
Proof. apply filter_app. Qed.

Lemma members_snoc_in l t :
  t ∈ children_a ∪ children_b → members (l ++ [t]) = members l ++ [t].
Proof.
  intros H. rewrite members_app. f_equal. unfold members.
  rewrite filter_cons. by rewrite decide_True.
Qed.

Lemma members_snoc_out l t :
  t ∉ children_a ∪ children_b → members (l ++ [t]) = members l.
Proof.
  intros H. rewrite members_app. unfold members at 2.
  rewrite filter_cons. rewrite decide_False by done. simpl. by rewrite app_nil_r.
Qed.

Lemma length_members_le l : length (members l) ≤ length l.
Proof. apply length_filter. Qed.

Lemma first_in_a_app l1 l2 : members l1 ≠ [] → first_in_a (l1 ++ l2) = first_in_a l1.
Proof.
  intros H. unfold first_in_a. rewrite members_app.
  by destruct (members l1).
Qed.

Lemma node_hash_inv_step n pre t st :
  length pre < n →
  node_hash_inv n pre st →
  node_hash_inv n (pre ++ [t]) (node_hash_step children_a children_b st (length pre, t)).
Proof.
  intros Hn [Hp Hi Hs Hf]. unfold node_hash_step.
  pose proof (length_members_le pre) as Hle.
  destruct (bool_decide (t ∈ children_a ∪ children_b)) eqn:Et.
  - apply bool_decide_eq_true in Et.
    assert (member t = true) as Emt by (by apply bool_decide_eq_true).
    split; cbn [parent_boolean split_boolean nh_i a_first].
    + rewrite Hp, map_app, length_app. simpl. rewrite <- Emt.
      rewrite Nat.add_1_r. apply insert_fresh_tail; [by rewrite length_map | done].
    + rewrite members_snoc_in, length_app by done. simpl. lia.
    + rewrite members_snoc_in, length_app, map_app by done. simpl.
      rewrite Nat.add_1_r.
      destruct (Nat.eqb_spec (nh_i st) 0) as [E0|E0].
      * rewrite Hi in E0. apply nil_length_inv in E0.
        rewrite Hs, Hi, E0. simpl. rewrite Nat.sub_0_r.
        unfold split_bit.
        destruct n as [|n]; [lia|]. simpl. rewrite Nat.sub_0_r.
        by destruct (xorb _ _).
      * rewrite Hs, Hi.
        change (split_bit (a_first st) t)
          with (xorb (bool_decide (t ∈ children_b)) (a_first st)).
        destruct (xorb _ _).
        -- apply insert_fresh_tail; [by rewrite length_map | lia].
        -- apply keep_fresh_tail. lia.
    + intros _. destruct (Nat.eqb_spec (nh_i st) 0) as [E0|E0].
      * rewrite Hi in E0. apply nil_length_inv in E0.
        unfold first_in_a. rewrite members_snoc_in, E0 by done. done.
      * assert (members pre ≠ []) as Hne.
        { intros E. rewrite Hi, E in E0. done. }
        rewrite first_in_a_app by done. by apply Hf.
  - apply bool_decide_eq_false in Et.
    assert (member t = false) as Emt by (by apply bool_decide_eq_false).
    split.
    + rewrite Hp, map_app, length_app. simpl. rewrite Emt, Nat.add_1_r.
      apply keep_fresh_tail. lia.
    + by rewrite members_snoc_out.
    + by rewrite members_snoc_out.
    + rewrite members_snoc_out by done. intros Hne.
      rewrite first_in_a_app by done. by apply Hf.
Qed.

Lemma node_hash_inv_fold n post : ∀ pre st,
  length pre + length post ≤ n →
  node_hash_inv n pre st →
  node_hash_inv n (pre ++ post)
    (foldl (node_hash_step children_a children_b) st (zip (seq (length pre) (length post)) post)).
Proof.
  induction post as [|t post IH]; intros pre st Hn Hinv.
  - simpl. by rewrite app_nil_r.
  - simpl in *. rewrite (cons_middle t pre post), (assoc_L (++) pre [t] post).
    replace (Datatypes.S (length pre)) with (length (pre ++ [t]))
      by (rewrite length_app; simpl; lia).
    apply IH; [rewrite length_app; simpl; lia|].
    apply node_hash_inv_step; [lia | done].
Qed.

(** The ids computed by [calculate_node_hashes]: the parent id has a bit per
    taxon of the order, the split id a bit per member of the clade. *)
Lemma calculate_node_hashes_closed taxon_order :
  ∃ af, (members taxon_order ≠ [] → af = first_in_a taxon_order) ∧
  calculate_node_hashes children_a children_b taxon_order
  = (packbits (map member taxon_order),
     packbits (map (split_bit af) (members taxon_order)
               ++ replicate (length taxon_order - length (members taxon_order)) false)).
Proof.
  unfold calculate_node_hashes.
  set (st0 := NodeHashState _ _ _ _).
  assert (node_hash_inv (length taxon_order) [] st0) as H0.
  { split; simpl; try done. by rewrite Nat.sub_0_r. by rewrite Nat.sub_0_r. }
  pose proof (node_hash_inv_fold (length taxon_order) taxon_order [] st0
                ltac:(simpl; lia) H0) as [Hp Hi Hs Hf].
  simpl in *. exists (a_first (foldl (node_hash_step children_a children_b) st0
                               (zip (seq 0 (length taxon_order)) taxon_order))).
  split; [done|]. rewrite Hp, Hs, Nat.sub_diag. simpl. by rewrite app_nil_r.
Qed.

End Encode.

(** ** Decoding what was encoded *)

Section RoundTrip.

Lemma clade_taxon_names_fold bits (f : string → bool) taxon_order k :
  bits_eq bits (map f taxon_order) →
  foldl (taxon_names_step bits taxon_order) (Some []) (seq 0 k)
  = Some (filter (λ t, f t = true) (take k taxon_order)).
Proof.
  intros H. induction k as [|k IH]; [done|].
  rewrite seq_S, foldl_app, IH. simpl. unfold taxon_names_step. simpl.
  rewrite H, bit_lookup, list_lookup_fmap.
  destruct (taxon_order !! k) as [t|] eqn:E; simpl.
  - rewrite (take_S_r _ _ _ E), filter_app, filter_cons, filter_nil.
    case_decide as Ef.
    + by rewrite Ef.
    + apply not_true_is_false in Ef. by rewrite Ef, app_nil_r.
  - apply lookup_ge_None in E. by rewrite !take_ge by lia.
Qed.

(** The names of a clade id whose bits are those of a predicate on the taxon
    order. *)
Lemma clade_taxon_names_closed clade_hash (f : string → bool) taxon_order :
  bits_eq (unpackbits clade_hash) (map f taxon_order) →
  clade_taxon_names clade_hash taxon_order = Some (filter (λ t, f t = true) taxon_order).
Proof.
  intros H. unfold clade_taxon_names.
  rewrite (clade_taxon_names_fold _ f) by done.
  destruct (decide (length taxon_order ≤ length (unpackbits clade_hash))) as [Hl|Hl].
  - by rewrite take_ge.
  - f_equal. rewrite <- (take_drop (length (unpackbits clade_hash)) taxon_order) at 2.
    rewrite filter_app.
    assert (filter (λ t, f t = true) (drop (length (unpackbits clade_hash)) taxon_order) = []) as ->;
      [|by rewrite app_nil_r].
    destruct (filter _ (drop _ _)) as [|t l'] eqn:Ef; [done|]. exfalso.
    assert (t ∈ filter (λ t, f t = true) (drop (length (unpackbits clade_hash)) taxon_order))
      as [Hft Ht]%list_elem_of_filter by (rewrite Ef; left).
    apply list_elem_of_lookup in Ht as [i Hi]. rewrite lookup_drop in Hi.
    specialize (H (length (unpackbits clade_hash) + i)).
    rewrite bit_ge in H by lia.
    rewrite bit_lookup, list_lookup_fmap, Hi in H. simpl in H. congruence.
Qed.

Variables children_a children_b : gset string.
Hypothesis disjoint_children : children_a ## children_b.

Local Abbreviation mems := (members children_a children_b).
Local Abbreviation mem := (member children_a children_b).
Local Abbreviation sbit := (split_bit children_b).

(** The child that holds the first member, and the other one. *)
Definition first_child (af : bool) : gset string := if af then children_a else children_b.
Definition second_child (af : bool) : gset string := if af then children_b else children_a.

Lemma member_first af t : mem t && sbit af t = bool_decide (t ∈ first_child af).
Proof.
  unfold member, split_bit, first_child.
  destruct af; simpl.
  - rewrite xorb_true_r. apply eq_true_iff_eq.
    rewrite andb_true_iff, negb_true_iff, bool_decide_eq_false, !bool_decide_eq_true.
    set_solver.
  - rewrite xorb_false_r. apply eq_true_iff_eq.
    rewrite andb_true_iff, !bool_decide_eq_true. set_solver.
Qed.

Lemma member_second af t :
  mem t && negb (sbit af t) = bool_decide (t ∈ second_child af).
Proof.
  unfold member, split_bit, second_child.
  destruct af; simpl.
  - rewrite xorb_true_r, negb_involutive. apply eq_true_iff_eq.
    rewrite andb_true_iff, !bool_decide_eq_true. set_solver.
  - rewrite xorb_false_r. apply eq_true_iff_eq.
    rewrite andb_true_iff, negb_true_iff, bool_decide_eq_false, !bool_decide_eq_true.
    set_solver.
Qed.

Lemma popcount_map_member l : popcount (map mem l) = length (mems l).
Proof.
  induction l as [|t l IH]; [done|].
  cbn [map]. rewrite popcount_cons, IH. unfold members.
  rewrite filter_cons. unfold member.
  destruct (decide (t ∈ children_a ∪ children_b)) as [H|H].
  - by rewrite bool_decide_eq_true_2.
  - by rewrite bool_decide_eq_false_2.
Qed.

Lemma rank_map_member l i : rank (map mem l) i = length (mems (take i l)).
Proof. unfold rank. by rewrite <- fmap_take, popcount_map_member. Qed.

Lemma clade_size_encoded taxon_order :
  clade_size (calculate_node_hashes children_a children_b taxon_order).1
  = length (mems taxon_order).
Proof.
  destruct (calculate_node_hashes_closed children_a children_b taxon_order) as (af & _ & ->).
  cbn [fst]. unfold clade_size.
  by rewrite (popcount_bits_eq _ _ (bits_eq_unpack_pack _)), popcount_map_member.
Qed.

(** The bit of the split at the rank of a member is the member's split bit. *)
Lemma split_bit_at_rank (g : string → bool) taxon_order pad i t :
  taxon_order !! i = Some t → mem t = true →
  bit (map g (mems taxon_order) ++ pad) (length (mems (take i taxon_order))) = g t.
Proof.
  intros Hi Hm.
  rewrite <- (take_drop_middle _ _ _ Hi) at 1.
  rewrite members_app. unfold members at 2. rewrite filter_cons.
  rewrite decide_True by (by apply bool_decide_eq_true in Hm).
  rewrite map_app. cbn [map]. rewrite <- app_assoc.
  rewrite bit_app_r by (by rewrite length_map).
  rewrite length_map, Nat.sub_diag. done.
Qed.

(** The children decoded from the encoding of a clade, as bits over the taxon
    order, for any split id that agrees with the encoded one below the clade's
    size and any parent id with the encoded one's set bits. *)
Lemma decode_encode_bits taxon_order af parent_id split_id :
  (mems taxon_order ≠ [] → af = first_in_a children_a children_b taxon_order) →
  bits_eq (unpackbits parent_id) (map mem taxon_order) →
  (∀ r, r < length (mems taxon_order) →
        bit (unpackbits split_id) r = bit (map (sbit af) (mems taxon_order)) r) →
  bits_eq (unpackbits (elucidate_cc_split parent_id split_id).1)
          (map (λ t, bool_decide (t ∈ first_child af)) taxon_order) ∧
  bits_eq (unpackbits (elucidate_cc_split parent_id split_id).2)
          (map (λ t, bool_decide (t ∈ second_child af)) taxon_order).
Proof.
  intros Haf HP HS.
  destruct (elucidate_cc_split_bits parent_id split_id) as [H1 H2].
  assert (∀ i t, taxon_order !! i = Some t → mem t = true →
            bit (unpackbits split_id) (rank (unpackbits parent_id) i) = sbit af t) as Hbit.
  { intros i t Hi Hm. rewrite (rank_bits_eq _ _ _ HP), rank_map_member.
    rewrite HS.
    - rewrite <- (app_nil_r (map _ _)). by apply split_bit_at_rank.
    - rewrite <- (take_drop_middle _ _ _ Hi) at 2.
      rewrite members_app, length_app. unfold members at 3.
      rewrite filter_cons, decide_True by (by apply bool_decide_eq_true in Hm).
      simpl. lia. }
  split; intros i.
  - rewrite H1. unfold child1_bit. rewrite HP.
    rewrite !bit_lookup, !list_lookup_fmap.
    destruct (taxon_order !! i) as [t|] eqn:Ei; simpl; [|done].
    rewrite <- member_first.
    destruct (mem t) eqn:Em; [|done]. simpl.
    rewrite <- bit_lookup. by apply Hbit.
  - rewrite H2. unfold child2_bit. rewrite HP.
    rewrite !bit_lookup, !list_lookup_fmap.
    destruct (taxon_order !! i) as [t|] eqn:Ei; simpl; [|done].
    rewrite <- member_second.
    destruct (mem t) eqn:Em; [|done]. simpl.
    rewrite <- bit_lookup. f_equal. by apply Hbit.
Qed.

End RoundTrip.

Section CanonicalOrder.

Variables children_a children_b : gset string.
Hypothesis disjoint_children : children_a ## children_b.

Lemma members_comm l : members children_b children_a l = members children_a children_b l.
Proof. unfold members. by rewrite (union_comm_L children_b). Qed.

Lemma member_comm t : member children_b children_a t = member children_a children_b t.
Proof. unfold member. by rewrite (union_comm_L children_b). Qed.

Lemma elem_of_members l t :
  t ∈ members children_a children_b l ↔ t ∈ children_a ∪ children_b ∧ t ∈ l.
Proof. unfold members. by rewrite list_elem_of_filter. Qed.

Lemma first_in_a_comm l :
  members children_a children_b l ≠ [] →
  first_in_a children_b children_a l = negb (first_in_a children_a children_b l).
Proof.
  intros Hne. unfold first_in_a. rewrite members_comm.
  destruct (members children_a children_b l) as [|t m] eqn:E; [done|].
  assert (t ∈ children_a ∪ children_b) as Ht.
  { apply (elem_of_members l). rewrite E. left. }
  apply eq_true_iff_eq.
  rewrite negb_true_iff, bool_decide_eq_false, bool_decide_eq_true. set_solver.
Qed.

Lemma split_bit_comm af t :
  t ∈ children_a ∪ children_b →
  split_bit children_a (negb af) t = split_bit children_b af t.
Proof.
  intros Ht. unfold split_bit.
  assert (bool_decide (t ∈ children_b) = negb (bool_decide (t ∈ children_a))) as ->.
  { apply eq_true_iff_eq.
    rewrite negb_true_iff, bool_decide_eq_false, bool_decide_eq_true. set_solver. }
  by destruct (bool_decide _), af.
Qed.

(** The encoder does not depend on which child is passed first. *)
Lemma calculate_node_hashes_comm taxon_order :
  calculate_node_hashes children_b children_a taxon_order
  = calculate_node_hashes children_a children_b taxon_order.
Proof.
  destruct (calculate_node_hashes_closed children_a children_b taxon_order) as (af & Haf & ->).
  destruct (calculate_node_hashes_closed children_b children_a taxon_order) as (af' & Haf' & ->).
  rewrite members_comm in *. f_equal; f_equal.
  - apply map_ext. intros t. apply member_comm.
  - f_equal. destruct (members children_a children_b taxon_order) as [|t0 m] eqn:E; [done|].
    rewrite Haf', Haf, first_in_a_comm by (by rewrite ?E).
    rewrite <- E. apply map_ext_in. intros t Ht.
    apply split_bit_comm. apply list_elem_of_In in Ht. by apply elem_of_members in Ht as [? _].
Qed.

End CanonicalOrder.

Lemma list_to_set_filter_elem (F : gset string) (l : list string) :
  (∀ x, x ∈ F → x ∈ l) →
  list_to_set (filter (λ t, bool_decide (t ∈ F) = true) l) = F.
Proof.
  intros Hsub. apply set_eq. intros x.
  rewrite elem_of_list_to_set, list_elem_of_filter, bool_decide_eq_true.
  split; [by intros [? _] | intros Hx; split; auto].
Qed.

Lemma first_child_sub (a b : gset string) af x :
  x ∈ first_child a b af → x ∈ a ∪ b.
Proof. unfold first_child. destruct af; set_solver. Qed.

Lemma second_child_sub (a b : gset string) af x :
  x ∈ second_child a b af → x ∈ a ∪ b.
Proof. unfold second_child. destruct af; set_solver. Qed.

Lemma first_second_disjoint (a b : gset string) af x :
  a ## b → x ∈ second_child a b af → x ∉ first_child a b af.
Proof. unfold first_child, second_child. destruct af; set_solver. Qed.

(** C1. For disjoint non-empty sets of taxa of the taxon order,
    [calculate_node_hashes] returns the same pair of ids whichever set is
    passed first, and [elucidate_cc_split] recovers the two sets from that
    pair: child 1 is the set holding the first taxon of the clade, child 2
    the other one. The same holds when the ids are stored with their trailing
    zero bytes stripped (the bits beyond the stored split go to child 2), and
    for a clade of two taxa when the split id is the cherry id. *)
Theorem node_hashes_canonical_invertible
    (children_a children_b : gset string) (taxon_order : list string) :
  children_a ## children_b → children_a ≠ ∅ → children_b ≠ ∅ →
  (∀ t, t ∈ children_a ∪ children_b → t ∈ taxon_order) →
  let ids := calculate_node_hashes children_a children_b taxon_order in
  let af := first_in_a children_a children_b taxon_order in
  calculate_node_hashes children_b children_a taxon_order = ids ∧
  ∀ parent_id split_id,
    parent_id = ids.1 ∨ parent_id = rstrip_nul ids.1 →
    split_id = ids.2 ∨ split_id = rstrip_nul ids.2
      ∨ (clade_size ids.1 = 2 ∧ split_id = cherry_hash) →
    ∃ names1 names2,
      clade_taxon_names (elucidate_cc_split parent_id split_id).1 taxon_order = Some names1 ∧
      clade_taxon_names (elucidate_cc_split parent_id split_id).2 taxon_order = Some names2 ∧
      list_to_set names1 = first_child children_a children_b af ∧
      list_to_set names2 = second_child children_a children_b af.
Proof.
  intros Hdisj Ha Hb Hsub ids af.
  split; [by apply calculate_node_hashes_comm|].
  intros parent_id split_id Hpid Hsid.
  assert (members children_a children_b taxon_order ≠ []) as Hne.
  { apply set_choose_L in Ha as [x Hx].
    intros E. assert (x ∈ members children_a children_b taxon_order) as Hin.
    { apply elem_of_members. split; [set_solver | apply Hsub; set_solver]. }
    rewrite E in Hin. by apply elem_of_nil in Hin. }
  pose proof (clade_size_encoded children_a children_b taxon_order) as Hsize.
  fold ids in Hsize.
  destruct (calculate_node_hashes_closed children_a children_b taxon_order)
    as (af0 & Haf0 & Hids).
  specialize (Haf0 Hne). fold af in Haf0. subst af0. fold ids in Hids.
  assert (∀ t, t ∈ members children_a children_b taxon_order →
            split_bit children_b af t = bool_decide (t ∈ first_child children_a children_b af))
    as Hsb.
  { intros t [Ht _]%elem_of_members.
    rewrite <- (member_first children_a children_b Hdisj).
    unfold member. by rewrite bool_decide_eq_true_2. }
  destruct (decode_encode_bits children_a children_b Hdisj taxon_order af parent_id split_id)
    as [H1 H2].
  - done.
  - destruct Hpid as [-> | ->]; rewrite Hids; cbn [fst].
    + apply bits_eq_unpack_pack.
    + eapply bits_eq_trans; [apply bits_eq_rstrip | apply bits_eq_unpack_pack].
  - intros r Hr. destruct Hsid as [-> | [-> | [Hc ->]]].
    + rewrite Hids. cbn [snd]. by rewrite bits_eq_unpack_pack, bit_app_false.
    + rewrite Hids. cbn [snd].
      by rewrite bits_eq_rstrip, bits_eq_unpack_pack, bit_app_false.
    + rewrite Hsize in Hc.
      destruct (members children_a children_b taxon_order) as [|t0 [|t1 [|? ?]]] eqn:E;
        try done.
      assert (t0 ∈ children_a ∪ children_b) as Ht0.
      { apply (elem_of_members _ _ taxon_order). rewrite E. left. }
      assert (t0 ∈ first_child children_a children_b af) as Hf0.
      { unfold first_child, af, first_in_a. rewrite E.
        case_bool_decide; [done|]. clear -Ht0 H. set_solver. }
      assert (t1 ∉ first_child children_a children_b af) as Hf1.
      { assert (∃ y, y ∈ second_child children_a children_b af) as [y Hy].
        { unfold second_child. destruct af; by apply set_choose_L. }
        assert (y ∈ members children_a children_b taxon_order) as Hym.
        { apply elem_of_members.
          pose proof (second_child_sub _ _ _ _ Hy).
          split; [done | by apply Hsub]. }
        assert (y ∉ first_child children_a children_b af) as Hyf
          by (by apply first_second_disjoint).
        rewrite E in Hym. apply elem_of_cons in Hym as [-> | Hym]; [done|].
        apply list_elem_of_singleton in Hym as ->. done. }
      cbn [map].
      rewrite (Hsb t0) by (left).
      rewrite (Hsb t1) by (right; left).
      rewrite bool_decide_eq_true_2, bool_decide_eq_false_2 by done.
      destruct r as [|[|r]]; [done | done | simpl in Hr; lia].
  - eexists _, _. split; [by apply clade_taxon_names_closed|].
    split; [by apply clade_taxon_names_closed|].
    split; apply list_to_set_filter_elem; intros x Hx; apply Hsub.
    + by apply first_child_sub in Hx.
    + by apply second_child_sub in Hx.
Qed.

(** C1 at the taxa A to J, the clade {A, C, J} split into {J} and
    {A, C}. *)
Lemma node_hashes_canonical_invertible_witness :
  let order := ["A"; "B"; "C"; "D"; "E"; "F"; "G"; "H"; "I"; "J"]%string in
  let ids := calculate_node_hashes {["J"%string]} {["A"%string; "C"%string]} order in
  calculate_node_hashes {["A"%string; "C"%string]} {["J"%string]} order = ids ∧
  ∃ names1 names2,
    clade_taxon_names (elucidate_cc_split ids.1 (rstrip_nul ids.2)).1 order = Some names1 ∧
    clade_taxon_names (elucidate_cc_split ids.1 (rstrip_nul ids.2)).2 order = Some names2 ∧
    list_to_set names1 = ({["A"%string; "C"%string]} : gset string) ∧
    list_to_set names2 = ({["J"%string]} : gset string).
Proof.
  intros order ids.
  destruct (node_hashes_canonical_invertible {["J"%string]} {["A"%string; "C"%string]} order)
    as [Hc Hd]; [set_solver | set_solver | set_solver | set_solver |].
  split; [exact Hc|].
  exact (Hd ids.1 (rstrip_nul ids.2) (or_introl eq_refl) (or_intror (or_introl eq_refl))).
Defined.

(** ** Arrays: deleting positions, sorting indices *)

Section DeleteFrom.

Context {A : Type}.
Implicit Types (arr : list A) (indices : list nat).

Lemma elem_of_delete_from indices i arr x :
  x ∈ delete_from indices i arr ↔ ∃ j, arr !! j = Some x ∧ i + j ∉ indices.
Proof.
  revert i. induction arr as [|y arr IH]; intros i; simpl.
  - split; [by intros ?%elem_of_nil | by intros (j & ? & _)].
  - case_bool_decide as Hi.
    + rewrite IH. split.
      * intros (j & Hj & Hn). exists (S j). split; [done|].
        by replace (i + S j) with (S i + j) by lia.
      * intros ([|j] & Hj & Hn).
        -- by rewrite Nat.add_0_r in Hn.
        -- exists j. split; [done|]. by replace (S i + j) with (i + S j) by lia.
    + rewrite elem_of_cons, IH. split.
      * intros [-> | (j & Hj & Hn)].
        -- exists 0. by rewrite Nat.add_0_r.
        -- exists (S j). split; [done|]. by replace (i + S j) with (S i + j) by lia.
      * intros ([|j] & Hj & Hn).
        -- left. by injection Hj.
        -- right. exists j. split; [done|]. by replace (S i + j) with (i + S j) by lia.
Qed.

(** Where the element of position [j] is found once the positions of
    [indices] are deleted. *)
Definition new_position indices (i j : nat) : nat :=
  length (filter (λ k, k ∉ indices) (seq i j)).

Lemma new_position_S indices i j :
  new_position indices i (S j)
  = (if bool_decide (i ∈ indices) then 0 else 1) + new_position indices (S i) j.
Proof.
  unfold new_position. cbn [seq]. rewrite filter_cons.
  case_bool_decide as Hi.
  - by rewrite decide_False by (by intros ?).
  - by rewrite decide_True.
Qed.

Lemma delete_from_lookup indices i arr j x :
  arr !! j = Some x → i + j ∉ indices →
  delete_from indices i arr !! new_position indices i j = Some x.
Proof.
  revert i j. induction arr as [|y arr IH]; intros i j Hj Hn; [done|].
  destruct j as [|j]; simpl.
  - rewrite Nat.add_0_r in Hn. injection Hj as ->.
    by rewrite bool_decide_eq_false_2.
  - rewrite new_position_S. simpl in Hj.
    replace (i + S j) with (S i + j) in Hn by lia.
    case_bool_decide; simpl; by apply IH.
Qed.

Lemma length_delete_from indices i arr :
  length (delete_from indices i arr) = new_position indices i (length arr).
Proof.
  revert i. induction arr as [|y arr IH]; intros i; [done|].
  simpl. rewrite new_position_S. case_bool_decide; simpl; by rewrite IH.
Qed.

Lemma NoDup_delete_from indices i arr : NoDup arr → NoDup (delete_from indices i arr).
Proof.
  revert i. induction arr as [|y arr IH]; intros i Hnd; simpl; [constructor|].
  apply NoDup_cons in Hnd as [Hy Hnd]. case_bool_decide; [by apply IH|].
  apply NoDup_cons. split; [|by apply IH].
  rewrite elem_of_delete_from. intros (j & Hj & _).
  apply Hy. by eapply list_elem_of_lookup_2.
Qed.

Lemma numpy_delete_Some arr indices :
  Forall (λ i, i < length arr) indices →
  numpy_delete arr indices = Some (delete_from indices 0 arr).
Proof.
  intros Hall. unfold numpy_delete.
  assert (forallb (λ i, Nat.ltb i (length arr)) indices = true) as ->; [|done].
  apply forallb_forall. intros i Hi%list_elem_of_In.
  apply Nat.ltb_lt. by eapply Forall_forall in Hall.
Qed.

End DeleteFrom.

Section ArgsortInsertion.

Context {F : Type} `{Float64 F}.
Hypothesis f_leb_total : ∀ x y : F, f_leb x y = true ∨ f_leb y x = true.
Hypothesis f_leb_trans : ∀ x y z : F, f_leb x y = true → f_leb y z = true → f_leb x z = true.

Implicit Types l : list F.

Definition value_at l (i : nat) : F := nth i l f_zero.

Lemma insert_index_perm l i s : insert_index l i s ≡ₚ i :: s.
Proof.
  induction s as [|j s IH]; simpl; [done|].
  destruct (f_leb _ _); [done|]. rewrite IH. apply Permutation_swap.
Qed.

Lemma insert_index_sorted l i s :
  StronglySorted (λ a b, f_leb (value_at l a) (value_at l b) = true) s →
  StronglySorted (λ a b, f_leb (value_at l a) (value_at l b) = true) (insert_index l i s).
Proof.
  induction s as [|j s IH]; intros Hs; simpl.
  - repeat constructor.
  - apply StronglySorted_inv in Hs as [Hs Hj].
    destruct (f_leb (nth i l f_zero) (nth j l f_zero)) eqn:E.
    + constructor; [by constructor|].
      constructor; [done|].
      eapply Forall_impl; [exact Hj|]. intros k Hk. by eapply f_leb_trans.
    + constructor; [by apply IH|].
      rewrite (insert_index_perm l i s). constructor; [|done].
      destruct (f_leb_total (value_at l i) (value_at l j)) as [E'|E']; [|done].
      unfold value_at in E'. congruence.
Qed.

Lemma argsort_insertion_fold l idxs :
  foldr (insert_index l) [] idxs ≡ₚ idxs ∧
  StronglySorted (λ a b, f_leb (value_at l a) (value_at l b) = true) (foldr (insert_index l) [] idxs).
Proof.
  induction idxs as [|i idxs [IHp IHs]]; simpl; [split; [done | constructor]|].
  split.
  - by rewrite insert_index_perm, IHp.
  - by apply insert_index_sorted.
Qed.

Lemma StronglySorted_lookup {B} (R : B → B → Prop) (s : list B) a b x y :
  StronglySorted R s → a < b → s !! a = Some x → s !! b = Some y → R x y.
Proof.
  intros Hs. revert a b. induction Hs as [|z s Hs IH Hz]; intros a b Hab Ha Hb; [done|].
  destruct b as [|b]; [lia|]. simpl in Hb.
  destruct a as [|a]; simpl in Ha.
  - injection Ha as ->. eapply Forall_forall in Hz; [done|].
    by eapply list_elem_of_lookup_2.
  - eapply (IH a b); [lia | done | done].
Qed.

(** The insertion argsort is an argsort. *)
Lemma argsort_insertion_spec l : is_argsort l (argsort_insertion l).
Proof.
  destruct (argsort_insertion_fold l (seq 0 (length l))) as [Hp Hs].
  split; [done|].
  intros a b ia ib x y Hab Ha Hb Hx Hy.
  pose proof (StronglySorted_lookup _ _ a b ia ib Hs Hab Ha Hb) as Hle.
  unfold value_at in Hle.
  by rewrite (nth_lookup_Some _ _ _ _ Hx), (nth_lookup_Some _ _ _ _ Hy) in Hle.
Qed.

End ArgsortInsertion.

Lemma Qle_bool_total (x y : Q) : Qle_bool x y = true ∨ Qle_bool y x = true.
Proof.
  rewrite !Qle_bool_iff. destruct (Qlt_le_dec x y) as [Hlt|Hle]; [left | by right].
  by apply Qlt_le_weak.
Qed.

Lemma Qle_bool_trans (x y z : Q) :
  Qle_bool x y = true → Qle_bool y z = true → Qle_bool x z = true.
Proof. rewrite !Qle_bool_iff. apply Qle_trans. Qed.

Lemma argsort_insertion_Q (l : list Q) : is_argsort l (argsort_insertion l).
Proof. apply argsort_insertion_spec; [apply Qle_bool_total | apply Qle_bool_trans]. Qed.

(** ** Tables: overwriting and filling probabilities *)

Lemma mapM_ext_elem {A B} (f g : A → option B) (l : list A) :
  (∀ x, x ∈ l → f x = g x) → mapM f l = mapM g l.
Proof.
  induction l as [|x l IH]; intros Hfg; [done|].
  simpl. rewrite (Hfg x) by left. rewrite IH; [done|].
  intros y Hy. apply Hfg. by right.
Qed.

Section TableFacts.

Context {F : Type} `{Float64 F} {D : Type}.
Implicit Types (self : table F D) (m probs : gmap string F).

(** A table as [__init__] and [convert_probabilities] leave it: distinct
    hashes, a payload per hash, and the array of the probabilities of the
    hashes, in their order. *)
Definition table_wf self : Prop :=
  NoDup (hashes_array self) ∧
  length (data_array self) = length (hashes_array self) ∧
  mapM (λ h, probabilities self !! h) (hashes_array self) = Some (probabilities_array self).

Lemma table_wf_lookup self i h :
  table_wf self → hashes_array self !! i = Some h →
  ∃ p, probabilities self !! h = Some p ∧ probabilities_array self !! i = Some p.
Proof.
  intros (_ & _ & Hm) Hi. apply mapM_Some in Hm.
  destruct (Forall2_lookup_l _ _ _ _ _ Hm Hi) as (p & Hp & Hhp). eauto.
Qed.

Lemma table_wf_length self :
  table_wf self → length (probabilities_array self) = length (hashes_array self).
Proof. intros (_ & _ & Hm). apply mapM_Some in Hm. symmetry. by eapply Forall2_length. Qed.

Lemma convert_probabilities_Some self :
  (∀ h, h ∈ hashes_array self → is_Some (probabilities self !! h)) →
  ∃ parr, mapM (λ h, probabilities self !! h) (hashes_array self) = Some parr ∧
    convert_probabilities self
    = Some (Table (n_features self) (hashes_array self) (data_array self)
                  (probabilities self) parr).
Proof.
  intros Hall.
  destruct (mapM (λ h, probabilities self !! h) (hashes_array self)) as [parr|] eqn:E.
  - exists parr. split; [done|]. unfold convert_probabilities. by rewrite E.
  - apply mapM_None in E. apply Exists_exists in E as (h & Hh & Hn).
    destruct (Hall h Hh) as [p Hp]. congruence.
Qed.

(** The loop of [add_probabilities]. *)
Lemma add_probabilities_fold probs hashes : ∀ m,
  (∀ h, h ∈ hashes → is_Some (probs !! h)) →
  ∃ m', foldl (add_probabilities_step probs) (Some m) hashes = Some m' ∧
    (∀ h, h ∈ hashes → m' !! h = probs !! h) ∧
    (∀ k, k ∉ hashes → m' !! k = m !! k).
Proof.
  induction hashes as [|h hashes IH]; intros m Hall.
  - exists m. split; [done|]. split; [by intros ? ?%elem_of_nil | done].
  - destruct (Hall h) as [p Hp]; [left|].
    simpl. rewrite Hp. simpl.
    destruct (IH (<[h:=p]> m)) as (m' & Hf & Hin & Hout).
    { intros k Hk. apply Hall. by right. }
    exists m'. split; [done|]. split.
    + intros k Hk. destruct (decide (k ∈ hashes)) as [Hk'|Hk']; [by apply Hin|].
      apply elem_of_cons in Hk as [-> | Hk]; [|done].
      by rewrite Hout, lookup_insert_eq.
    + intros k Hk. apply not_elem_of_cons in Hk as [Hne Hk].
      by rewrite Hout, lookup_insert_ne.
Qed.

Lemma add_probabilities_fold_None probs hashes : ∀ acc,
  Exists (λ h, probs !! h = None) hashes →
  foldl (add_probabilities_step probs) acc hashes = None.
Proof.
  assert (∀ l, foldl (add_probabilities_step probs) None l = None) as HN.
  { induction l as [|? ? IH]; [done|]. simpl. apply IH. }
  induction hashes as [|h hashes IH]; intros acc Hex.
  - by apply Exists_nil in Hex.
  - simpl. apply Exists_cons in Hex as [Hh | Hex]; [|by apply IH].
    destruct acc as [m|]; simpl; [|apply HN].
    rewrite Hh. simpl. apply HN.
Qed.

(** The loop of [probabilities_from_counts] when no hash has a count. *)
Lemma from_counts_fold_empty log_sum exp hashes : ∀ m,
  ∃ m', foldl (from_counts_step exp ∅ log_sum) (Some m) hashes = Some m' ∧
    (∀ h, h ∈ hashes → m' !! h = Some f_zero) ∧
    (∀ k, k ∉ hashes → m' !! k = m !! k).
Proof.
  induction hashes as [|h hashes IH]; intros m.
  - exists m. split; [done|]. split; [by intros ? ?%elem_of_nil | done].
  - simpl. rewrite lookup_empty.
    destruct (IH (<[h:=f_zero]> m)) as (m' & Hf & Hin & Hout).
    exists m'. split; [done|]. split.
    + intros k Hk. destruct (decide (k ∈ hashes)) as [Hk'|Hk']; [by apply Hin|].
      apply elem_of_cons in Hk as [-> | Hk]; [|done].
      by rewrite Hout, lookup_insert_eq.
    + intros k Hk. apply not_elem_of_cons in Hk as [Hne Hk].
      by rewrite Hout, lookup_insert_ne.
Qed.

End TableFacts.

(** C4, as the code has it. [add_probabilities] overwrites the probability of
    every hash of the table with the value the argument holds for it and
    leaves the other attributes, and the entries under other keys, as they
    were. It reads the argument at every hash of the table: when the argument
    misses one of them the call fails with [KeyError] and returns no table. *)
Theorem add_probabilities_overwrites {F : Type} `{Float64 F} {D : Type}
    (self : table F D) (probs : gmap string F) :
  (Forall (λ h, is_Some (probs !! h)) (hashes_array self) →
   ∃ t', add_probabilities self probs = Some t' ∧
     hashes_array t' = hashes_array self ∧ data_array t' = data_array self ∧
     (∀ h, h ∈ hashes_array self → probabilities t' !! h = probs !! h) ∧
     (∀ k, k ∉ hashes_array self → probabilities t' !! k = probabilities self !! k) ∧
     mapM (λ h, probs !! h) (hashes_array self) = Some (probabilities_array t')) ∧
  (Exists (λ h, probs !! h = None) (hashes_array self) →
   add_probabilities self probs = None).
Proof.
  split.
  - intros Hall. rewrite Forall_forall in Hall.
    destruct (add_probabilities_fold probs (hashes_array self) (probabilities self) Hall)
      as (m' & Hf & Hin & Hout).
    destruct (convert_probabilities_Some (set_probabilities self m')) as (parr & Hm & Hc).
    { simpl. intros h Hh. rewrite Hin by done. by apply Hall. }
    simpl in *. unfold add_probabilities. rewrite Hf. simpl. rewrite Hc.
    eexists. split; [done|]. simpl. repeat split; try done.
    rewrite <- Hm. apply mapM_ext_elem. intros h Hh.
    symmetry. by apply Hin.
  - intros Hex. unfold add_probabilities.
    by rewrite add_probabilities_fold_None.
Qed.

(** C9, as the code has it. With an empty count map
    [probabilities_from_counts] does not fail: it gives every hash of the
    table the probability 0, whatever was stored before. *)
Theorem probabilities_from_counts_empty {F : Type} `{Float64 F} {D : Type}
    (math_log : Z → option F) (math_exp : F → option F) (logaddexp_reduce : list F → F)
    (self : table F D) :
  ∃ t', probabilities_from_counts math_log math_exp logaddexp_reduce self ∅ = Some t' ∧
    hashes_array t' = hashes_array self ∧ data_array t' = data_array self ∧
    (∀ h, h ∈ hashes_array self → probabilities t' !! h = Some f_zero) ∧
    (∀ k, k ∉ hashes_array self → probabilities t' !! k = probabilities self !! k) ∧
    probabilities_array t' = replicate (length (hashes_array self)) f_zero.
Proof.
  unfold probabilities_from_counts. rewrite map_to_list_empty. simpl.
  destruct (from_counts_fold_empty None math_exp (hashes_array self) (probabilities self))
    as (m' & Hf & Hin & Hout).
  rewrite Hf. simpl.
  destruct (convert_probabilities_Some (set_probabilities self m')) as (parr & Hm & Hc).
  { simpl. intros h Hh. by rewrite Hin. }
  rewrite Hc. eexists. split; [done|]. simpl in *. repeat split; try done.
  apply mapM_Some in Hm. apply list_eq. intros i.
  destruct (hashes_array self !! i) as [h|] eqn:Eh.
  - destruct (Forall2_lookup_l _ _ _ _ _ Hm Eh) as (p & Hp & Hhp).
    rewrite Hp. rewrite Hin in Hhp by (by eapply list_elem_of_lookup_2).
    rewrite lookup_replicate_2 by (by eapply lookup_lt_Some). by injection Hhp as ->.
  - apply lookup_ge_None in Eh.
    rewrite (proj1 (lookup_replicate_None _ _ _)) by lia. apply lookup_ge_None.
    by rewrite <- (Forall2_length _ _ _ Hm).
Qed.

(** ** Culling a table *)

Section Cull.

Context {F : Type} `{Float64 F} {D : Type}.
Variable self : table F D.
Variable max_features : Z.
Variable max_probability : F.

(** The cumulative probability after the visits of [vs], from [pp]. *)
Definition run_probability (pp : F) (vs : list nat) : F :=
  foldl (λ acc i, f_add acc (nth i (probabilities_array self) f_zero)) pp vs.

(** The test of the loop: one of the two running values has reached its
    threshold. *)
Definition reached (k : nat) (pp : F) : bool :=
  Z.leb max_features (Z.of_nat k) || f_leb max_probability pp.

(** The indices culled along the visits [vs], from the running values [k] and
    [pp]. *)
Fixpoint culled_from (k : nat) (pp : F) (vs : list nat) : list nat :=
  match vs with
  | [] => []
  | i :: vs' =>
      (if reached k pp then [i] else [])
      ++ culled_from (S k) (f_add pp (nth i (probabilities_array self) f_zero)) vs'
  end.

Lemma elem_of_culled_from vs : ∀ k pp i,
  i ∈ culled_from k pp vs ↔
  ∃ j, vs !! j = Some i ∧ reached (k + j) (run_probability pp (take j vs)) = true.
Proof.
  induction vs as [|v vs IH]; intros k pp i; simpl.
  - split; [by intros ?%elem_of_nil | by intros (j & ? & _)].
  - rewrite elem_of_app, IH. split.
    + intros [Hi | (j & Hj & Hr)].
      * destruct (reached k pp) eqn:E; [|by apply elem_of_nil in Hi].
        apply list_elem_of_singleton in Hi as ->.
        exists 0. simpl. by rewrite Nat.add_0_r.
      * exists (S j). simpl. split; [done|].
        by replace (k + S j) with (S k + j) by lia.
    + intros ([|j] & Hj & Hr).
      * left. injection Hj as ->. rewrite Nat.add_0_r in Hr.
        cbn [take run_probability foldl] in Hr. rewrite Hr. left.
      * right. exists j. split; [done|].
        replace (S k + j) with (k + S j) by lia. exact Hr.
Qed.

Lemma cull_fold vs : ∀ k pp idxs (m : gmap string F),
  NoDup vs → NoDup (hashes_array self) →
  (∀ i, i ∈ vs → ∃ h p, hashes_array self !! i = Some h ∧
                         probabilities_array self !! i = Some p ∧ is_Some (m !! h)) →
  ∃ m', foldl (cull_step self max_features max_probability)
              (Some (CullState (Z.of_nat k) pp idxs m)) vs
        = Some (CullState (Z.of_nat (k + length vs)) (run_probability pp vs)
                          (idxs ++ culled_from k pp vs) m') ∧
    (∀ i h, i ∈ culled_from k pp vs → hashes_array self !! i = Some h → m' !! h = None) ∧
    (∀ h, (∀ i, i ∈ culled_from k pp vs → hashes_array self !! i ≠ Some h) →
          m' !! h = m !! h).
Proof.
  induction vs as [|v vs IH]; intros k pp idxs m Hnd Hh Hall.
  - exists m. simpl. rewrite Nat.add_0_r, app_nil_r.
    split; [done|]. split; [by intros ? ? ?%elem_of_nil | done].
  - apply NoDup_cons in Hnd as [Hv Hnd].
    destruct (Hall v) as (hv & pv & Ehv & Epv & [qv Eqv]); [left|].
    assert (nth v (probabilities_array self) f_zero = pv) as Env
      by (by apply nth_lookup_Some).
    assert (∀ i, i ∈ vs → ∃ h p, hashes_array self !! i = Some h ∧
              probabilities_array self !! i = Some p ∧ is_Some (delete hv m !! h)) as Hall'.
    { intros i Hi. destruct (Hall i) as (h & p & Eh & Ep & Hm); [by right|].
      exists h, p. split; [done|]. split; [done|].
      rewrite lookup_delete_ne; [done|]. intros ->.
      assert (v = i) as -> by (by eapply NoDup_lookup). done. }
    cbn [foldl culled_from]. unfold cull_step at 2. cbn [mbind option_bind].
    cbn [posterior_features posterior_probability cull_indices cull_probs].
    fold (reached k pp). rewrite Epv, Ehv. cbn [mbind option_bind].
    replace (k + length (v :: vs)) with (S k + length vs) by (simpl; lia).
    cbn [run_probability foldl]. rewrite Env.
    fold (run_probability (f_add pp pv) vs).
    destruct (reached k pp) eqn:Er.
    + rewrite Eqv. cbn [mbind option_bind].
      cbn [posterior_features posterior_probability cull_indices cull_probs].
      replace (Z.of_nat k + 1)%Z with (Z.of_nat (S k)) by lia.
      destruct (IH (S k) (f_add pp pv) (idxs ++ [v]) (delete hv m) Hnd Hh Hall')
        as (m' & Hf & Hin & Hout).
      exists m'. rewrite Hf, <- app_assoc. split; [done|]. split.
      * intros i h Hi Ei. apply elem_of_app in Hi as [Hi | Hi]; [|by eapply Hin].
        apply list_elem_of_singleton in Hi as ->.
        assert (h = hv) as -> by congruence.
        rewrite Hout; [apply lookup_delete_eq|]. intros i Hi Ei'.
        assert (i = v) as -> by (by eapply NoDup_lookup).
        apply elem_of_culled_from in Hi as (j & Hj & _).
        apply Hv. by eapply list_elem_of_lookup_2.
      * intros h Hn. rewrite Hout.
        -- apply lookup_delete_ne. intros ->. eapply (Hn v); [|done].
           apply elem_of_app. left. left.
        -- intros i Hi. apply Hn. apply elem_of_app. by right.
    + cbn [mbind option_bind].
      cbn [posterior_features posterior_probability cull_indices cull_probs].
      replace (Z.of_nat k + 1)%Z with (Z.of_nat (S k)) by lia.
      destruct (IH (S k) (f_add pp pv) idxs m Hnd Hh) as (m' & Hf & Hin & Hout).
      { intros i Hi. apply Hall. by right. }
      exists m'. rewrite Hf. simpl. done.
Qed.

End Cull.

Section CullClosed.

Context {F : Type} `{Float64 F} {D : Type}.
Variable argsort : list F → list nat.
Variable self : table F D.
Variable max_features : Z.
Variable max_probability : F.

Hypothesis self_wf : table_wf self.
Hypothesis argsort_ok :
  is_argsort (probabilities_array self) (argsort (probabilities_array self)).

(** The order of the visits of [cull_probabilities]. *)
Definition visit_order : list nat := reverse (argsort (probabilities_array self)).

Local Abbreviation visit := visit_order.
Local Abbreviation culled := (culled_from self max_features max_probability 0 f_zero visit_order).
Local Abbreviation running k := (run_probability self f_zero (take k visit_order)).

Lemma visit_perm : visit ≡ₚ seq 0 (length (hashes_array self)).
Proof.
  unfold visit_order. rewrite reverse_Permutation.
  destruct argsort_ok as [Hp _]. by rewrite Hp, (table_wf_length self).
Qed.

Lemma visit_NoDup : NoDup visit.
Proof. rewrite visit_perm. apply NoDup_seq. Qed.

Lemma visit_lt i : i ∈ visit → i < length (hashes_array self).
Proof. rewrite visit_perm, elem_of_seq. lia. Qed.

Lemma visit_all i : i < length (hashes_array self) → ∃ k, visit !! k = Some i.
Proof.
  intros Hi. apply list_elem_of_lookup. rewrite visit_perm, elem_of_seq. lia.
Qed.

(** The visits go by descending probability. *)
Lemma visit_descending j k ij ik pj pk :
  j < k → visit !! j = Some ij → visit !! k = Some ik →
  probabilities_array self !! ij = Some pj → probabilities_array self !! ik = Some pk →
  f_leb pk pj = true.
Proof.
  intros Hjk Hj Hk Hpj Hpk. unfold visit_order in *.
  apply reverse_lookup_Some in Hj as [Hj Hjl], Hk as [Hk Hkl].
  destruct argsort_ok as [_ Hs].
  eapply (Hs (length (argsort (probabilities_array self)) - S k)
             (length (argsort (probabilities_array self)) - S j)); [lia | done..].
Qed.

Lemma culled_iff i :
  i ∈ culled ↔ ∃ k, visit !! k = Some i ∧ reached max_features max_probability k (running k) = true.
Proof. by rewrite elem_of_culled_from. Qed.

Lemma culled_lt {A} (arr : list A) : length arr = length (hashes_array self) →
  Forall (λ i, i < length arr) culled.
Proof.
  intros Hl. apply Forall_forall. intros i (k & Hk & _)%culled_iff.
  rewrite Hl. apply visit_lt. by eapply list_elem_of_lookup_2.
Qed.

(** What [cull_probabilities] returns. *)
Lemma cull_probabilities_closed :
  ∃ m', cull_probabilities argsort self max_features max_probability
        = Some (Table (length (delete_from culled 0 (probabilities_array self)))
                      (delete_from culled 0 (hashes_array self))
                      (delete_from culled 0 (data_array self))
                      m'
                      (delete_from culled 0 (probabilities_array self))) ∧
    (∀ i h, i ∈ culled → hashes_array self !! i = Some h → m' !! h = None) ∧
    (∀ i h, i ∉ culled → hashes_array self !! i = Some h → m' !! h = probabilities self !! h).
Proof.
  destruct self_wf as (Hnd & Hld & Hm).
  destruct (cull_fold self max_features max_probability visit 0 f_zero []
              (probabilities self) visit_NoDup Hnd) as (m' & Hf & Hin & Hout).
  { intros i Hi%visit_lt. apply lookup_lt_is_Some_2 in Hi as [h Hh].
    destruct (table_wf_lookup self i h self_wf Hh) as (p & Hp & Hpa). eauto 6. }
  exists m'. unfold cull_probabilities. fold visit_order.
  change (Some (CullState 0 f_zero [] (probabilities self)))
    with (Some (CullState (Z.of_nat 0) f_zero [] (probabilities self))).
  rewrite Hf. cbn [mbind option_bind cull_indices cull_probs app].
  rewrite !numpy_delete_Some by (apply culled_lt; by rewrite ?table_wf_length).
  cbn [mbind option_bind]. split; [done|]. split; [done|].
  intros i h Hi Hh. apply Hout. intros i' Hi' Hh'.
  assert (i' = i) as -> by (by eapply NoDup_lookup). done.
Qed.

(** A hash visited when a threshold was reached is gone, with its probability. *)
Lemma cull_removed t' k i h :
  cull_probabilities argsort self max_features max_probability = Some t' →
  visit !! k = Some i → hashes_array self !! i = Some h →
  reached max_features max_probability k (running k) = true →
  h ∉ hashes_array t' ∧ probabilities t' !! h = None.
Proof.
  intros Ht Hk Hh Hr. destruct cull_probabilities_closed as (m' & Hc & Hin & Hout).
  rewrite Hc in Ht. injection Ht as <-. cbn [hashes_array probabilities].
  assert (i ∈ culled) as Hi by (apply culled_iff; eauto).
  split; [|by eapply Hin].
  rewrite elem_of_delete_from. intros (j & Hj & Hn).
  destruct self_wf as (Hnd & _).
  assert (j = i) as -> by (by eapply NoDup_lookup). done.
Qed.

(** A hash visited before any threshold was reached stays, with its payload
    and its probability. *)
Lemma cull_kept t' k i h :
  cull_probabilities argsort self max_features max_probability = Some t' →
  visit !! k = Some i → hashes_array self !! i = Some h →
  reached max_features max_probability k (running k) = false →
  ∃ j, hashes_array t' !! j = Some h ∧
       data_array t' !! j = data_array self !! i ∧
       probabilities_array t' !! j = probabilities_array self !! i ∧
       probabilities t' !! h = probabilities self !! h.
Proof.
  intros Ht Hk Hh Hr. destruct cull_probabilities_closed as (m' & Hc & Hin & Hout).
  rewrite Hc in Ht. injection Ht as <-.
  cbn [hashes_array probabilities data_array probabilities_array].
  assert (i ∉ culled) as Hi.
  { intros (k' & Hk' & Hr')%culled_iff.
    assert (k' = k) as -> by (eapply NoDup_lookup; [apply visit_NoDup | done..]).
    congruence. }
  destruct self_wf as (Hnd & Hld & _).
  assert (i < length (hashes_array self)) as Hlt by (by eapply lookup_lt_Some).
  destruct (lookup_lt_is_Some_2 (data_array self) i) as [d Hd]; [lia|].
  destruct (lookup_lt_is_Some_2 (probabilities_array self) i) as [p Hp];
    [rewrite table_wf_length; [lia | done]|].
  exists (new_position culled 0 i). rewrite Hd, Hp.
  repeat split; try (by apply delete_from_lookup). by eapply Hout.
Qed.

(** The table keeps at most [max_features] entries. *)
Lemma cull_count t' :
  (0 ≤ max_features)%Z →
  cull_probabilities argsort self max_features max_probability = Some t' →
  (Z.of_nat (n_features t') ≤ max_features)%Z ∧
  n_features t' = length (hashes_array t').
Proof.
  intros Hmf Ht. destruct cull_probabilities_closed as (m' & Hc & Hin & Hout).
  rewrite Hc in Ht. injection Ht as <-. cbn [n_features hashes_array].
  rewrite !length_delete_from, table_wf_length by done. split; [|done].
  unfold new_position.
  assert (filter (λ k, k ∉ culled) (seq 0 (length (hashes_array self)))
          ⊆+ take (Z.to_nat max_features) visit) as Hsub.
  { apply NoDup_submseteq; [apply NoDup_filter, NoDup_seq|].
    intros i [Hi Hs]%list_elem_of_filter. apply elem_of_seq in Hs.
    destruct (visit_all i) as [k Hk]; [lia|].
    apply elem_of_take. exists k. split; [done|].
    destruct (reached max_features max_probability k (running k)) eqn:Er.
    - exfalso. apply Hi, culled_iff. eauto.
    - unfold reached in Er. apply orb_false_iff in Er as [Er _].
      apply Z.leb_gt in Er. lia. }
  apply submseteq_length in Hsub. rewrite length_take in Hsub. lia.
Qed.

End CullClosed.

Section CullOrder.

Context {F : Type} `{Float64Order F} {D : Type}.
Variable argsort : list F → list nat.
Variable self : table F D.
Variable max_features : Z.
Variable max_probability : F.

Hypothesis self_wf : table_wf self.
Hypothesis argsort_ok :
  is_argsort (probabilities_array self) (argsort (probabilities_array self)).
Hypothesis nonneg : Forall (λ p, f_leb f_zero p = true) (probabilities_array self).

Local Abbreviation visit := (visit_order argsort self).
Local Abbreviation running k := (run_probability self f_zero (take k (visit_order argsort self))).

Lemma running_S k :
  running (S k) = match visit !! k with
                  | Some i => f_add (running k) (nth i (probabilities_array self) f_zero)
                  | None => running k
                  end.
Proof.
  destruct (visit !! k) as [i|] eqn:E.
  - rewrite (take_S_r _ _ _ E). unfold run_probability. by rewrite foldl_app.
  - apply lookup_ge_None in E. by rewrite !take_ge by lia.
Qed.

(** Once a threshold is reached it stays reached. *)
Lemma reached_mono k k' :
  k ≤ k' →
  reached max_features max_probability k (running k) = true →
  reached max_features max_probability k' (running k') = true.
Proof.
  intros Hle Hr. induction Hle as [|k' Hle IH]; [done|].
  unfold reached in *. apply orb_true_iff in IH as [IH | IH]; apply orb_true_iff.
  - left. apply Z.leb_le in IH. apply Z.leb_le. lia.
  - right. rewrite running_S. destruct (visit !! k') as [i|] eqn:E; [|done].
    apply f_leb_add_nonneg; [done|].
    assert (i < length (probabilities_array self)) as Hi.
    { rewrite table_wf_length by done. eapply visit_lt; [done..|].
      by eapply list_elem_of_lookup_2. }
    apply lookup_lt_is_Some_2 in Hi as [p Hp].
    rewrite (nth_lookup_Some _ _ _ _ Hp).
    eapply Forall_forall in nonneg; [done|]. by eapply list_elem_of_lookup_2.
Qed.

(** A removed hash has a probability at most that of any hash that stays. *)
Lemma cull_removed_below t' hr hk pr pk :
  cull_probabilities argsort self max_features max_probability = Some t' →
  hr ∈ hashes_array self → hr ∉ hashes_array t' → hk ∈ hashes_array t' →
  probabilities self !! hr = Some pr → probabilities self !! hk = Some pk →
  f_leb pr pk = true.
Proof.
  intros Ht Hr Hr' Hk Hpr Hpk.
  apply list_elem_of_lookup in Hr as [ir Hir].
  assert (∃ ik, hashes_array self !! ik = Some hk) as [ik Hik].
  { destruct (cull_probabilities_closed argsort self max_features max_probability
                self_wf argsort_ok) as (m' & Hc & _).
    rewrite Hc in Ht. injection Ht as <-. cbn [hashes_array] in Hk.
    apply elem_of_delete_from in Hk as (j & Hj & _). eauto. }
  destruct (visit_all argsort self self_wf argsort_ok ir) as [kr Hkr];
    [by eapply lookup_lt_Some|].
  destruct (visit_all argsort self self_wf argsort_ok ik) as [kk Hkk];
    [by eapply lookup_lt_Some|].
  destruct (reached max_features max_probability kr (running kr)) eqn:Er; last first.
  { destruct (cull_kept argsort self _ _ self_wf argsort_ok t' kr ir hr Ht Hkr Hir Er)
      as (j & Hj & _).
    exfalso. apply Hr'. by eapply list_elem_of_lookup_2. }
  destruct (reached max_features max_probability kk (running kk)) eqn:Ek.
  { destruct (cull_removed argsort self _ _ self_wf argsort_ok t' kk ik hk Ht Hkk Hik Ek)
      as [Hn _]. done. }
  assert (kk < kr) as Hlt.
  { destruct (decide (kk < kr)) as [|Hge]; [done|].
    rewrite (reached_mono kr kk) in Ek; [done | lia | done]. }
  destruct (table_wf_lookup self ir hr self_wf Hir) as (pr' & Hpr' & Har).
  destruct (table_wf_lookup self ik hk self_wf Hik) as (pk' & Hpk' & Hak).
  assert (pr' = pr) as -> by congruence. assert (pk' = pk) as -> by congruence.
  by eapply (visit_descending argsort self argsort_ok kk kr ik ir).
Qed.

End CullOrder.

(** C3. [cull_probabilities] visits every hash of the table once, by
    descending probability, with a running count (the number of visits so
    far) and a running probability (the sum of the probabilities visited so
    far, the current one not included). A hash is removed, with its payload
    and its probability, exactly when at its visit the count has reached
    [max_features] or the running probability has reached [max_probability];
    a hash visited before that keeps its payload and its probability. *)
Theorem cull_probabilities_policy {F : Type} `{Float64 F} {D : Type}
    (argsort : list F → list nat) (self : table F D)
    (max_features : Z) (max_probability : F) :
  table_wf self →
  is_argsort (probabilities_array self) (argsort (probabilities_array self)) →
  let visit := visit_order argsort self in
  ∃ t', cull_probabilities argsort self max_features max_probability = Some t' ∧
    visit ≡ₚ seq 0 (length (hashes_array self)) ∧
    (∀ j k ij ik pj pk, j < k → visit !! j = Some ij → visit !! k = Some ik →
       probabilities_array self !! ij = Some pj → probabilities_array self !! ik = Some pk →
       f_leb pk pj = true) ∧
    (∀ k i h, visit !! k = Some i → hashes_array self !! i = Some h →
       let running_count := Z.of_nat k in
       let running_probability := run_probability self f_zero (take k visit) in
       if Z.leb max_features running_count || f_leb max_probability running_probability
       then h ∉ hashes_array t' ∧ probabilities t' !! h = None
       else ∃ j, hashes_array t' !! j = Some h ∧
              data_array t' !! j = data_array self !! i ∧
              probabilities_array t' !! j = probabilities_array self !! i ∧
              probabilities t' !! h = probabilities self !! h).
Proof.
  intros Hwf Hsort visit.
  destruct (cull_probabilities_closed argsort self max_features max_probability Hwf Hsort)
    as (m' & Hc & _).
  eexists. split; [exact Hc|].
  split; [by apply visit_perm|].
  split; [by apply visit_descending|].
  intros k i h Hk Hi running_count running_probability.
  destruct (Z.leb max_features running_count
            || f_leb max_probability running_probability) eqn:Er.
  - by eapply cull_removed.
  - by eapply cull_kept.
Qed.


(** ** The tables at concrete inputs *)

(** A table of three hashes with the probabilities 1/4, 1/2 and 1/4, as
    [__init__] and [add_probabilities] build it. *)
Definition ex_data : gmap string nat := <["a" := 1]> (<["b" := 2]> (<["c" := 3]> ∅)).

Definition ex_probs : gmap string Q :=
  <["a" := (1 # 4)%Q]> (<["b" := (1 # 2)%Q]> (<["c" := (1 # 4)%Q]> ∅)).

Definition ex_table : table Q nat :=
  Table 3 ["a"; "b"; "c"] [1; 2; 3] ex_probs [(1 # 4)%Q; (1 # 2)%Q; (1 # 4)%Q].

(** Two hashes of the same probability. *)
Definition tie_probs : gmap string Q := <["a" := (1 # 2)%Q]> (<["b" := (1 # 2)%Q]> ∅).

Definition tie_table : table Q nat :=
  Table 2 ["a"; "b"] [1; 2] tie_probs [(1 # 2)%Q; (1 # 2)%Q].

Lemma ex_table_built :
  (t ← new_table ex_data; add_probabilities t ex_probs) = Some ex_table.
Proof. vm_compute. reflexivity. Qed.

Lemma tie_table_built :
  (t ← new_table (<["a" := 1]> (<["b" := 2]> ∅)); add_probabilities t tie_probs)
  = Some tie_table.
Proof. vm_compute. reflexivity. Qed.

Lemma ex_table_wf : table_wf ex_table.
Proof.
  split; [|split; [reflexivity | vm_compute; reflexivity]].
  apply NoDup_ListNoDup. repeat constructor; simpl; intuition discriminate.
Defined.

Lemma tie_table_wf : table_wf tie_table.
Proof.
  split; [|split; [reflexivity | vm_compute; reflexivity]].
  apply NoDup_ListNoDup. repeat constructor; simpl; intuition discriminate.
Defined.

(** C3 at [ex_table], two features and three quarters of the mass: "b" and
    one of the two hashes of probability 1/4 stay, the last one visited goes. *)
Lemma cull_probabilities_policy_witness :
  ∃ t', cull_probabilities argsort_insertion ex_table 2 (3 # 4)%Q = Some t' ∧
    visit_order argsort_insertion ex_table = [1; 2; 0] ∧
    ("a" ∉ hashes_array t' ∧ probabilities t' !! "a" = None) ∧
    ∃ j, hashes_array t' !! j = Some "b" ∧ data_array t' !! j = Some 2 ∧
         probabilities_array t' !! j = Some (1 # 2)%Q ∧
         probabilities t' !! "b" = Some (1 # 2)%Q.
Proof.
  destruct (cull_probabilities_policy argsort_insertion ex_table 2 (3 # 4)%Q
              ex_table_wf (argsort_insertion_Q _)) as (t' & Ht & _ & _ & Hv).
  exists t'. split; [exact Ht|]. split; [vm_compute; reflexivity|].
  split.
  - exact (Hv 2 0 "a" eq_refl eq_refl).
  - exact (Hv 0 1 "b" eq_refl eq_refl).
Defined.


(** C4 at a table of zero probabilities. *)
Lemma add_probabilities_overwrites_witness :
  ∃ t t', new_table ex_data = Some t ∧ add_probabilities t ex_probs = Some t' ∧
    probabilities t' !! "b" = Some (1 # 2)%Q.
Proof.
  destruct (new_table (F := Q) ex_data) as [t|] eqn:Et; [|vm_compute in Et; discriminate].
  destruct (add_probabilities_overwrites t ex_probs) as [Hok _].
  destruct Hok as (t' & Ht' & Hh & _ & Hin & _).
  - vm_compute in Et. injection Et as <-. repeat constructor; vm_compute; eauto.
  - exists t, t'. split; [done|]. split; [exact Ht'|].
    rewrite Hin; [reflexivity|].
    vm_compute in Et. injection Et as <-. set_solver.
Defined.

(** C4 fails as stated: with an argument that holds "b" only, the call on
    the table of "a", "b" and "c" raises [KeyError]; the hashes that the
    argument misses are not left as they were. *)
Lemma add_probabilities_missing_key_fails :
  ∃ t, new_table ex_data = Some t ∧
    hashes_array t = ["a"; "b"; "c"] ∧
    add_probabilities t ({["b" := (1 # 2)%Q]} : gmap string Q) = None.
Proof. eexists. split; [vm_compute; reflexivity|]. split; vm_compute; reflexivity. Qed.

(** C9 fails as stated: with no counts, the probabilities 1/4, 1/2 and 1/4
    of [ex_table] are all overwritten with 0, whatever the logarithm and the
    exponential are. *)
Lemma probabilities_from_counts_empty_zero_fills :
  probabilities ex_table !! "b" = Some (1 # 2)%Q ∧
  ∀ (math_log : Z → option Q) (math_exp : Q → option Q) (logaddexp_reduce : list Q → Q),
  ∃ t', probabilities_from_counts math_log math_exp logaddexp_reduce ex_table ∅ = Some t' ∧
    probabilities t' !! "b" = Some 0%Q ∧
    probabilities_array t' = [0%Q; 0%Q; 0%Q].
Proof.
  split; [reflexivity|]. intros math_log math_exp logaddexp_reduce.
  eexists. split; [vm_compute; reflexivity|]. split; reflexivity.
Qed.


(** ** Dynamic programs over clades bucketed by size *)

Section DynamicProgram.

Context {V : Type}.

(** [compute m c] is the value given to the clade [c] when the values so far
    are [m]; it reads [m] at the clades [d] with [dep c d] only. *)
Variable compute : gmap string V → string → option V.
Variable dep : string → string → Prop.

Hypothesis compute_ext : ∀ m1 m2 c,
  (∀ d, dep c d → m1 !! d = m2 !! d) → compute m1 c = compute m2 c.

Definition dp_step (acc : option (gmap string V)) (c : string) : option (gmap string V) :=
  m ← acc; v ← compute m c; Some (<[c := v]> m).

Lemma dp_step_None l : foldl dp_step None l = None.
Proof. induction l as [|c l IH]; [done|]. apply IH. Qed.

(** When no clade is computed before a clade it reads, unless that clade was
    there from the start, the program ends and the values it leaves satisfy
    the equation of every clade. *)
Lemma dp_fold order : ∀ m0,
  NoDup order →
  (∀ k c d, order !! k = Some c → dep c d → d ∉ drop k order) →
  (∀ k c m, order !! k = Some c →
     (∀ x, is_Some (m0 !! x) ∨ x ∈ take k order → is_Some (m !! x)) →
     is_Some (compute m c)) →
  ∃ m, foldl dp_step (Some m0) order = Some m ∧
    (∀ c, c ∈ order → ∃ v, m !! c = Some v ∧ compute m c = Some v) ∧
    (∀ x, x ∉ order → m !! x = m0 !! x).
Proof.
  induction order as [|c rest IH]; intros m0 Hnd Hdep Hsucc.
  - exists m0. split; [done|]. split; [by intros ? ?%elem_of_nil | done].
  - apply NoDup_cons in Hnd as [Hc Hnd].
    destruct (Hsucc 0 c m0 eq_refl) as [v Hv].
    { intros x [Hx | Hx]; [done | by apply elem_of_nil in Hx]. }
    destruct (IH (<[c := v]> m0) Hnd) as (m & Hf & Hin & Hout).
    { intros k c' d Hk Hd. apply (Hdep (S k) c' d Hk Hd). }
    { intros k c' m Hk Hm. apply (Hsucc (S k) c' m Hk).
      intros x [Hx | Hx]; apply Hm.
      - left. destruct (decide (c = x)) as [->|Hne].
        + rewrite lookup_insert_eq. eauto.
        + by rewrite lookup_insert_ne.
      - simpl in Hx. apply elem_of_cons in Hx as [-> | Hx]; [|by right].
        left. rewrite lookup_insert_eq. eauto. }
    exists m. split; [simpl; by rewrite Hv|].
    assert (m !! c = Some v) as Hmc by (by rewrite Hout, lookup_insert_eq).
    split.
    + intros c' Hc'. apply elem_of_cons in Hc' as [-> | Hc']; [|by apply Hin].
      exists v. split; [done|]. rewrite <- Hv. apply compute_ext.
      intros d Hd. specialize (Hdep 0 c d eq_refl Hd). simpl in Hdep.
      apply not_elem_of_cons in Hdep as [Hne Hd'].
      by rewrite Hout, lookup_insert_ne.
    + intros x Hx. apply not_elem_of_cons in Hx as [Hne Hx].
      by rewrite Hout, lookup_insert_ne.
Qed.

End DynamicProgram.

Section Buckets.

Context {V : Type}.
Variable step : option V → string → option V.
Hypothesis step_None : ∀ l, foldl step None l = None.

(** The clades in the order the buckets [idxs] are gone through. *)
Definition bucket_order (clades_by_size : list (gset string)) (idxs : list nat)
    : list string :=
  idxs ≫= λ i, elements (default ∅ (clades_by_size !! i)).

Lemma bucket_fold clades_by_size idxs : ∀ acc,
  Forall (λ i, i < length clades_by_size) idxs →
  foldl (bucket_step step clades_by_size) acc idxs
  = foldl step acc (bucket_order clades_by_size idxs).
Proof.
  induction idxs as [|i idxs IH]; intros acc Hall; [done|].
  apply Forall_cons in Hall as [Hi Hall].
  apply lookup_lt_is_Some_2 in Hi as [b Hb].
  unfold bucket_order. cbn [foldl mbind list_bind]. rewrite foldl_app.
  fold (bucket_order clades_by_size idxs). rewrite <- IH by done. f_equal.
  unfold bucket_step. rewrite Hb. destruct acc as [v|]; simpl; [done|].
  by rewrite step_None.
Qed.

End Buckets.

Section BucketOrder.

(** The buckets hold the clades of a family by a rank: bucket [j] holds the
    clades of rank [j]. *)
Variable clades_by_size : list (gset string).
Variable family : string → Prop.
Variable rank : string → nat.

Hypothesis bucket_spec : ∀ j c,
  c ∈ default ∅ (clades_by_size !! j) ↔ family c ∧ rank c = j ∧ j < length clades_by_size.

Lemma elem_of_bucket_order a n c :
  c ∈ bucket_order clades_by_size (seq a n)
  ↔ family c ∧ a ≤ rank c < a + n ∧ rank c < length clades_by_size.
Proof.
  unfold bucket_order. rewrite list_elem_of_bind. split.
  - intros (j & Hc & Hj). apply elem_of_elements, bucket_spec in Hc as (Hf & Hr & Hl).
    apply elem_of_seq in Hj. subst j. auto.
  - intros (Hf & Hr & Hl). exists (rank c). split.
    + apply elem_of_elements, bucket_spec. auto.
    + apply elem_of_seq. lia.
Qed.

Lemma bucket_order_sorted a n :
  NoDup (bucket_order clades_by_size (seq a n)) ∧
  StronglySorted (λ x y, rank x ≤ rank y) (bucket_order clades_by_size (seq a n)).
Proof.
  revert a. induction n as [|n IH]; intros a.
  - split; constructor.
  - destruct (IH (S a)) as [IHn IHs].
    change (bucket_order clades_by_size (seq a (S n)))
      with (elements (default ∅ (clades_by_size !! a))
            ++ bucket_order clades_by_size (seq (S a) n)).
    split.
    + apply NoDup_app. split; [apply NoDup_elements|]. split; [|done].
      intros c Hc%elem_of_elements%bucket_spec Hc'%elem_of_bucket_order. lia.
    + apply StronglySorted_app_2; [| | done].
      * intros x y Hx%elem_of_elements%bucket_spec Hy%elem_of_bucket_order. lia.
      * assert (∀ l : list string, (∀ x, x ∈ l → rank x = a) →
                  StronglySorted (λ x y, rank x ≤ rank y) l) as Hconst.
        { induction l as [|x l IHl]; intros Hl; constructor.
          - apply IHl. intros y Hy. apply Hl. by right.
          - apply Forall_forall. intros y Hy.
            rewrite (Hl x) by left. rewrite (Hl y) by (by right). lia. }
        apply Hconst. intros x Hx%elem_of_elements%bucket_spec. lia.
Qed.

(** A clade found at or after another one in the order has at least its rank. *)
Lemma bucket_order_drop a n k c d :
  bucket_order clades_by_size (seq a n) !! k = Some c →
  d ∈ drop k (bucket_order clades_by_size (seq a n)) →
  rank c ≤ rank d.
Proof.
  intros Hk Hd. destruct (bucket_order_sorted a n) as [_ Hs].
  apply list_elem_of_lookup in Hd as [j Hj]. rewrite lookup_drop in Hj.
  destruct j as [|j].
  - rewrite Nat.add_0_r in Hj. assert (c = d) as -> by congruence. lia.
  - apply (StronglySorted_lookup (λ x y, rank x ≤ rank y) _ k (k + S j) c d Hs);
      [lia | done | done].
Qed.

End BucketOrder.

(** ** Counting the topologies of a model *)


(** The number of subtrees of a clade in the words of the specification: the
    sum, over the splits that count, of the product of the factors of the two
    children, a child of at most two taxa having the factor 1. *)
Definition counted `{Float64 F} (include_zero_probability : bool) (p : F) : bool :=
  include_zero_probability || f_ltb f_zero p.

Definition counted_splits `{Float64 F} {D} (include_zero_probability : bool)
    (splits : table F D) : list string :=
  map fst (filter (λ sp, counted include_zero_probability sp.2 = true)
                  (zip (hashes_array splits) (probabilities_array splits))).

Definition subtree_factor (n_subtrees : gmap string Z) (child_hash : string) : Z :=
  if Nat.ltb 2 (clade_size child_hash) then default 0%Z (n_subtrees !! child_hash) else 1%Z.

Definition split_subtrees (n_subtrees : gmap string Z) (parent_hash split_hash : string) : Z :=
  let children := elucidate_cc_split parent_hash split_hash in
  (subtree_factor n_subtrees children.1 * subtree_factor n_subtrees children.2)%Z.

Definition Z_sum (l : list Z) : Z := foldr Z.add 0%Z l.

Lemma Z_sum_app l1 l2 : Z_sum (l1 ++ l2) = (Z_sum l1 + Z_sum l2)%Z.
Proof. induction l1 as [|x l1 IH]; simpl; [done|]. rewrite IH. lia. Qed.

Lemma clade_size_root n_taxa : clade_size (calculate_root_hash n_taxa) = n_taxa.
Proof.
  unfold clade_size, calculate_root_hash.
  rewrite (popcount_bits_eq _ _ (bits_eq_unpack_pack _)).
  induction n_taxa as [|n IH]; [done|]. simpl. rewrite popcount_cons, IH. done.
Qed.

#[global] Opaque elucidate_cc_split calculate_root_hash.
Arguments clade_size : simpl never.

(** The buckets of [n_derived_topologies]. *)
Lemma count_buckets_fold keys : ∀ buckets0,
  (∀ c, c ∈ keys → 3 ≤ clade_size c → clade_size c - 3 < length buckets0) →
  ∃ buckets, foldl count_bucket_step (Some buckets0) keys = Some buckets ∧
    length buckets = length buckets0 ∧
    ∀ j c, c ∈ default ∅ (buckets !! j) ↔
           c ∈ default ∅ (buckets0 !! j) ∨
           (c ∈ keys ∧ 3 ≤ clade_size c ∧ clade_size c - 3 = j).
Proof.
  induction keys as [|key keys IH]; intros buckets0 Hlt.
  - exists buckets0. split; [done|]. split; [done|]. intros j c. split; [auto|].
    intros [? | [?%elem_of_nil _]]; done.
  - cbn [foldl].
    assert (count_bucket_step (Some buckets0) key
            = if Nat.leb 3 (clade_size key) then
                if Nat.ltb (clade_size key - 3) (length buckets0)
                then Some (alter (λ s, {[key]} ∪ s) (clade_size key - 3) buckets0)
                else None
              else Some buckets0) as -> by done.
    destruct (Nat.leb_spec 3 (clade_size key)) as [H3|H3].
    + specialize (Hlt key ltac:(left) H3) as Hk. apply Nat.ltb_lt in Hk as Hk'. rewrite Hk'.
      destruct (IH (alter (λ s, {[key]} ∪ s) (clade_size key - 3) buckets0))
        as (buckets & Hf & Hl & Hb).
      { intros c Hc Hc3. rewrite length_alter. apply Hlt; [by right | done]. }
      exists buckets. split; [done|]. split; [by rewrite Hl, length_alter|].
      intros j c. rewrite Hb, list_lookup_alter.
      destruct (lookup_lt_is_Some_2 buckets0 _ Hk) as [b0 Hb0].
      case_decide as Hj.
      * subst j. rewrite Hb0. simpl. rewrite elem_of_union, elem_of_singleton.
        rewrite elem_of_cons. naive_solver.
      * rewrite elem_of_cons. naive_solver.
    + destruct (IH buckets0) as (buckets & Hf & Hl & Hb).
      { intros c Hc Hc3. apply Hlt; [by right | done]. }
      exists buckets. split; [done|]. split; [done|].
      intros j c. rewrite Hb, elem_of_cons. split; [naive_solver|].
      intros [? | [[-> | ?] [? ?]]]; [auto | lia | auto].
Qed.

Section CountSplits.

Context {F : Type} `{Float64 F} {D : Type}.
Variable include_zero_probability : bool.
Variable parent_hash : string.
Variable parent_splits : table F D.

Local Abbreviation hs := (hashes_array parent_splits).
Local Abbreviation ps := (probabilities_array parent_splits).

(** A clade read by the count of [parent_hash]: a child of more than two
    taxa of a split that counts. *)
Definition big_child (d : string) : Prop :=
  ∃ j split prob, hs !! j = Some split ∧ ps !! j = Some prob ∧
    counted include_zero_probability prob = true ∧
    (d = (elucidate_cc_split parent_hash split).1 ∨ d = (elucidate_cc_split parent_hash split).2) ∧
    2 < clade_size d.

Lemma child_factor_closed (m : gmap string Z) d n :
  (2 < clade_size d → is_Some (m !! d)) →
  child_factor m d n = Some (n * subtree_factor m d)%Z.
Proof.
  intros Hd. unfold child_factor, subtree_factor.
  destruct (Nat.ltb_spec 2 (clade_size d)) as [Hlt|Hge].
  - destruct (Hd Hlt) as [v Hv]. rewrite Hv. done.
  - f_equal. lia.
Qed.

Lemma split_count_step_ext (m1 m2 : gmap string Z) acc j :
  (∀ d, big_child d → m1 !! d = m2 !! d) →
  split_count_step include_zero_probability parent_hash parent_splits m1 acc j
  = split_count_step include_zero_probability parent_hash parent_splits m2 acc j.
Proof.
  intros Hm. unfold split_count_step. destruct acc as [a|]; [|done]. simpl.
  destruct (hs !! j) as [split|] eqn:Es; [|done]. simpl.
  destruct (ps !! j) as [prob|] eqn:Ep; [|done]. simpl.
  fold (counted include_zero_probability prob).
  destruct (counted include_zero_probability prob) eqn:Ec; [|done].
  assert (∀ d n, d = (elucidate_cc_split parent_hash split).1
                 ∨ d = (elucidate_cc_split parent_hash split).2 →
            child_factor m1 d n = child_factor m2 d n) as Hcf.
  { intros d n Hd. unfold child_factor.
    destruct (Nat.ltb_spec 2 (clade_size d)) as [Hlt|Hge]; [|done].
    rewrite (Hm d); [done|]. exists j, split, prob. split_and!; auto. }
  rewrite (Hcf _ 1%Z) by auto.
  destruct (child_factor m2 _ 1%Z) as [n1|]; [|done]. simpl.
  by rewrite (Hcf _ n1) by auto.
Qed.

Lemma split_count_fold_ext (m1 m2 : gmap string Z) idxs : ∀ acc,
  (∀ d, big_child d → m1 !! d = m2 !! d) →
  foldl (split_count_step include_zero_probability parent_hash parent_splits m1) acc idxs
  = foldl (split_count_step include_zero_probability parent_hash parent_splits m2) acc idxs.
Proof.
  induction idxs as [|j idxs IH]; intros acc Hm; [done|].
  simpl. rewrite (split_count_step_ext m1 m2) by done. by apply IH.
Qed.

(** The loop over the splits of a clade, when the counts it reads are there. *)
Lemma split_count_fold (m : gmap string Z) k : ∀ a,
  k ≤ length hs → length ps = length hs →
  (∀ d, big_child d → is_Some (m !! d)) →
  foldl (split_count_step include_zero_probability parent_hash parent_splits m)
        (Some a) (seq 0 k)
  = Some (a + Z_sum (map (split_subtrees m parent_hash)
                         (map fst (filter (λ sp, counted include_zero_probability sp.2 = true)
                                          (take k (zip hs ps))))))%Z.
Proof.
  intros a Hk Hl Hm. induction k as [|k IH].
  - simpl. f_equal. lia.
  - rewrite seq_S, foldl_app, IH by lia. simpl.
    destruct (lookup_lt_is_Some_2 hs k) as [split Es]; [lia|].
    destruct (lookup_lt_is_Some_2 ps k) as [prob Ep]; [lia|].
    assert (zip hs ps !! k = Some (split, prob)) as Ez.
    { rewrite lookup_zip_with, Es. simpl. by rewrite Ep. }
    rewrite (take_S_r _ _ _ Ez), filter_app, !map_app, Z_sum_app.
    unfold split_count_step. simpl. rewrite Es, Ep. simpl.
    fold (counted include_zero_probability prob).
    rewrite filter_cons, filter_nil. simpl.
    destruct (counted include_zero_probability prob) eqn:Ec.
    + rewrite decide_True by done.
      rewrite child_factor_closed; last first.
      { intros Hbig. apply Hm. exists k, split, prob. split_and!; auto. }
      simpl. rewrite child_factor_closed; last first.
      { intros Hbig. apply Hm. exists k, split, prob. split_and!; auto. }
      simpl. f_equal. unfold split_subtrees. simpl. lia.
    + rewrite decide_False by (by intros ?). simpl. f_equal. lia.
Qed.

End CountSplits.

Lemma elem_of_map_keys {V} (m : gmap string V) c :
  c ∈ map fst (map_to_list m) ↔ is_Some (m !! c).
Proof.
  rewrite list_elem_of_fmap. split.
  - intros ([c' v] & -> & Hv%elem_of_map_to_list). eauto.
  - intros [v Hv]. exists (c, v). split; [done|]. by apply elem_of_map_to_list.
Qed.

Lemma default_lookup_replicate_empty n j :
  default (∅ : gset string) (replicate n ∅ !! j) = ∅.
Proof.
  destruct (replicate n (∅ : gset string) !! j) as [b|] eqn:E; [|done].
  by apply lookup_replicate in E as [-> _].
Qed.

Section CountModel.

Context {F : Type} `{Float64 F} {D : Type}.
Variable cc_sets : gmap string (table F D).
Variable n_taxa : nat.
Variable include_zero_probability : bool.

(** The model is fit for counting: its clades have at most [n_taxa] taxa,
    its tables hold a probability per split, the splits that count cut a
    clade in two non-empty children, every child of more than two taxa is a
    clade of the model, and so is the root. *)
Hypothesis sizes_le :
  ∀ p, is_Some (cc_sets !! p) → 3 ≤ clade_size p → clade_size p ≤ n_taxa.
Hypothesis tables_ok : ∀ p tp, cc_sets !! p = Some tp →
  n_features tp = length (hashes_array tp) ∧
  length (probabilities_array tp) = length (hashes_array tp).
Hypothesis splits_proper : ∀ p tp j split prob, cc_sets !! p = Some tp →
  hashes_array tp !! j = Some split → probabilities_array tp !! j = Some prob →
  counted include_zero_probability prob = true →
  1 ≤ clade_size (elucidate_cc_split p split).1 ∧
  1 ≤ clade_size (elucidate_cc_split p split).2.
Hypothesis children_modelled : ∀ p tp d, cc_sets !! p = Some tp →
  big_child include_zero_probability p tp d → is_Some (cc_sets !! d).
Hypothesis root_modelled : is_Some (cc_sets !! calculate_root_hash n_taxa).
Hypothesis three_taxa : 3 ≤ n_taxa.

Definition count_dep (p d : string) : Prop :=
  ∃ tp, cc_sets !! p = Some tp ∧ big_child include_zero_probability p tp d.

Lemma count_dep_smaller p d : count_dep p d → clade_size d < clade_size p.
Proof.
  intros (tp & Htp & j & split & prob & Hs & Hp & Hc & Hd & Hbig).
  destruct (splits_proper p tp j split prob Htp Hs Hp Hc) as [H1 H2].
  pose proof (elucidate_cc_split_sizes p split) as Hsum.
  destruct Hd as [-> | ->]; lia.
Qed.

Lemma parent_subtrees_ext (m1 m2 : gmap string Z) p :
  (∀ d, count_dep p d → m1 !! d = m2 !! d) →
  parent_subtrees include_zero_probability cc_sets m1 p
  = parent_subtrees include_zero_probability cc_sets m2 p.
Proof.
  intros Hm. unfold parent_subtrees. destruct (cc_sets !! p) as [tp|] eqn:E; [|done].
  simpl. apply split_count_fold_ext. intros d Hd. apply Hm. by exists tp.
Qed.

Lemma parent_subtrees_closed (m : gmap string Z) p tp :
  cc_sets !! p = Some tp →
  (∀ d, count_dep p d → is_Some (m !! d)) →
  parent_subtrees include_zero_probability cc_sets m p
  = Some (Z_sum (map (split_subtrees m p) (counted_splits include_zero_probability tp))).
Proof.
  intros Htp Hm. unfold parent_subtrees. rewrite Htp. simpl.
  destruct (tables_ok p tp Htp) as [Hn Hl].
  rewrite Hn, split_count_fold; [| done | done |].
  - unfold counted_splits. rewrite take_ge; [done|].
    rewrite length_zip_with. lia.
  - intros d Hd. apply Hm. by exists tp.
Qed.

(** C7. On a model fit for counting, [n_derived_topologies] returns the
    count of the root clade, and the counts it computes satisfy, for every
    clade of the model of three taxa or more, the equation of the
    specification: the count of a clade is the sum, over its splits that
    count (all of them with [include_zero_probability], else those of
    positive probability), of the product of the counts of the two children,
    a child of two taxa or less having the factor 1. *)
Theorem n_derived_topologies_counts :
  ∃ (n_subtrees : gmap string Z) (n_root_topologies : Z) (order : list string),
    n_derived_topologies cc_sets n_taxa include_zero_probability = Some n_root_topologies ∧
    n_subtrees !! calculate_root_hash n_taxa = Some n_root_topologies ∧
    (* the order of the computation *)
    foldl (parent_count_step include_zero_probability cc_sets) (Some ∅) order
      = Some n_subtrees ∧
    NoDup order ∧
    (∀ c, c ∈ order ↔ is_Some (cc_sets !! c) ∧ 3 ≤ clade_size c) ∧
    (∀ k1 k2 c1 c2, k1 < k2 → order !! k1 = Some c1 → order !! k2 = Some c2 →
       clade_size c1 ≤ clade_size c2) ∧
    (* the count of a clade *)
    ∀ p tp, cc_sets !! p = Some tp → 3 ≤ clade_size p →
      n_subtrees !! p
      = Some (Z_sum (map (split_subtrees n_subtrees p)
                         (counted_splits include_zero_probability tp))).
Proof.
  unfold n_derived_topologies. cbv zeta.
  destruct (count_buckets_fold (map fst (map_to_list cc_sets)) (replicate (n_taxa - 2) ∅))
    as (buckets & Hf & Hl & Hb).
  { intros c Hc%elem_of_map_keys Hc3. rewrite length_replicate.
    specialize (sizes_le c Hc Hc3). lia. }
  rewrite Hf. cbn [mbind option_bind]. rewrite length_replicate in Hl.
  set (family := λ c : string, is_Some (cc_sets !! c) ∧ 3 ≤ clade_size c).
  set (rank := λ c : string, clade_size c - 3).
  assert (∀ j c, c ∈ default ∅ (buckets !! j)
                 ↔ family c ∧ rank c = j ∧ j < length buckets) as Hspec.
  { intros j c. rewrite Hb, default_lookup_replicate_empty, elem_of_map_keys.
    unfold family, rank. split.
    - intros [?%not_elem_of_empty | (Hc & Hc3 & <-)]; [done|].
      specialize (sizes_le c Hc Hc3). split_and!; [done | done | done | lia].
    - intros ([Hc Hc3] & <- & _). right. auto. }
  change (parent_count_step include_zero_probability cc_sets)
    with (dp_step (parent_subtrees include_zero_probability cc_sets)).
  rewrite bucket_fold; [| apply dp_step_None |]; last first.
  { apply Forall_forall. intros i Hi%elem_of_seq. lia. }
  set (order := bucket_order buckets (seq 0 (n_taxa - 2))).
  assert (∀ c, c ∈ order ↔ is_Some (cc_sets !! c) ∧ 3 ≤ clade_size c) as Horder.
  { intros c. unfold order.
    rewrite (elem_of_bucket_order buckets family rank Hspec). unfold family, rank. split.
    - intros (Hfam & _). done.
    - intros [Hc Hc3]. specialize (sizes_le c Hc Hc3). split_and!; [done | done | lia..]. }
  assert (∀ k c d, order !! k = Some c → count_dep c d → d ∉ drop k order) as Hdep.
  { intros k c d Hk Hd Hin.
    pose proof (bucket_order_drop buckets family rank Hspec 0 (n_taxa - 2) k c d Hk Hin) as Hr.
    apply count_dep_smaller in Hd. unfold rank in Hr.
    assert (3 ≤ clade_size d).
    { apply Horder. rewrite <- (take_drop k order). apply elem_of_app. by right. }
    lia. }
  destruct (bucket_order_sorted buckets family rank Hspec 0 (n_taxa - 2)) as [Hnd Hsorted].
  fold order in Hnd, Hsorted.
  destruct (dp_fold (parent_subtrees include_zero_probability cc_sets) count_dep
              parent_subtrees_ext order ∅) as (m & Hm & Hin & Hout).
  - exact Hnd.
  - exact Hdep.
  - intros k c m Hk Hdom.
    assert (c ∈ order) as [[tp Htp] Hc3]%Horder by (by eapply list_elem_of_lookup_2).
    rewrite (parent_subtrees_closed m c tp Htp); [eauto|].
    intros d Hd. apply Hdom. right.
    assert (d ∈ order) as Hdo.
    { apply Horder. destruct Hd as (tp' & Htp' & Hbig).
      split; [by eapply children_modelled|].
      destruct Hbig as (? & ? & ? & _ & _ & _ & _ & ?). lia. }
    rewrite <- (take_drop k order) in Hdo. apply elem_of_app in Hdo as [Hdo | Hdo]; [done|].
    by destruct (Hdep k c d Hk Hd).
  - rewrite Hm. cbn [mbind option_bind].
    assert (calculate_root_hash n_taxa ∈ order) as Hroot.
    { apply Horder. split; [done|]. by rewrite clade_size_root. }
    destruct (Hin _ Hroot) as (v & Hv & _).
    exists m, v, order. split; [done|]. split; [done|].
    split; [exact Hm|]. split; [exact Hnd|]. split; [exact Horder|]. split.
    { intros k1 k2 c1 c2 Hk Hk1 Hk2.
      pose proof (StronglySorted_lookup (λ x y, rank x ≤ rank y) order k1 k2 c1 c2
                    Hsorted Hk Hk1 Hk2) as Hr.
      unfold rank in Hr.
      assert (c2 ∈ order) as [_ Hc2]%Horder by (by eapply list_elem_of_lookup_2).
      lia. }
    intros p tp Htp Hp3.
    destruct (Hin p) as (vp & Hvp & Hcp); [apply Horder; eauto|].
    rewrite Hvp, <- Hcp. apply parent_subtrees_closed; [done|].
    intros d Hd. destruct (Hin d) as (vd & Hvd & _); [|eauto].
    apply Horder. destruct Hd as (tp' & Htp' & Hbig).
    split; [by eapply children_modelled|].
    destruct Hbig as (? & ? & ? & _ & _ & _ & _ & ?). lia.
Qed.

End CountModel.

(** ** The reverse index *)

Section Reverse.

Context {F : Type} `{Float64 F}.
Implicit Types (R : gmap string (gmap string F)).

(** The probability the index holds for a child under a parent. *)
Definition entry R (c p : string) : option F := R !! c ≫= λ parents, parents !! p.

(** [c] is one of the two children of the split [s] of [p]. *)
Definition child_of (c p s : string) : Prop :=
  c = (elucidate_cc_split p s).1 ∨ c = (elucidate_cc_split p s).2.

Lemma entry_reverse_update R c p cp c' p' :
  entry (reverse_update R c p cp) c' p'
  = if decide (c' = c ∧ p' = p) then Some cp else entry R c' p'.
Proof.
  unfold entry, reverse_update.
  destruct (R !! c) as [parents|] eqn:E.
  - destruct (decide (c' = c)) as [->|Hc].
    + rewrite lookup_insert_eq, E. simpl.
      destruct (decide (p' = p)) as [->|Hp].
      * rewrite decide_True by done. apply lookup_insert_eq.
      * rewrite decide_False by naive_solver. by apply lookup_insert_ne.
    + rewrite lookup_insert_ne by done. rewrite decide_False by naive_solver. done.
  - destruct (decide (c' = c)) as [->|Hc].
    + rewrite lookup_insert_eq, E. simpl.
      destruct (decide (p' = p)) as [->|Hp].
      * rewrite decide_True by done. apply lookup_singleton_eq.
      * rewrite decide_False by naive_solver. by apply lookup_singleton_ne.
    + rewrite lookup_insert_ne by done. rewrite decide_False by naive_solver. done.
Qed.

Lemma entry_reverse_split_step R p s cp c' p' :
  entry (reverse_split_step p R (s, cp)) c' p'
  = if decide (p' = p ∧ child_of c' p s) then Some cp else entry R c' p'.
Proof.
  unfold reverse_split_step, child_of. cbn [fst snd].
  rewrite !entry_reverse_update. repeat case_decide; naive_solver.
Qed.

(** The splits of the model, each with its parent and its probability. *)
Definition model_splits {D} (cc_sets : gmap string (table F D))
    : list (string * (string * F)) :=
  map_to_list cc_sets ≫= λ item, map (λ sp, (item.1, sp)) (map_to_list (probabilities item.2)).

Definition reverse_triple_step R (x : string * (string * F)) : gmap string (gmap string F) :=
  reverse_split_step x.1 R x.2.

Lemma reverse_cc_probabilities_flat {D} (cc_sets : gmap string (table F D)) :
  reverse_cc_probabilities cc_sets = foldl reverse_triple_step ∅ (model_splits cc_sets).
Proof.
  unfold reverse_cc_probabilities, model_splits.
  generalize (∅ : gmap string (gmap string F)).
  induction (map_to_list cc_sets) as [|[p tp] l IH]; intros R; [done|].
  cbn [foldl mbind list_bind]. rewrite foldl_app, IH. f_equal.
  unfold reverse_parent_step. cbn [fst snd].
  generalize (map_to_list (probabilities tp)). clear. intros l. revert R.
  induction l as [|sp l IH]; intros R; [done|]. simpl. by rewrite IH.
Qed.

Lemma elem_of_model_splits {D} (cc_sets : gmap string (table F D)) p s cp :
  (p, (s, cp)) ∈ model_splits cc_sets
  ↔ ∃ tp, cc_sets !! p = Some tp ∧ probabilities tp !! s = Some cp.
Proof.
  unfold model_splits. rewrite list_elem_of_bind. split.
  - intros ([p' tp] & Hin & Hp%elem_of_map_to_list).
    apply list_elem_of_fmap in Hin as ([s' cp'] & [= -> -> ->] & Hs%elem_of_map_to_list).
    eauto.
  - intros (tp & Hp & Hs). exists (p, tp). split.
    + apply list_elem_of_fmap. exists (s, cp). split; [done|]. by apply elem_of_map_to_list.
    + by apply elem_of_map_to_list.
Qed.

(** Every entry of the index comes from a split of the model. *)
Lemma reverse_fold_sound triples : ∀ R c p cp,
  entry (foldl reverse_triple_step R triples) c p = Some cp →
  entry R c p = Some cp ∨ ∃ s, (p, (s, cp)) ∈ triples ∧ child_of c p s.
Proof.
  induction triples as [|[p0 [s0 cp0]] triples IH]; intros R c p cp Hc; [by left|].
  simpl in Hc. apply IH in Hc as [Hc | (s & Hs & Hch)].
  - unfold reverse_triple_step in Hc. cbn [fst snd] in Hc.
    rewrite entry_reverse_split_step in Hc. case_decide as Hd; [|by left].
    destruct Hd as [-> Hch]. injection Hc as ->. right. exists s0. split; [left | done].
  - right. exists s. split; [by right | done].
Qed.

(** Every child of a split of the model has an entry under the parent. *)
Lemma reverse_fold_complete triples : ∀ R c p,
  is_Some (entry R c p) ∨ (∃ s cp, (p, (s, cp)) ∈ triples ∧ child_of c p s) →
  is_Some (entry (foldl reverse_triple_step R triples) c p).
Proof.
  induction triples as [|[p0 [s0 cp0]] triples IH]; intros R c p Hc.
  - destruct Hc as [Hc | (s & cp & Hin%elem_of_nil & _)]; done.
  - simpl. apply IH. unfold reverse_triple_step. cbn [fst snd].
    rewrite entry_reverse_split_step.
    destruct Hc as [Hc | (s & cp & Hin & Hch)].
    + left. case_decide; eauto.
    + apply elem_of_cons in Hin as [[= -> -> ->] | Hin].
      * left. rewrite decide_True by done. eauto.
      * right. eauto.
Qed.

Lemma entry_empty c p : entry ∅ c p = None.
Proof. unfold entry. by rewrite lookup_empty. Qed.

Lemma reverse_cc_sound {D} (cc_sets : gmap string (table F D)) c parents p cp :
  reverse_cc_probabilities cc_sets !! c = Some parents → parents !! p = Some cp →
  ∃ tp s, cc_sets !! p = Some tp ∧ probabilities tp !! s = Some cp ∧ child_of c p s.
Proof.
  intros Hc Hp.
  assert (entry (reverse_cc_probabilities cc_sets) c p = Some cp) as He
    by (unfold entry; by rewrite Hc).
  rewrite reverse_cc_probabilities_flat in He.
  apply reverse_fold_sound in He as [He | (s & Hs & Hch)].
  - by rewrite entry_empty in He.
  - apply elem_of_model_splits in Hs as (tp & Htp & Hs). eauto.
Qed.

Lemma reverse_cc_complete {D} (cc_sets : gmap string (table F D)) c p tp s :
  cc_sets !! p = Some tp → is_Some (probabilities tp !! s) → child_of c p s →
  ∃ parents, reverse_cc_probabilities cc_sets !! c = Some parents ∧ is_Some (parents !! p).
Proof.
  intros Htp [cp Hs] Hch.
  assert (is_Some (entry (reverse_cc_probabilities cc_sets) c p)) as [v Hv].
  { rewrite reverse_cc_probabilities_flat. apply reverse_fold_complete. right.
    exists s, cp. split; [|done]. apply elem_of_model_splits. eauto. }
  unfold entry in Hv.
  destruct (reverse_cc_probabilities cc_sets !! c) as [parents|]; [|done].
  exists parents. split; [done|]. simpl in Hv. eauto.
Qed.

End Reverse.

(** ** Clade probabilities from the conditional clade model *)

Lemma py_index_in_range len idx :
  (0 ≤ idx < Z.of_nat len)%Z → py_index len idx = Some (Z.to_nat idx).
Proof.
  intros [H0 H1]. unfold py_index.
  apply Z.leb_le in H0. apply Z.ltb_lt in H1. by rewrite H0, H1.
Qed.

Section PathProbability.

Context {F : Type} `{Float64 F}.
Implicit Types (parents m : gmap string F).

(** The sum of the specification: over the parents of a clade, the
    conditional probability of the split times the probability of the
    parent. *)
Definition clade_sum parents m : F :=
  foldl (λ acc item, f_add acc (f_mul item.2 (default f_zero (m !! item.1))))
        f_zero (map_to_list parents).

Lemma path_fold_ext parents m1 m2 l : ∀ acc,
  (∀ p, p ∈ l → m1 !! p = m2 !! p) →
  foldl (path_step parents m1) acc l = foldl (path_step parents m2) acc l.
Proof.
  induction l as [|p l IH]; intros acc Hm; [done|].
  simpl. rewrite IH by (intros q Hq; apply Hm; by right). f_equal.
  unfold path_step. by rewrite (Hm p) by left.
Qed.

Lemma path_probability_ext parents m1 m2 :
  (∀ p, is_Some (parents !! p) → m1 !! p = m2 !! p) →
  path_probability parents m1 = path_probability parents m2.
Proof.
  intros Hm. apply path_fold_ext. intros p Hp%elem_of_map_keys. by apply Hm.
Qed.

Lemma path_fold_closed parents m items : ∀ a,
  (∀ p cp, (p, cp) ∈ items → parents !! p = Some cp ∧ is_Some (m !! p)) →
  foldl (path_step parents m) (Some a) (map fst items)
  = Some (foldl (λ acc item, f_add acc (f_mul item.2 (default f_zero (m !! item.1))))
                a items).
Proof.
  induction items as [|[p cp] items IH]; intros a Hall; [done|].
  destruct (Hall p cp) as [Hp [v Hv]]; [left|].
  cbn [map foldl fst snd]. unfold path_step at 2. cbn [mbind option_bind].
  rewrite Hp, Hv. cbn [mbind option_bind default].
  apply IH. intros q cq Hq. apply Hall. by right.
Qed.

Lemma path_probability_closed parents m :
  (∀ p, is_Some (parents !! p) → is_Some (m !! p)) →
  path_probability parents m = Some (clade_sum parents m).
Proof.
  intros Hm. apply path_fold_closed. intros p cp Hp%elem_of_map_to_list.
  split; [done|]. apply Hm. eauto.
Qed.

End PathProbability.

Section SizeBuckets.

Context {F : Type} `{Float64 F}.
Variable self : table F nat.
Variable n_taxa : nat.

Hypothesis data_length : length (data_array self) = length (hashes_array self).
Hypothesis sizes_recorded : ∀ i c d,
  hashes_array self !! i = Some c → data_array self !! i = Some d → d = clade_size c.
Hypothesis sizes_range : ∀ c, c ∈ hashes_array self → 2 ≤ clade_size c ≤ n_taxa.

(** The buckets of [derive_clade_probabilities]: bucket [j] holds the clades
    of [n_taxa - j] taxa. *)
Lemma size_buckets_fold k :
  k ≤ length (hashes_array self) →
  ∃ buckets, foldl (size_bucket_step self n_taxa) (Some (replicate (n_taxa - 1) ∅)) (seq 0 k)
             = Some buckets ∧
    length buckets = n_taxa - 1 ∧
    ∀ j c, c ∈ default ∅ (buckets !! j)
           ↔ c ∈ take k (hashes_array self) ∧ n_taxa - clade_size c = j.
Proof.
  induction k as [|k IH]; intros Hk.
  - eexists. split; [done|]. split; [apply length_replicate|].
    intros j c. rewrite default_lookup_replicate_empty. split.
    + by intros ?%not_elem_of_empty.
    + by intros [?%elem_of_nil _].
  - destruct IH as (buckets & Hf & Hl & Hb); [lia|].
    rewrite seq_S, foldl_app, Hf. cbn [foldl plus].
    destruct (lookup_lt_is_Some_2 (hashes_array self) k) as [c Hc]; [lia|].
    destruct (lookup_lt_is_Some_2 (data_array self) k) as [d Hd]; [lia|].
    pose proof (sizes_recorded k c d Hc Hd) as ->.
    assert (2 ≤ clade_size c ≤ n_taxa) as Hr
      by (apply sizes_range; by eapply list_elem_of_lookup_2).
    unfold size_bucket_step. cbn [mbind option_bind]. rewrite Hc, Hd.
    cbn [mbind option_bind]. rewrite py_index_in_range by lia.
    cbn [mbind option_bind].
    replace (Z.to_nat (Z.of_nat n_taxa - Z.of_nat (clade_size c))) with (n_taxa - clade_size c)
      by lia.
    eexists. split; [done|]. split; [by rewrite length_alter|].
    intros j c'. rewrite list_lookup_alter, (take_S_r _ _ _ Hc), elem_of_app.
    rewrite list_elem_of_singleton.
    destruct (lookup_lt_is_Some_2 buckets (n_taxa - clade_size c)) as [b0 Hb0]; [lia|].
    case_decide as Hj.
    + subst j. specialize (Hb (n_taxa - clade_size c) c'). rewrite Hb0 in *. simpl in *.
      rewrite elem_of_union, elem_of_singleton, Hb. naive_solver.
    + rewrite Hb. naive_solver.
Qed.

End SizeBuckets.

Section DeriveClades.

Context {F : Type} `{Float64 F} {D : Type}.
Variable self : table F nat.
Variable cc_sets : gmap string (table F D).
Variable n_taxa : nat.

(** The table of the clades of a sample and the model of the same sample:
    the payload of a clade is its number of taxa, between 2 and [n_taxa];
    every clade of fewer than [n_taxa] taxa is a child of a split of the
    model; the parents of the model are clades of the table; a split cuts a
    clade in two non-empty children. *)
Hypothesis self_wf : table_wf self.
Hypothesis features : n_features self = length (hashes_array self).
Hypothesis sizes_recorded : ∀ i c d,
  hashes_array self !! i = Some c → data_array self !! i = Some d → d = clade_size c.
Hypothesis sizes_range : ∀ c, c ∈ hashes_array self → 2 ≤ clade_size c ≤ n_taxa.
Hypothesis observed : ∀ c, c ∈ hashes_array self → clade_size c < n_taxa →
  ∃ p tp s, cc_sets !! p = Some tp ∧ is_Some (probabilities tp !! s) ∧ child_of c p s.
Hypothesis parents_in_table : ∀ p, is_Some (cc_sets !! p) → p ∈ hashes_array self.
Hypothesis splits_proper : ∀ p tp s,
  cc_sets !! p = Some tp → is_Some (probabilities tp !! s) →
  1 ≤ clade_size (elucidate_cc_split p s).1 ∧ 1 ≤ clade_size (elucidate_cc_split p s).2.

Local Abbreviation R := (reverse_cc_probabilities cc_sets).
Local Abbreviation root := (calculate_root_hash n_taxa).
Local Abbreviation probs0 := (<[calculate_root_hash n_taxa := f_one]> (probabilities self)).

Definition clade_dep (c p : string) : Prop :=
  ∃ parents, reverse_cc_probabilities cc_sets !! c = Some parents ∧ is_Some (parents !! p).

Lemma clade_dep_larger c p :
  clade_dep c p → clade_size c < clade_size p ∧ p ∈ hashes_array self.
Proof.
  intros (parents & Hc & [cp Hp]).
  destruct (reverse_cc_sound cc_sets c parents p cp Hc Hp) as (tp & s & Htp & Hs & Hch).
  destruct (splits_proper p tp s Htp) as [H1 H2]; [eauto|].
  pose proof (elucidate_cc_split_sizes p s) as Hsum.
  split; [destruct Hch as [-> | ->]; lia|]. apply parents_in_table. eauto.
Qed.

Lemma clade_probability_ext (m1 m2 : gmap string F) c :
  (∀ p, clade_dep c p → m1 !! p = m2 !! p) →
  clade_probability R m1 c = clade_probability R m2 c.
Proof.
  intros Hm. unfold clade_probability.
  destruct (R !! c) as [parents|] eqn:E; [|done]. simpl.
  apply path_probability_ext. intros p Hp. apply Hm. by exists parents.
Qed.

Lemma clade_probability_closed (m : gmap string F) c parents :
  R !! c = Some parents →
  (∀ p, clade_dep c p → is_Some (m !! p)) →
  clade_probability R m c = Some (clade_sum parents m).
Proof.
  intros Hc Hm. unfold clade_probability. rewrite Hc. simpl.
  apply path_probability_closed. intros p Hp. apply Hm. by exists parents.
Qed.

Lemma probs0_table c : c ∈ hashes_array self → is_Some (probs0 !! c).
Proof.
  intros [i Hi]%list_elem_of_lookup.
  destruct (table_wf_lookup self i c self_wf Hi) as (p & Hp & _).
  destruct (decide (calculate_root_hash n_taxa = c)) as [->|Hne].
  - rewrite lookup_insert_eq. eauto.
  - rewrite lookup_insert_ne by done. eauto.
Qed.

(** C5. On the table of the clades of a sample and the model of that sample,
    [derive_clade_probabilities] gives the root clade the probability 1,
    goes through the clades of fewer than [n_taxa] taxa by decreasing number
    of taxa, and leaves every such clade with the sum, over the parents that
    have it as a child of one of their splits, of the probability of that
    split times the probability of the parent. *)
Theorem derive_clade_probabilities_sums :
  ∃ t' order,
    derive_clade_probabilities self cc_sets n_taxa = Some t' ∧
    hashes_array t' = hashes_array self ∧
    probabilities t' !! calculate_root_hash n_taxa = Some f_one ∧
    (* the order of the computation *)
    foldl (clade_step (reverse_cc_probabilities cc_sets))
          (Some (<[calculate_root_hash n_taxa := f_one]> (probabilities self))) order
      = Some (probabilities t') ∧
    NoDup order ∧
    (∀ c, c ∈ order ↔ c ∈ hashes_array self ∧ clade_size c < n_taxa) ∧
    (∀ k1 k2 c1 c2, k1 < k2 → order !! k1 = Some c1 → order !! k2 = Some c2 →
       clade_size c2 ≤ clade_size c1) ∧
    (* the probability of a clade *)
    ∀ c, c ∈ hashes_array self → clade_size c < n_taxa →
      ∃ parents, reverse_cc_probabilities cc_sets !! c = Some parents ∧
        probabilities t' !! c = Some (clade_sum parents (probabilities t')) ∧
        (∀ p cp, parents !! p = Some cp →
           ∃ tp s, cc_sets !! p = Some tp ∧ probabilities tp !! s = Some cp ∧ child_of c p s) ∧
        (∀ p tp s, cc_sets !! p = Some tp → is_Some (probabilities tp !! s) →
           child_of c p s → is_Some (parents !! p)).
Proof.
  destruct self_wf as (Hnd & Hld & Hmap).
  destruct (size_buckets_fold self n_taxa Hld sizes_recorded sizes_range
              (length (hashes_array self))) as (buckets & Hf & Hl & Hb); [done|].
  rewrite firstn_all in Hb.
  set (family := λ c : string, c ∈ hashes_array self).
  set (rank := λ c : string, n_taxa - clade_size c).
  assert (∀ j c, c ∈ default ∅ (buckets !! j)
                 ↔ family c ∧ rank c = j ∧ j < length buckets) as Hspec.
  { intros j c. rewrite Hb. unfold family, rank. split.
    - intros [Hc <-]. specialize (sizes_range c Hc). split_and!; [done | done | lia].
    - intros (Hc & <- & _). done. }
  set (order := bucket_order buckets (seq 1 (n_taxa - 2))).
  assert (∀ c, c ∈ order ↔ c ∈ hashes_array self ∧ clade_size c < n_taxa) as Horder.
  { intros c. unfold order.
    rewrite (elem_of_bucket_order buckets family rank Hspec). unfold family, rank. split.
    - intros (Hc & Hr & _). split; [done | lia].
    - intros [Hc Hlt]. specialize (sizes_range c Hc). split_and!; [done | lia..]. }
  destruct (bucket_order_sorted buckets family rank Hspec 1 (n_taxa - 2)) as [Hnd' Hsorted].
  fold order in Hnd', Hsorted.
  assert (∀ k c p, order !! k = Some c → clade_dep c p → p ∉ drop k order) as Hdep.
  { intros k c p Hk Hp Hin.
    pose proof (bucket_order_drop buckets family rank Hspec 1 (n_taxa - 2) k c p Hk Hin) as Hr.
    apply clade_dep_larger in Hp as [Hlt _]. unfold rank in Hr.
    assert (c ∈ order) as [_ Hc]%Horder by (by eapply list_elem_of_lookup_2). lia. }
  destruct (dp_fold (clade_probability R) clade_dep clade_probability_ext order probs0
              Hnd' Hdep) as (m & Hm & Hin & Hout).
  { intros k c m Hk Hdom.
    assert (c ∈ order) as [Hc Hlt]%Horder by (by eapply list_elem_of_lookup_2).
    destruct (observed c Hc Hlt) as (p & tp & s & Htp & Hs & Hch).
    destruct (reverse_cc_complete cc_sets c p tp s Htp Hs Hch) as (parents & Hpar & _).
    rewrite (clade_probability_closed m c parents Hpar); [eauto|].
    intros q Hq. apply Hdom. left. apply probs0_table.
    by apply clade_dep_larger in Hq as [_ Hq]. }
  assert (∀ c, c ∈ hashes_array self → is_Some (m !! c)) as Hall.
  { intros c Hc. destruct (decide (c ∈ order)) as [Ho|Ho].
    - destruct (Hin c Ho) as (v & Hv & _). eauto.
    - rewrite Hout by done. by apply probs0_table. }
  destruct (convert_probabilities_Some (set_probabilities self m) Hall) as (parr & Hparr & Hc).
  exists (Table (n_features self) (hashes_array self) (data_array self) m parr), order.
  split.
  { unfold derive_clade_probabilities. rewrite features, Hf. cbn [mbind option_bind].
    change (clade_step R) with (dp_step (clade_probability R)).
    rewrite bucket_fold; [| apply dp_step_None |].
    - fold order. rewrite Hm. cbn [mbind option_bind]. rewrite Hc.
      cbn [set_probabilities n_features hashes_array data_array probabilities].
      by rewrite features.
    - apply Forall_forall. intros i Hi%elem_of_seq. lia. }
  cbn [hashes_array probabilities].
  split; [done|]. split.
  { rewrite Hout; [apply lookup_insert_eq|].
    intros [_ Hlt]%Horder. rewrite clade_size_root in Hlt. lia. }
  split; [exact Hm|]. split; [exact Hnd'|]. split; [exact Horder|]. split.
  { intros k1 k2 c1 c2 Hk Hk1 Hk2.
    pose proof (StronglySorted_lookup (λ x y, rank x ≤ rank y) order k1 k2 c1 c2
                  Hsorted Hk Hk1 Hk2) as Hr.
    unfold rank in Hr.
    assert (c2 ∈ order) as [Hc2 _]%Horder by (by eapply list_elem_of_lookup_2).
    specialize (sizes_range c2 Hc2). lia. }
  intros c Hc' Hlt.
  destruct (Hin c) as (v & Hv & Hcv); [by apply Horder|].
  destruct (observed c Hc' Hlt) as (p & tp & s & Htp & Hs & Hch).
  destruct (reverse_cc_complete cc_sets c p tp s Htp Hs Hch) as (parents & Hpar & _).
  exists parents. split; [done|]. split.
  { rewrite Hv, <- Hcv. apply clade_probability_closed; [done|].
    intros q Hq. apply Hall. by apply clade_dep_larger in Hq as [_ Hq]. }
  split.
  - intros q cq Hq. by eapply reverse_cc_sound.
  - intros q tq sq Htq Hsq Hchq.
    destruct (reverse_cc_complete cc_sets c q tq sq Htq Hsq Hchq) as (parents' & Hpar' & Hq).
    assert (parents' = parents) as -> by congruence. done.
Qed.

End DeriveClades.

(** ** Topology probabilities under the model *)

Section FromCcs.

Context {F : Type} `{Float64 F} {D : Type}.
Variable cc_sets : gmap string (table F D).

(** The probability stored for the split of a record; [None] when the clade
    is not in the model or the split is not a key of its table. *)
Definition split_probability (node : string * string) : option F :=
  splits ← cc_sets !! rstrip_nul node.1;
  probabilities splits !! rstrip_nul node.2.

(** The records of clades of three taxa or more. *)
Definition conditional_records (records : list (string * string)) : list (string * string) :=
  filter (λ node, 3 ≤ clade_size (rstrip_nul node.1)) records.

(** The product of the specification. *)
Definition topology_probability (records : list (string * string)) : F :=
  numpy_prod (map (λ node, default f_zero (split_probability node))
                  (conditional_records records)).

Lemma node_probability_step_Some acc node :
  node_probability_step cc_sets (Some acc) node
  = if decide (3 ≤ clade_size (rstrip_nul node.1))
    then p ← split_probability node; Some (acc ++ [p])
    else Some acc.
Proof.
  unfold node_probability_step, split_probability. cbn [mbind option_bind].
  destruct (Nat.leb_spec 3 (clade_size (rstrip_nul node.1))) as [H3|H3].
  - rewrite decide_True by done. by destruct (cc_sets !! rstrip_nul node.1).
  - rewrite decide_False by lia. done.
Qed.

Lemma node_fold_None records : foldl (node_probability_step cc_sets) None records = None.
Proof. induction records as [|node records IH]; [done|]. apply IH. Qed.

Lemma node_fold_closed records : ∀ acc,
  Forall (λ node, is_Some (split_probability node)) (conditional_records records) →
  foldl (node_probability_step cc_sets) (Some acc) records
  = Some (acc ++ map (λ node, default f_zero (split_probability node))
                     (conditional_records records)).
Proof.
  induction records as [|node records IH]; intros acc Hall.
  - simpl. by rewrite app_nil_r.
  - cbn [foldl]. rewrite node_probability_step_Some.
    unfold conditional_records in *. rewrite filter_cons in *.
    case_decide as H3.
    + apply Forall_cons in Hall as [[p Hp] Hall]. cbn [map]. rewrite Hp.
      cbn [mbind option_bind default].
      rewrite IH by done. by rewrite <- app_assoc.
    + by apply IH.
Qed.

Lemma node_fold_missing records : ∀ acc,
  Exists (λ node, split_probability node = None) (conditional_records records) →
  foldl (node_probability_step cc_sets) acc records = None.
Proof.
  induction records as [|node records IH]; intros acc Hex.
  - by apply Exists_nil in Hex.
  - cbn [foldl]. destruct acc as [acc|]; [|apply node_fold_None].
    rewrite node_probability_step_Some.
    unfold conditional_records in *. rewrite filter_cons in Hex.
    case_decide as H3.
    + apply Exists_cons in Hex as [Hn | Hex]; [|by apply IH].
      rewrite Hn. apply node_fold_None.
    + by apply IH.
Qed.

Variable self : table F tree.

Hypothesis hashes_NoDup : NoDup (hashes_array self).
Hypothesis features : n_features self = length (hashes_array self).
Hypothesis data_length : length (data_array self) = length (hashes_array self).

(** The sorted records of a topology of the table. *)
Definition records_of (topology : tree) : list (string * string) :=
  generate_topology_array (sample_taxon_order (data_array self)) topology.

Lemma topology_step_Some m i h topology :
  hashes_array self !! i = Some h → data_array self !! i = Some topology →
  topology_step self cc_sets (topology_arrays (data_array self)) (Some m) i
  = node_probabilities ← foldl (node_probability_step cc_sets) (Some [])
                                (records_of topology);
    Some (<[h := numpy_prod node_probabilities]> m).
Proof.
  intros Hh Hd. unfold topology_step, topology_arrays. cbn [mbind option_bind].
  rewrite list_lookup_fmap, Hd, Hh. done.
Qed.

Lemma topology_fold_None idxs :
  foldl (topology_step self cc_sets (topology_arrays (data_array self))) None idxs = None.
Proof. induction idxs as [|i idxs IH]; [done|]. apply IH. Qed.

Lemma topology_fold k :
  k ≤ length (hashes_array self) →
  (∀ i topology, i < k → data_array self !! i = Some topology →
     Forall (λ node, is_Some (split_probability node))
            (conditional_records (records_of topology))) →
  ∃ m, foldl (topology_step self cc_sets (topology_arrays (data_array self)))
             (Some (probabilities self)) (seq 0 k) = Some m ∧
    (∀ i h topology, i < k → hashes_array self !! i = Some h →
       data_array self !! i = Some topology →
       m !! h = Some (topology_probability (records_of topology))) ∧
    (∀ x, x ∉ take k (hashes_array self) → m !! x = probabilities self !! x).
Proof.
  induction k as [|k IH]; intros Hk Hall.
  - exists (probabilities self). split; [done|]. split; [intros; lia | done].
  - destruct IH as (m & Hf & Hin & Hout);
      [lia | intros i topology Hi Hd; apply (Hall i topology); [lia | done] |].
    destruct (lookup_lt_is_Some_2 (hashes_array self) k) as [h Hh]; [lia|].
    destruct (lookup_lt_is_Some_2 (data_array self) k) as [topology Hd]; [lia|].
    rewrite seq_S, foldl_app, Hf. cbn [foldl plus].
    rewrite (topology_step_Some m k h topology Hh Hd).
    rewrite node_fold_closed by (apply (Hall k topology); [lia | done]).
    cbn [mbind option_bind app].
    eexists. split; [done|]. split.
    + intros i h' topology' Hi Hh' Hd'.
      destruct (decide (i = k)) as [->|Hne].
      * assert (h' = h) as -> by congruence.
        assert (topology' = topology) as -> by congruence.
        by rewrite lookup_insert_eq.
      * rewrite lookup_insert_ne; [apply (Hin i h' topology'); [lia | done | done]|].
        intros <-. apply Hne. symmetry. by eapply NoDup_lookup.
    + intros x Hx. rewrite (take_S_r _ _ _ Hh) in Hx.
      apply not_elem_of_app in Hx as [Hx Hx'].
      rewrite lookup_insert_ne; [by apply Hout|].
      intros <-. apply Hx'. left.
Qed.

Lemma topology_fold_missing i topology n :
  i < n → n ≤ length (hashes_array self) →
  data_array self !! i = Some topology →
  Exists (λ node, split_probability node = None)
         (conditional_records (records_of topology)) →
  foldl (topology_step self cc_sets (topology_arrays (data_array self)))
        (Some (probabilities self)) (seq 0 n) = None.
Proof.
  intros Hi Hn Hd Hex. induction n as [|n IH]; [lia|].
  rewrite seq_S, foldl_app. cbn [foldl plus].
  destruct (decide (i = n)) as [->|Hne].
  - destruct (foldl _ _ (seq 0 n)) as [m|]; [|done].
    destruct (lookup_lt_is_Some_2 (hashes_array self) n) as [h Hh]; [lia|].
    rewrite (topology_step_Some m n h topology Hh Hd).
    by rewrite node_fold_missing.
  - rewrite IH by lia. done.
Qed.

(** C6, as the code has it. [probabilities_from_ccs] gives every topology of
    the table the product, over its records of clades of three taxa or more,
    of the probability stored for the record's split in the table of the
    record's clade; the records of smaller clades are skipped, so that a
    topology without a clade of three taxa gets the probability 1. The clade
    of such a record must be in the model and its split must be a key of the
    clade's table: otherwise the call fails with [KeyError] and returns no
    table. *)
Theorem probabilities_from_ccs_products :
  ((∀ topology, topology ∈ data_array self →
      Forall (λ node, is_Some (split_probability node))
             (conditional_records (records_of topology))) →
   ∃ t', probabilities_from_ccs self cc_sets = Some t' ∧
     hashes_array t' = hashes_array self ∧ data_array t' = data_array self ∧
     ∀ i h topology, hashes_array self !! i = Some h → data_array self !! i = Some topology →
       probabilities t' !! h = Some (topology_probability (records_of topology)) ∧
       probabilities_array t' !! i = Some (topology_probability (records_of topology)) ∧
       (conditional_records (records_of topology) = [] →
        topology_probability (records_of topology) = f_one)) ∧
  ((∃ topology, topology ∈ data_array self ∧
      Exists (λ node, split_probability node = None)
             (conditional_records (records_of topology))) →
   probabilities_from_ccs self cc_sets = None).
Proof.
  split.
  - intros Hall.
    destruct (topology_fold (length (hashes_array self))) as (m & Hf & Hin & Hout); [done | |].
    { intros i topology _ Hd. apply Hall. by eapply list_elem_of_lookup_2. }
    destruct (convert_probabilities_Some (set_probabilities self m)) as (parr & Hparr & Hc).
    { cbn [set_probabilities hashes_array probabilities].
      intros h [i Hi]%list_elem_of_lookup.
      destruct (lookup_lt_is_Some_2 (data_array self) i) as [topology Hd].
      { rewrite data_length. by eapply lookup_lt_Some. }
      rewrite (Hin i h topology); [eauto | by eapply lookup_lt_Some | done | done]. }
    unfold probabilities_from_ccs. rewrite features, Hf. cbn [mbind option_bind].
    rewrite Hc. eexists. split; [done|].
    cbn [set_probabilities hashes_array data_array probabilities probabilities_array] in *.
    split; [done|]. split; [done|].
    intros i h topology Hh Hd.
    assert (m !! h = Some (topology_probability (records_of topology))) as Hm
      by (apply (Hin i h topology); [by eapply lookup_lt_Some | done | done]).
    split; [done|]. split.
    + apply mapM_Some in Hparr.
      destruct (Forall2_lookup_l _ _ _ _ _ Hparr Hh) as (p & Hp & Hhp). congruence.
    + intros Hnil. unfold topology_probability. by rewrite Hnil.
  - intros (topology & [i Hd]%list_elem_of_lookup & Hex).
    unfold probabilities_from_ccs. rewrite features.
    rewrite (topology_fold_missing i topology); [done | | done..].
    rewrite <- data_length. by eapply lookup_lt_Some.
Qed.

End FromCcs.

(** ** The model at a sample of five taxa

    The taxa A to E; the root clade is split into ABC and DE with
    probability 3/4 and into AB and CDE with probability 1/4; ABC into AB
    and C with probability 3/4 and into A and BC with probability 1/4; CDE
    into C and DE. Every id takes one byte. *)

Definition byte_id (n : N) : string := String (ascii_of_N n) EmptyString.

Definition ex_root : string := byte_id 248.
Definition ex_ABC : string := byte_id 224.
Definition ex_CDE : string := byte_id 56.
Definition ex_AB : string := byte_id 192.
Definition ex_BC : string := byte_id 96.
Definition ex_DE : string := byte_id 24.

Definition ex_root_splits : table Q unit :=
  Table 2 [byte_id 192; byte_id 224] [(); ()]
        (<[byte_id 192 := (1 # 4)%Q]> (<[byte_id 224 := (3 # 4)%Q]> ∅)) [(1 # 4)%Q; (3 # 4)%Q].

Definition ex_ABC_splits : table Q unit :=
  Table 2 [byte_id 128; byte_id 192] [(); ()]
        (<[byte_id 128 := (1 # 4)%Q]> (<[byte_id 192 := (3 # 4)%Q]> ∅)) [(1 # 4)%Q; (3 # 4)%Q].

Definition ex_CDE_splits : table Q unit :=
  Table 1 [byte_id 128] [()] (<[byte_id 128 := 1%Q]> ∅) [1%Q].

Definition ex_cc : gmap string (table Q unit) :=
  <[ex_root := ex_root_splits]> (<[ex_ABC := ex_ABC_splits]> (<[ex_CDE := ex_CDE_splits]> ∅)).

(** The clades of the sample, each with its number of taxa. *)
Definition ex_clades : table Q nat :=
  Table 6 [ex_DE; ex_CDE; ex_BC; ex_AB; ex_ABC; ex_root] [2; 3; 2; 2; 3; 5]
        (<[ex_DE := 0%Q]> (<[ex_CDE := 0%Q]> (<[ex_BC := 0%Q]> (<[ex_AB := 0%Q]>
           (<[ex_ABC := 0%Q]> (<[ex_root := 0%Q]> ∅))))))
        [0%Q; 0%Q; 0%Q; 0%Q; 0%Q; 0%Q].

(** Two topologies of the sample: (((A,B),C),(D,E)) and ((A,B),(C,(D,E))). *)
Definition ex_topology1 : tree :=
  Node (Node (Node (Leaf "A") (Leaf "B")) (Leaf "C")) (Node (Leaf "D") (Leaf "E")).
Definition ex_topology2 : tree :=
  Node (Node (Leaf "A") (Leaf "B")) (Node (Leaf "C") (Node (Leaf "D") (Leaf "E"))).

Definition ex_topologies : table Q tree :=
  Table 2 ["t1"; "t2"] [ex_topology1; ex_topology2]
        (<["t1" := 0%Q]> (<["t2" := 0%Q]> ∅)) [0%Q; 0%Q].

Ltac model_cases Hp :=
  unfold ex_cc in Hp;
  apply lookup_insert_Some in Hp as [[<- <-] | [_ Hp]];
  [| apply lookup_insert_Some in Hp as [[<- <-] | [_ Hp]];
     [| apply lookup_insert_Some in Hp as [[<- <-] | [_ Hp]];
        [| by rewrite lookup_empty in Hp]]].

Ltac index_cases j Hs :=
  destruct j as [|[|j]]; cbn in Hs; try discriminate Hs;
  try (by rewrite lookup_nil in Hs); try (injection Hs as <-).

Lemma ex_cc_sizes p :
  is_Some (ex_cc !! p) → 3 ≤ clade_size p → clade_size p ≤ 5.
Proof. intros [tp Hp] _. model_cases Hp; vm_compute; lia. Qed.

Lemma ex_cc_tables p tp : ex_cc !! p = Some tp →
  n_features tp = length (hashes_array tp) ∧
  length (probabilities_array tp) = length (hashes_array tp).
Proof. intros Hp. model_cases Hp; done. Qed.

Lemma ex_cc_proper p tp j split : ex_cc !! p = Some tp →
  hashes_array tp !! j = Some split →
  1 ≤ clade_size (elucidate_cc_split p split).1 ∧
  1 ≤ clade_size (elucidate_cc_split p split).2.
Proof. intros Hp Hs. model_cases Hp; index_cases j Hs; vm_compute; lia. Qed.

Lemma ex_cc_children p tp d : ex_cc !! p = Some tp →
  big_child false p tp d → is_Some (ex_cc !! d).
Proof.
  intros Hp (j & split & prob & Hs & _ & _ & Hd & Hbig).
  model_cases Hp; index_cases j Hs; destruct Hd as [-> | ->];
    first [ by (vm_compute in Hbig; lia) | by (vm_compute; eauto) ].
Qed.

Lemma ex_root_hash : calculate_root_hash 5 = ex_root.
Proof. vm_compute. reflexivity. Qed.

(** C7 at the model: three topologies, two through ABC and one through CDE. *)
Lemma n_derived_topologies_counts_witness :
  ∃ (n_subtrees : gmap string Z),
    n_derived_topologies ex_cc 5 false = Some 3%Z ∧
    n_subtrees !! ex_root = Some 3%Z ∧
    n_subtrees !! ex_root
    = Some (split_subtrees n_subtrees ex_root (byte_id 192)
            + (split_subtrees n_subtrees ex_root (byte_id 224) + 0))%Z.
Proof.
  destruct (n_derived_topologies_counts ex_cc 5 false ex_cc_sizes ex_cc_tables)
    as (n_subtrees & v & order & Hres & Hroot & _ & _ & _ & _ & Heq).
  - intros p tp j split prob Hp Hs _ _. by eapply ex_cc_proper.
  - apply ex_cc_children.
  - rewrite ex_root_hash. vm_compute. eauto.
  - lia.
  - assert (v = 3%Z) as -> by (vm_compute in Hres; congruence).
    rewrite ex_root_hash in Hroot. exists n_subtrees.
    split; [exact Hres|]. split; [exact Hroot|].
    apply (Heq ex_root ex_root_splits); [reflexivity | vm_compute; lia].
Defined.

Ltac clade_cases Hc :=
  unfold ex_clades in Hc; cbn [hashes_array] in Hc;
  repeat (apply elem_of_cons in Hc as [-> | Hc]); [.. | by apply elem_of_nil in Hc].

Ltac split_cases Hs :=
  cbn [probabilities ex_root_splits ex_ABC_splits ex_CDE_splits] in Hs;
  destruct Hs as [cp Hs];
  repeat (apply lookup_insert_Some in Hs as [[<- _] | [_ Hs]]; [|]);
  [.. | by rewrite lookup_empty in Hs].

Lemma ex_clades_wf : table_wf ex_clades.
Proof.
  split; [|split; [reflexivity | vm_compute; reflexivity]].
  apply (bool_decide_unpack _). vm_compute. exact I.
Defined.

Lemma ex_clades_sizes i c d :
  hashes_array ex_clades !! i = Some c → data_array ex_clades !! i = Some d →
  d = clade_size c.
Proof.
  intros Hc Hd.
  do 6 (destruct i as [|i]; [injection Hc as <-; injection Hd as <-; vm_compute; reflexivity|]).
  discriminate Hc.
Qed.

Lemma ex_clades_range c : c ∈ hashes_array ex_clades → 2 ≤ clade_size c ≤ 5.
Proof. intros Hc. clade_cases Hc; vm_compute; lia. Qed.

Lemma ex_clades_observed c :
  c ∈ hashes_array ex_clades → clade_size c < 5 →
  ∃ p tp s, ex_cc !! p = Some tp ∧ is_Some (probabilities tp !! s) ∧ child_of c p s.
Proof.
  intros Hc Hlt. clade_cases Hc.
  - exists ex_root, ex_root_splits, (byte_id 224).
    split; [reflexivity|]. split; [vm_compute; eauto | right; vm_compute; reflexivity].
  - exists ex_root, ex_root_splits, (byte_id 192).
    split; [reflexivity|]. split; [vm_compute; eauto | right; vm_compute; reflexivity].
  - exists ex_ABC, ex_ABC_splits, (byte_id 128).
    split; [reflexivity|]. split; [vm_compute; eauto | right; vm_compute; reflexivity].
  - exists ex_root, ex_root_splits, (byte_id 192).
    split; [reflexivity|]. split; [vm_compute; eauto | left; vm_compute; reflexivity].
  - exists ex_root, ex_root_splits, (byte_id 224).
    split; [reflexivity|]. split; [vm_compute; eauto | left; vm_compute; reflexivity].
  - vm_compute in Hlt. lia.
Qed.

Lemma ex_cc_parents p : is_Some (ex_cc !! p) → p ∈ hashes_array ex_clades.
Proof.
  intros [tp Hp]. model_cases Hp; apply (bool_decide_unpack _); vm_compute; exact I.
Qed.

Lemma ex_cc_proper_keys p tp s : ex_cc !! p = Some tp →
  is_Some (probabilities tp !! s) →
  1 ≤ clade_size (elucidate_cc_split p s).1 ∧ 1 ≤ clade_size (elucidate_cc_split p s).2.
Proof. intros Hp Hs. model_cases Hp; split_cases Hs; vm_compute; lia. Qed.

(** C5 at the sample: the root has the probability 1 and AB, a child of the
    root and of ABC, the sum over these two parents. *)
Lemma derive_clade_probabilities_sums_witness :
  ∃ t', derive_clade_probabilities ex_clades ex_cc 5 = Some t' ∧
    probabilities t' !! ex_root = Some 1%Q ∧
    ∃ parents, reverse_cc_probabilities ex_cc !! ex_AB = Some parents ∧
      parents = <[ex_root := (1 # 4)%Q]> (<[ex_ABC := (3 # 4)%Q]> ∅) ∧
      probabilities t' !! ex_AB = Some (clade_sum parents (probabilities t')).
Proof.
  destruct (derive_clade_probabilities_sums ex_clades ex_cc 5 ex_clades_wf eq_refl
              ex_clades_sizes ex_clades_range ex_clades_observed ex_cc_parents
              ex_cc_proper_keys)
    as (t' & order & Ht' & _ & Hroot & _ & _ & _ & _ & Hsum).
  exists t'. split; [exact Ht'|]. rewrite ex_root_hash in Hroot. split; [exact Hroot|].
  destruct (Hsum ex_AB) as (parents & Hpar & Hp & _).
  - apply (bool_decide_unpack _). vm_compute. exact I.
  - vm_compute. lia.
  - exists parents. split; [exact Hpar|]. split; [|exact Hp].
    assert (reverse_cc_probabilities ex_cc !! ex_AB
            = Some (<[ex_root := (1 # 4)%Q]> (<[ex_ABC := (3 # 4)%Q]> ∅))) as Hr
      by (vm_compute; reflexivity).
    rewrite Hr in Hpar. by injection Hpar as <-.
Defined.

(** C6 at the two topologies of the sample. *)
Lemma probabilities_from_ccs_products_witness :
  ∃ t', probabilities_from_ccs ex_topologies ex_cc = Some t' ∧
    probabilities t' !! "t1" = Some ((3 # 4) * (3 # 4))%Q ∧
    probabilities t' !! "t2" = Some (1 * (1 # 4))%Q.
Proof.
  destruct (probabilities_from_ccs_products ex_cc ex_topologies) as [Hok _].
  - apply (bool_decide_unpack _). vm_compute. exact I.
  - reflexivity.
  - reflexivity.
  - destruct Hok as (t' & Ht' & _ & _ & Hp).
    + intros topology Ht. cbn [data_array ex_topologies] in Ht.
      apply elem_of_cons in Ht as [-> | Ht];
        [| apply list_elem_of_singleton in Ht as ->];
        apply (bool_decide_unpack _); vm_compute; exact I.
    + exists t'. split; [exact Ht'|]. split.
      * destruct (Hp 0 "t1" ex_topology1 eq_refl eq_refl) as (H1 & _). exact H1.
      * destruct (Hp 1 "t2" ex_topology2 eq_refl eq_refl) as (H2 & _). exact H2.
Defined.

(** C6 fails as stated. Three taxa, a model whose root clade ABC has the one
    split into A and BC, and the topology ((A,B),C): the split of the root
    into AB and C is not in the table of ABC, and the call raises [KeyError]
    where the claim gives the topology the probability 0. *)
Definition ex_cc3 : gmap string (table Q unit) :=
  {[ byte_id 224 := Table 1 [byte_id 128] [()] (<[byte_id 128 := 1%Q]> ∅) [1%Q] ]}.

Definition ex_topologies3 : table Q tree :=
  Table 1 ["t"] [Node (Node (Leaf "A") (Leaf "B")) (Leaf "C")] (<["t" := 0%Q]> ∅) [0%Q].

Lemma probabilities_from_ccs_unobserved_split_fails :
  table_wf ex_topologies3 ∧
  is_Some (ex_cc3 !! byte_id 224) ∧
  records_of ex_topologies3 (Node (Node (Leaf "A") (Leaf "B")) (Leaf "C"))
    = [(byte_id 192, byte_id 128); (byte_id 224, byte_id 192)] ∧
  split_probability ex_cc3 (byte_id 224, byte_id 192) = None ∧
  probabilities_from_ccs ex_topologies3 ex_cc3 = None.
Proof.
  split.
  { split; [|split; [reflexivity | vm_compute; reflexivity]].
    apply (bool_decide_unpack _). vm_compute. exact I. }
  split; [vm_compute; eauto|]. repeat split; vm_compute; reflexivity.
Qed.

(** ** The order of byte strings and of records *)

Section StringOrder.

Lemma ascii_compare_refl a : Ascii.compare a a = Eq.
Proof. unfold Ascii.compare. apply N.compare_refl. Qed.

Lemma string_compare_refl s : String.compare s s = Eq.
Proof. induction s as [|a s IH]; [done|]. simpl. by rewrite ascii_compare_refl. Qed.

Lemma string_compare_Eq s1 s2 : String.compare s1 s2 = Eq ↔ s1 = s2.
Proof.
  split; [apply String.compare_eq_iff | intros ->; apply string_compare_refl].
Qed.

Lemma string_compare_Lt_trans s1 : ∀ s2 s3,
  String.compare s1 s2 = Lt → String.compare s2 s3 = Lt → String.compare s1 s3 = Lt.
Proof.
  induction s1 as [|a1 s1 IH]; intros [|a2 s2] [|a3 s3]; simpl; try done.
  unfold Ascii.compare.
  destruct (N.compare_spec (N_of_ascii a1) (N_of_ascii a2)) as [E12|L12|G12]; [| |done];
    destruct (N.compare_spec (N_of_ascii a2) (N_of_ascii a3)) as [E23|L23|G23]; try done;
    intros H12 H23.
  - rewrite E12, E23, N.compare_refl. by eapply IH.
  - rewrite E12. by apply N.compare_lt_iff in L23 as ->.
  - rewrite <- E23. by apply N.compare_lt_iff in L12 as ->.
  - assert (N_of_ascii a1 < N_of_ascii a3)%N as L by (by etrans).
    by apply N.compare_lt_iff in L as ->.
Qed.

Lemma string_compare_Gt s1 s2 : String.compare s1 s2 = Gt ↔ String.compare s2 s1 = Lt.
Proof. rewrite (String.compare_antisym s2 s1). by destruct (String.compare s1 s2). Qed.

Lemma str_le_compare x y : str_le x y ↔ String.compare x y ≠ Gt.
Proof. unfold str_le, String.leb. by destruct (String.compare x y). Qed.

#[export] Instance str_le_total : Total str_le.
Proof. intros x y. apply String.leb_total. Qed.

#[export] Instance str_le_antisymm : AntiSymm (=) str_le.
Proof. intros x y. apply String.leb_antisym. Qed.

#[export] Instance str_le_trans : Transitive str_le.
Proof.
  intros x y z. rewrite !str_le_compare. intros Hxy Hyz Hxz.
  destruct (String.compare x y) eqn:Exy; [| |done].
  - apply string_compare_Eq in Exy as ->. done.
  - destruct (String.compare y z) eqn:Eyz; [| |done].
    + apply string_compare_Eq in Eyz as ->. congruence.
    + pose proof (string_compare_Lt_trans _ _ _ Exy Eyz). congruence.
Qed.

#[export] Instance record_le_total : Total record_le.
Proof.
  intros [a1 a2] [b1 b2]. unfold record_le. simpl.
  rewrite (String.compare_antisym b1 a1).
  destruct (String.compare a1 b1) eqn:E; simpl; auto.
  apply String.leb_total.
Qed.

#[export] Instance record_le_antisymm : AntiSymm (=) record_le.
Proof.
  intros [a1 a2] [b1 b2]. unfold record_le. simpl.
  rewrite (String.compare_antisym b1 a1).
  destruct (String.compare a1 b1) eqn:E; simpl; try done.
  apply string_compare_Eq in E as ->. intros H1 H2.
  f_equal. by apply String.leb_antisym.
Qed.

#[export] Instance record_le_trans : Transitive record_le.
Proof.
  intros [a1 a2] [b1 b2] [c1 c2]. unfold record_le. simpl.
  destruct (String.compare a1 b1) eqn:Eab; [| |done].
  - apply string_compare_Eq in Eab as ->.
    destruct (String.compare b1 c1); [|done|done].
    apply (str_le_trans a2 b2 c2).
  - destruct (String.compare b1 c1) eqn:Ebc; [| |done].
    + apply string_compare_Eq in Ebc as ->. by rewrite Eab.
    + by rewrite (string_compare_Lt_trans _ _ _ Eab Ebc).
Qed.

(** [sorted] returns its argument in ascending order. *)
Lemma sorted_spec keys : StronglySorted str_le (sorted keys) ∧ sorted keys ≡ₚ keys.
Proof.
  split; [apply (StronglySorted_merge_sort _) | apply merge_sort_Permutation].
Qed.

(** Sorting does not depend on the order of its argument. *)
Lemma merge_sort_record_perm (l1 l2 : list (string * string)) :
  l1 ≡ₚ l2 → merge_sort record_le l1 = merge_sort record_le l2.
Proof.
  intros Hp. apply (StronglySorted_unique record_le).
  - apply (StronglySorted_merge_sort _).
  - apply (StronglySorted_merge_sort _).
  - by rewrite !merge_sort_Permutation.
Qed.

Lemma sorted_perm (l1 l2 : list string) : l1 ≡ₚ l2 → sorted l1 = sorted l2.
Proof.
  intros Hp. apply (StronglySorted_unique str_le).
  - apply sorted_spec.
  - apply sorted_spec.
  - unfold sorted. by rewrite !merge_sort_Permutation.
Qed.

End StringOrder.

(** ** The root id, sizes and names *)

Section CodecFacts.

Lemma calculate_root_hash_eq n_taxa :
  calculate_root_hash n_taxa = packbits (replicate n_taxa true).
Proof. reflexivity. Qed.

Lemma bit_replicate_true n i : i < n → bit (replicate n true) i = true.
Proof. intros H. by rewrite bit_lookup, lookup_replicate_2. Qed.

Lemma last_byte_string_of_bytes l : last_byte (string_of_bytes l) = last l.
Proof.
  induction l as [|a l IH]; [done|].
  destruct l as [|b l]; [done|]. simpl in *. apply IH.
Qed.

Lemma rstrip_nul_cons a s :
  rstrip_nul (String a s)
  = match rstrip_nul s with
    | EmptyString => if Ascii.eqb a zero then EmptyString else String a EmptyString
    | String b r => String a (String b r)
    end.
Proof. reflexivity. Qed.

(** A string that does not end in a zero byte is left as it is. *)
Lemma rstrip_nul_fixed s : last_byte s ≠ Some zero → rstrip_nul s = s.
Proof.
  induction s as [|a s IH]; [done|]. intros H.
  destruct s as [|b s].
  - simpl in *. destruct (Ascii.eqb_spec a zero) as [->|]; done.
  - rewrite rstrip_nul_cons, IH by done. done.
Qed.

Lemma rstrip_nul_fixed_iff s : rstrip_nul s = s ↔ last_byte s ≠ Some zero.
Proof.
  split; [|apply rstrip_nul_fixed]. intros <-. apply rstrip_nul_last.
Qed.

Lemma last_byte_packbits bits :
  bits ≠ [] →
  last_byte (packbits bits) = Some (pack_byte bits ((length bits + 7) / 8 - 1)).
Proof.
  intros Hne. unfold packbits. rewrite last_byte_string_of_bytes.
  assert (0 < (length bits + 7) / 8) as Hm.
  { destruct bits; [done|]. cbn [length]. apply Nat.div_str_pos. lia. }
  replace ((length bits + 7) / 8) with (S ((length bits + 7) / 8 - 1)) at 1 by lia.
  rewrite seq_S, map_app. cbn [map]. by rewrite last_snoc.
Qed.

Lemma popcount_map {A} (f : A → bool) (l : list A) :
  popcount (map f l) = length (filter (λ t, f t = true) l).
Proof.
  induction l as [|t l IH]; [done|].
  cbn [map]. rewrite popcount_cons, IH, filter_cons.
  destruct (f t); simpl; by rewrite ?decide_True, ?decide_False by done.
Qed.

Lemma length_filter_elem (S : gset string) (l : list string) :
  NoDup l → (∀ t, t ∈ S → t ∈ l) →
  length (filter (λ t, bool_decide (t ∈ S) = true) l) = size S.
Proof.
  intros Hnd Hsub.
  etrans; [symmetry; apply (size_list_to_set (C:=gset string)); by apply NoDup_filter|].
  by rewrite list_to_set_filter_elem.
Qed.

(** The loop of [clade_taxon_names] over the first [k] bits. *)
Definition names_upto (bits : list bool) (taxon_order : list string) (k : nat) : list string :=
  omap (λ i, if bit bits i then taxon_order !! i else None) (seq 0 k).

Lemma names_upto_S bits taxon_order k :
  names_upto bits taxon_order (S k)
  = names_upto bits taxon_order k
    ++ (if bit bits k then option_list (taxon_order !! k) else []).
Proof.
  unfold names_upto. rewrite seq_S, omap_app. simpl.
  by destruct (bit bits k), (taxon_order !! k).
Qed.

Lemma taxon_names_fold_None bits taxon_order l :
  foldl (taxon_names_step bits taxon_order) None l = None.
Proof. induction l as [|i l IH]; [done|]. simpl. apply IH. Qed.

Lemma taxon_names_fold_Some bits taxon_order k :
  (∀ i, i < k → bit bits i = true → i < length taxon_order) →
  foldl (taxon_names_step bits taxon_order) (Some []) (seq 0 k)
  = Some (names_upto bits taxon_order k).
Proof.
  induction k as [|k IH]; intros Hin; [done|].
  rewrite seq_S, foldl_app, IH by (intros; apply Hin; [lia|done]).
  rewrite names_upto_S. simpl. unfold taxon_names_step. simpl.
  destruct (bit bits k) eqn:Eb; [|by rewrite app_nil_r].
  destruct (lookup_lt_is_Some_2 taxon_order k) as [t Ht]; [by apply Hin; [lia|]|].
  by rewrite Ht.
Qed.

Lemma taxon_names_fold_fail bits taxon_order k i :
  i < k → bit bits i = true → length taxon_order ≤ i →
  foldl (taxon_names_step bits taxon_order) (Some []) (seq 0 k) = None.
Proof.
  intros Hik Hb Hge.
  replace k with (i + (1 + (k - S i))) by lia.
  rewrite !seq_app, !foldl_app. simpl.
  destruct (foldl _ (Some []) (seq 0 i)) as [names|]; simpl.
  - rewrite Hb, (proj2 (lookup_ge_None taxon_order i)) by done. simpl.
    apply taxon_names_fold_None.
  - apply taxon_names_fold_None.
Qed.

Lemma length_names_upto bits taxon_order k :
  (∀ i, i < k → bit bits i = true → i < length taxon_order) →
  length (names_upto bits taxon_order k) = rank bits k.
Proof.
  induction k as [|k IH]; intros Hin; [by rewrite rank_0|].
  rewrite names_upto_S, length_app, IH, rank_S by (intros; apply Hin; [lia|done]).
  destruct (bit bits k) eqn:Eb; [|done].
  destruct (lookup_lt_is_Some_2 taxon_order k) as [t Ht]; [by apply Hin; [lia|]|].
  by rewrite Ht.
Qed.

Lemma names_upto_sublist bits taxon_order k :
  names_upto bits taxon_order k `sublist_of` take k taxon_order.
Proof.
  induction k as [|k IH]; [done|].
  rewrite names_upto_S.
  destruct (taxon_order !! k) as [t|] eqn:Ht.
  - rewrite (take_S_r _ _ _ Ht). apply sublist_app; [done|].
    destruct (bit bits k); [done | apply sublist_nil_l].
  - apply lookup_ge_None in Ht. rewrite take_ge in * by lia.
    destruct (bit bits k); by rewrite app_nil_r.
Qed.

Lemma elem_of_names_upto bits taxon_order k i t :
  i < k → taxon_order !! i = Some t → bit bits i = true →
  t ∈ names_upto bits taxon_order k.
Proof.
  intros Hik Ht Hb. unfold names_upto. apply list_elem_of_omap.
  exists i. rewrite Hb. split; [|done]. apply elem_of_seq. lia.
Qed.

End CodecFacts.

(** The id of the root clade: it has a set bit for each of the taxa and no
    other one, so its size is the number of taxa and its names are the whole
    taxon order; it has one byte per eight taxa and, for at least one taxon,
    does not end in a zero byte, so that it is stored and read back as it is.
    The clade id of any two sets of taxa that cover the taxon order is the
    root id. *)
Theorem calculate_root_hash_all_taxa (taxon_order : list string) :
  let root_hash := calculate_root_hash (length taxon_order) in
  clade_size root_hash = length taxon_order ∧
  String.length root_hash = (length taxon_order + 7) / 8 ∧
  clade_taxon_names root_hash taxon_order = Some taxon_order ∧
  (taxon_order ≠ [] → rstrip_nul root_hash = root_hash) ∧
  ∀ children_a children_b : gset string,
    (∀ t, t ∈ taxon_order → t ∈ children_a ∪ children_b) →
    (calculate_node_hashes children_a children_b taxon_order).1 = root_hash.
Proof.
  intros root_hash. subst root_hash.
  split; [apply clade_size_root|].
  rewrite calculate_root_hash_eq.
  split; [by rewrite length_packbits, length_replicate|].
  split; [|split].
  - rewrite (clade_taxon_names_closed _ (λ _, true)).
    + f_equal. induction taxon_order as [|t l IH]; [done|].
      rewrite filter_cons, decide_True by done. by rewrite IH.
    + eapply bits_eq_trans; [apply bits_eq_unpack_pack|].
      intros i. destruct (decide (i < length taxon_order)) as [Hi|Hi].
      * rewrite bit_replicate_true, bit_lookup, list_lookup_fmap by done.
        by destruct (lookup_lt_is_Some_2 taxon_order i Hi) as [t ->].
      * by rewrite !bit_ge by (rewrite ?length_replicate, ?length_map; lia).
  - intros Hne. apply rstrip_nul_fixed.
    rewrite last_byte_packbits by (by destruct taxon_order).
    rewrite length_replicate.
    assert (0 < length taxon_order) as Hpos by (destruct taxon_order; [done | simpl; lia]).
    set (k := (length taxon_order + 7) / 8 - 1).
    assert (8 * k < length taxon_order) as Hk.
    { pose proof (Nat.div_mod_eq (length taxon_order + 7) 8) as Hd.
      pose proof (Nat.mod_upper_bound (length taxon_order + 7) 8). lia. }
    unfold pack_byte. rewrite (bit_replicate_true _ (8 * k)) by done.
    injection. done.
  - intros children_a children_b Hall.
    destruct (calculate_node_hashes_closed children_a children_b taxon_order)
      as (af & _ & ->).
    cbn [fst]. f_equal.
    apply list_eq. intros i. rewrite list_lookup_fmap.
    destruct (taxon_order !! i) as [t|] eqn:E; simpl.
    + rewrite lookup_replicate_2 by (by eapply lookup_lt_Some).
      unfold member. rewrite bool_decide_eq_true_2; [done|].
      apply Hall. by eapply list_elem_of_lookup_2.
    + apply lookup_ge_None in E. symmetry. by apply lookup_replicate_None.
Qed.

(** [clade_size] of the clade id that [calculate_node_hashes] gives two
    disjoint sets of taxa of a duplicate-free taxon order is the number of
    taxa of the two sets, also when the id is read without its trailing zero
    bytes; the number of set bits of the split id is the number of taxa of
    the child that holds the first taxon of the clade. *)
Theorem clade_size_counts_taxa (children_a children_b : gset string)
    (taxon_order : list string) :
  NoDup taxon_order → children_a ## children_b →
  (∀ t, t ∈ children_a ∪ children_b → t ∈ taxon_order) →
  let ids := calculate_node_hashes children_a children_b taxon_order in
  let af := first_in_a children_a children_b taxon_order in
  clade_size ids.1 = size children_a + size children_b ∧
  clade_size (rstrip_nul ids.1) = size children_a + size children_b ∧
  clade_size ids.2 = size (first_child children_a children_b af) ∧
  clade_size (rstrip_nul ids.2) = size (first_child children_a children_b af).
Proof.
  intros Hnd Hdisj Hsub ids af.
  assert (clade_size ids.1 = size children_a + size children_b) as H1.
  { unfold ids. rewrite clade_size_encoded, <- size_union by done.
    unfold members.
    rewrite <- (length_filter_elem (children_a ∪ children_b) taxon_order Hnd Hsub).
    f_equal. apply list_filter_iff. intros t. by rewrite bool_decide_eq_true. }
  assert (clade_size ids.2 = size (first_child children_a children_b af)) as H2.
  { unfold ids.
    destruct (calculate_node_hashes_closed children_a children_b taxon_order)
      as (af0 & Haf0 & ->).
    cbn [snd]. unfold clade_size.
    rewrite (popcount_bits_eq _ _ (bits_eq_unpack_pack _)).
    rewrite popcount_app, popcount_replicate_false, Nat.add_0_r, popcount_map.
    destruct (decide (members children_a children_b taxon_order = [])) as [E|Hne].
    - rewrite E. simpl. symmetry. apply size_empty_iff.
      apply elem_of_equiv_empty. intros x Hx.
      assert (x ∈ members children_a children_b taxon_order) as Hm.
      { apply first_child_sub in Hx. apply elem_of_members. split; [done | by apply Hsub]. }
      rewrite E in Hm. by apply elem_of_nil in Hm.
    - rewrite (Haf0 Hne). fold af.
      rewrite <- (length_filter_elem (first_child children_a children_b af) taxon_order Hnd)
        by (intros t Ht; apply Hsub; by eapply first_child_sub).
      unfold members. rewrite list_filter_filter. f_equal.
      apply list_filter_iff. intros t.
      rewrite <- (member_first children_a children_b Hdisj af t).
      unfold member. rewrite andb_true_iff, bool_decide_eq_true. tauto. }
  by rewrite !clade_size_rstrip.
Qed.

(** The sizes of the ids of {J} | {A, C} among the taxa A to J. *)
Lemma clade_size_counts_taxa_witness :
  let order := ["A"; "B"; "C"; "D"; "E"; "F"; "G"; "H"; "I"; "J"]%string in
  let ids := calculate_node_hashes {["J"%string]} {["A"%string; "C"%string]} order in
  clade_size ids.1 = 3 ∧ clade_size ids.2 = 2.
Proof.
  intros order ids.
  destruct (clade_size_counts_taxa {["J"%string]} {["A"%string; "C"%string]} order)
    as (H1 & _ & H2 & _).
  - apply (bool_decide_unpack _). vm_compute. exact I.
  - set_solver.
  - set_solver.
  - unfold ids. split; [rewrite H1 | rewrite H2]; vm_compute; reflexivity.
Defined.

(** [clade_taxon_names] fails, with [IndexError], exactly when the clade id
    has a set bit at a position beyond the taxon order. When it returns, the
    names are those of the taxon order at the set bits, in the order of the
    taxon order, and there are [clade_size] of them. *)
Theorem clade_taxon_names_in_order (clade_hash : string) (taxon_order : list string) :
  let bits := unpackbits clade_hash in
  (clade_taxon_names clade_hash taxon_order = None
   ↔ ∃ i, bit bits i = true ∧ length taxon_order ≤ i) ∧
  ∀ names, clade_taxon_names clade_hash taxon_order = Some names →
    length names = clade_size clade_hash ∧
    names `sublist_of` taxon_order ∧
    (∀ i t, taxon_order !! i = Some t → bit bits i = true → t ∈ names) ∧
    (∀ t, t ∈ names → ∃ i, taxon_order !! i = Some t ∧ bit bits i = true).
Proof.
  intros bits. unfold clade_taxon_names. fold bits.
  destruct (decide (Forall (λ i, bit bits i = true → i < length taxon_order)
                           (seq 0 (length bits)))) as [Hall|Hout].
  - assert (∀ i, i < length bits → bit bits i = true → i < length taxon_order) as Hin.
    { intros i Hi. rewrite Forall_forall in Hall. apply Hall, elem_of_seq. lia. }
    rewrite taxon_names_fold_Some by done. split.
    + split; [done|]. intros (i & Hb & Hge).
      pose proof (bit_true_lt _ _ Hb). specialize (Hin i ltac:(done) Hb). lia.
    + intros names [= <-].
      split; [rewrite length_names_upto by done; by apply rank_ge|].
      split; [etrans; [apply names_upto_sublist | apply sublist_take]|].
      split.
      * intros i t Ht Hb. eapply elem_of_names_upto; [by apply bit_true_lt|done|done].
      * intros t Ht. unfold names_upto in Ht.
        apply list_elem_of_omap in Ht as (i & _ & Hi).
        exists i. by destruct (bit bits i).
  - apply not_Forall_Exists in Hout; [|apply _].
    apply Exists_exists in Hout as (i & Hi%elem_of_seq & Hn).
    assert (bit bits i = true ∧ length taxon_order ≤ i) as [Hb Hge].
    { simpl in Hn. destruct (bit bits i) eqn:Eb; [|by exfalso; apply Hn].
      split; [done|]. destruct (decide (length taxon_order ≤ i)); [done|].
      exfalso. apply Hn. lia. }
    rewrite (taxon_names_fold_fail _ _ _ i) by (done || lia).
    split; [|done]. split; [eauto|done].
Qed.

(** ** Ids determine the split, and topology arrays the topology *)

Section EncoderInjective.

Lemma bits_eq_map_elem (f g : string → bool) (l : list string) :
  bits_eq (map f l) (map g l) → ∀ t, t ∈ l → f t = g t.
Proof.
  intros H t [i Hi]%list_elem_of_lookup. specialize (H i).
  by rewrite !bit_lookup, !list_lookup_fmap, Hi in H.
Qed.

Lemma set_eq_on_order (S1 S2 : gset string) (l : list string) :
  (∀ t, t ∈ S1 → t ∈ l) → (∀ t, t ∈ S2 → t ∈ l) →
  (∀ t, t ∈ l → bool_decide (t ∈ S1) = bool_decide (t ∈ S2)) → S1 = S2.
Proof.
  intros H1 H2 H. apply set_eq. intros t. split; intros Ht.
  - specialize (H t (H1 t Ht)). rewrite bool_decide_eq_true_2 in H by done.
    symmetry in H. by apply bool_decide_eq_true in H.
  - specialize (H t (H2 t Ht)). rewrite (bool_decide_eq_true_2 (t ∈ S2)) in H by done.
    by apply bool_decide_eq_true in H.
Qed.

(** The two children that the decoder reads in the ids of two sets. *)
Lemma decode_encoded (a b : gset string) (taxon_order : list string) :
  a ## b →
  ∃ af, (members a b taxon_order ≠ [] → af = first_in_a a b taxon_order) ∧
    let ids := calculate_node_hashes a b taxon_order in
    bits_eq (unpackbits (elucidate_cc_split ids.1 ids.2).1)
            (map (λ t, bool_decide (t ∈ first_child a b af)) taxon_order) ∧
    bits_eq (unpackbits (elucidate_cc_split ids.1 ids.2).2)
            (map (λ t, bool_decide (t ∈ second_child a b af)) taxon_order).
Proof.
  intros Hdisj.
  destruct (calculate_node_hashes_closed a b taxon_order) as (af & Haf & Hids).
  exists af. split; [done|]. intros ids. subst ids. rewrite Hids. cbn [fst snd].
  apply (decode_encode_bits a b Hdisj); [done|apply bits_eq_unpack_pack|].
  intros r Hr. by rewrite bits_eq_unpack_pack, bit_app_false.
Qed.

End EncoderInjective.

(** Two splits with the same ids are the same split: when
    [calculate_node_hashes] returns the same pair of ids for two pairs of
    disjoint sets of taxa of the taxon order, the two pairs hold the same two
    sets, in the same or in the opposite order. *)
Theorem calculate_node_hashes_injective (children_a children_b children_c children_d : gset string)
    (taxon_order : list string) :
  children_a ## children_b → children_c ## children_d →
  (∀ t, t ∈ children_a ∪ children_b → t ∈ taxon_order) →
  (∀ t, t ∈ children_c ∪ children_d → t ∈ taxon_order) →
  calculate_node_hashes children_a children_b taxon_order
  = calculate_node_hashes children_c children_d taxon_order →
  (children_a = children_c ∧ children_b = children_d)
  ∨ (children_a = children_d ∧ children_b = children_c).
Proof.
  intros Hab Hcd Hsub1 Hsub2 Heq.
  destruct (decode_encoded children_a children_b taxon_order Hab) as (af & _ & H1 & H2).
  destruct (decode_encoded children_c children_d taxon_order Hcd) as (af' & _ & H1' & H2').
  rewrite Heq in H1, H2.
  assert (first_child children_a children_b af = first_child children_c children_d af') as Hf.
  { apply (set_eq_on_order _ _ taxon_order).
    - intros t Ht. apply Hsub1. by eapply first_child_sub.
    - intros t Ht. apply Hsub2. by eapply first_child_sub.
    - apply (bits_eq_map_elem (λ t, bool_decide (t ∈ first_child children_a children_b af))
                              (λ t, bool_decide (t ∈ first_child children_c children_d af'))).
      eapply bits_eq_trans; [apply bits_eq_sym, H1 | apply H1']. }
  assert (second_child children_a children_b af = second_child children_c children_d af') as Hs.
  { apply (set_eq_on_order _ _ taxon_order).
    - intros t Ht. apply Hsub1. by eapply second_child_sub.
    - intros t Ht. apply Hsub2. by eapply second_child_sub.
    - apply (bits_eq_map_elem (λ t, bool_decide (t ∈ second_child children_a children_b af))
                              (λ t, bool_decide (t ∈ second_child children_c children_d af'))).
      eapply bits_eq_trans; [apply bits_eq_sym, H2 | apply H2']. }
  unfold first_child, second_child in *. destruct af, af'; auto.
Qed.

(** The ids of {A, C} | {J} are those of {J} | {A, C}, the same split. *)
Lemma calculate_node_hashes_injective_witness :
  ({["A"%string; "C"%string]} = ({["J"%string]} : gset string)
   ∧ {["J"%string]} = ({["A"%string; "C"%string]} : gset string))
  ∨ ({["A"%string; "C"%string]} = ({["A"%string; "C"%string]} : gset string)
     ∧ {["J"%string]} = ({["J"%string]} : gset string)).
Proof.
  apply (calculate_node_hashes_injective
           {["A"%string; "C"%string]} {["J"%string]} {["J"%string]}
           {["A"%string; "C"%string]}
           ["A"; "B"; "C"; "D"; "E"; "F"; "G"; "H"; "I"; "J"]%string);
    [set_solver | set_solver | set_solver | set_solver | vm_compute; reflexivity].
Defined.

(** Trees that differ only in the order of the two children of some nodes. *)
Inductive tree_swap : tree → tree → Prop :=
  | swap_leaf name : tree_swap (Leaf name) (Leaf name)
  | swap_node a b c d : tree_swap a c → tree_swap b d → tree_swap (Node a b) (Node c d)
  | swap_children a b c d : tree_swap a c → tree_swap b d → tree_swap (Node a b) (Node d c).

Section TopologyArrays.

Variable taxon_order : list string.

Lemma tree_swap_leaves t1 t2 : tree_swap t1 t2 → get_leaf_names t1 ≡ₚ get_leaf_names t2.
Proof.
  induction 1 as [name | a b c d _ IHa _ IHb | a b c d _ IHa _ IHb]; simpl; [done| |].
  - by rewrite IHa, IHb.
  - rewrite IHa, IHb. apply Permutation_app_comm.
Qed.

Lemma tree_swap_clade t1 t2 :
  tree_swap t1 t2 →
  (list_to_set (get_leaf_names t1) : gset string) = list_to_set (get_leaf_names t2).
Proof.
  intros H%tree_swap_leaves. apply set_eq. intros x.
  by rewrite !elem_of_list_to_set, H.
Qed.

Lemma recurse_node_properties_app t : ∀ values,
  recurse_node_properties taxon_order t values
  = values ++ recurse_node_properties taxon_order t [].
Proof.
  induction t as [name | a IHa b IHb]; intros values; simpl.
  - by rewrite app_nil_r.
  - rewrite (IHb (recurse_node_properties taxon_order a values)), IHa.
    rewrite (IHb (recurse_node_properties taxon_order a [])).
    by rewrite <- !app_assoc.
Qed.

Lemma recurse_node_properties_Node a b :
  recurse_node_properties taxon_order (Node a b) []
  = recurse_node_properties taxon_order a []
    ++ recurse_node_properties taxon_order b []
    ++ [calculate_node_hashes (list_to_set (get_leaf_names a))
                              (list_to_set (get_leaf_names b)) taxon_order].
Proof.
  simpl. rewrite (recurse_node_properties_app b). by rewrite <- app_assoc.
Qed.

Lemma length_recurse_node_properties t :
  length (recurse_node_properties taxon_order t []) = length (get_leaf_names t) - 1.
Proof.
  assert (∀ t, 0 < length (get_leaf_names t)) as Hpos.
  { intros t'. induction t'; simpl; [lia|]. rewrite length_app. lia. }
  induction t as [name | a IHa b IHb]; [done|].
  rewrite recurse_node_properties_Node. cbn [get_leaf_names].
  rewrite !length_app, IHa, IHb. simpl.
  pose proof (Hpos a). pose proof (Hpos b). lia.
Qed.

Lemma NoDup_leaves_disjoint a b :
  NoDup (get_leaf_names a ++ get_leaf_names b) →
  (list_to_set (get_leaf_names a) : gset string) ## list_to_set (get_leaf_names b).
Proof.
  intros (_ & Hd & _)%NoDup_app. intros x.
  rewrite !elem_of_list_to_set. apply Hd.
Qed.

Lemma recurse_node_properties_swap t1 t2 :
  tree_swap t1 t2 → NoDup (get_leaf_names t1) →
  recurse_node_properties taxon_order t1 [] ≡ₚ recurse_node_properties taxon_order t2 [].
Proof.
  induction 1 as [name | a b c d Ha IHa Hb IHb | a b c d Ha IHa Hb IHb]; intros Hnd; [done| |].
  - rewrite !recurse_node_properties_Node.
    cbn [get_leaf_names] in Hnd. pose proof Hnd as (Hna & _ & Hnb)%NoDup_app.
    rewrite (IHa Hna), (IHb Hnb).
    by rewrite (tree_swap_clade _ _ Ha), (tree_swap_clade _ _ Hb).
  - rewrite !recurse_node_properties_Node.
    cbn [get_leaf_names] in Hnd. pose proof Hnd as (Hna & _ & Hnb)%NoDup_app.
    rewrite (IHa Hna), (IHb Hnb).
    rewrite <- (tree_swap_clade _ _ Ha), <- (tree_swap_clade _ _ Hb).
    rewrite (calculate_node_hashes_comm _ _ (NoDup_leaves_disjoint a b Hnd)).
    rewrite !app_assoc. f_equiv. apply Permutation_app_comm.
Qed.

End TopologyArrays.

(** The array of a topology has one record for each internal node, that is
    one fewer than the tree has leaves, in ascending order of clade id and
    then split id. It does not depend on the order in which the two children
    of a node are written: two trees with distinct leaf names that differ
    only in the order of children have the same array. *)
Theorem generate_topology_array_canonical (taxon_order : list string) (topology_root : tree) :
  let topology_array := generate_topology_array taxon_order topology_root in
  length topology_array = length (get_leaf_names topology_root) - 1 ∧
  StronglySorted record_le topology_array ∧
  topology_array ≡ₚ recurse_node_properties taxon_order topology_root [] ∧
  ∀ other_root,
    NoDup (get_leaf_names topology_root) → tree_swap topology_root other_root →
    generate_topology_array taxon_order other_root = topology_array.
Proof.
  intros topology_array. subst topology_array. unfold generate_topology_array.
  split; [by rewrite merge_sort_Permutation, length_recurse_node_properties|].
  split; [apply (StronglySorted_merge_sort _)|].
  split; [apply merge_sort_Permutation|].
  intros other_root Hnd Hswap. apply merge_sort_record_perm.
  symmetry. by apply recurse_node_properties_swap.
Qed.

(** ** Building a table *)

Section NewTable.

Context {F : Type} `{Float64 F} {D : Type}.
Implicit Types (data : gmap string D).

(** The keys of a mapping, in list order. *)
Definition keys_of data : list string := map fst (map_to_list data).

Lemma elem_of_keys_of data k : k ∈ keys_of data ↔ is_Some (data !! k).
Proof.
  unfold keys_of. rewrite list_elem_of_fmap. split.
  - intros ([k' d] & -> & Hin%elem_of_map_to_list). eauto.
  - intros [d Hd]. exists (k, d). split; [done|]. by apply elem_of_map_to_list.
Qed.

Lemma elem_of_sorted_keys data k : k ∈ sorted (keys_of data) ↔ is_Some (data !! k).
Proof. unfold sorted. by rewrite merge_sort_Permutation, elem_of_keys_of. Qed.

Lemma NoDup_sorted_keys data : NoDup (sorted (keys_of data)).
Proof.
  unfold sorted, keys_of. rewrite merge_sort_Permutation. apply NoDup_fst_map_to_list.
Qed.

Lemma length_sorted_keys data : length (sorted (keys_of data)) = size data.
Proof.
  unfold sorted, keys_of.
  by rewrite merge_sort_Permutation, length_map, length_map_to_list.
Qed.

(** The loop of [__init__] that gives every key the probability 0. *)
Lemma zero_fill_lookup (keys : list string) : ∀ (m : gmap string F) k,
  foldl (λ m feature_hash, <[feature_hash := f_zero]> m) m keys !! k
  = if decide (k ∈ keys) then Some f_zero else m !! k.
Proof.
  induction keys as [|h keys IH]; intros m k; cbn [foldl].
  - by rewrite decide_False by (by intros ?%elem_of_nil).
  - rewrite IH. destruct (decide (k ∈ keys)) as [Hin|Hout].
    + by rewrite decide_True by (by right).
    + destruct (decide (k = h)) as [->|Hne].
      * rewrite lookup_insert_eq. by rewrite decide_True by left.
      * rewrite lookup_insert_ne by done.
        by rewrite decide_False by (by intros [?|?]%elem_of_cons).
Qed.

Lemma zero_fill_fmap data :
  foldl (λ m feature_hash, <[feature_hash := f_zero]> m) ∅ (sorted (keys_of data))
  = (λ _, f_zero) <$> data.
Proof.
  apply map_eq. intros k. rewrite zero_fill_lookup, lookup_fmap, lookup_empty.
  case_decide as Hk.
  - apply elem_of_sorted_keys in Hk as [d ->]. done.
  - destruct (data !! k) as [d|] eqn:E; [|done].
    exfalso. apply Hk, elem_of_sorted_keys. eauto.
Qed.

Lemma mapM_lookup_Some {A B} (f : A → option B) (l : list A) (r : list B) i x :
  mapM f l = Some r → l !! i = Some x → ∃ y, f x = Some y ∧ r !! i = Some y.
Proof.
  intros Hm%mapM_Some Hi.
  destruct (Forall2_lookup_l _ _ _ _ _ Hm Hi) as (y & Hy & Hf). eauto.
Qed.

Lemma mapM_const_Some {A B} (f : A → option B) (l : list A) (y : B) :
  (∀ x, x ∈ l → f x = Some y) → mapM f l = Some (replicate (length l) y).
Proof.
  induction l as [|x l IH]; intros Hf; [done|].
  simpl. rewrite (Hf x) by left. simpl. rewrite IH by (intros; apply Hf; by right). done.
Qed.

(** What [__init__] returns when the table can be built. *)
Lemma new_table_closed data (sorted_data : list D) :
  mapM (λ feature_hash, data !! feature_hash) (map rstrip_nul (sorted (keys_of data)))
  = Some sorted_data →
  new_table (F:=F) data
  = Some (Table (size data) (map rstrip_nul (sorted (keys_of data))) sorted_data
                ((λ _, f_zero) <$> data) (replicate (size data) f_zero)).
Proof.
  intros Hm. unfold new_table. fold (keys_of data). rewrite Hm. cbn [mbind option_bind].
  rewrite zero_fill_fmap, length_sorted_keys.
  unfold convert_probabilities. cbn [hashes_array probabilities n_features data_array].
  rewrite (mapM_const_Some _ _ f_zero).
  - by rewrite length_map, length_sorted_keys.
  - intros h Hh. apply list_elem_of_lookup in Hh as [i Hi].
    destruct (mapM_lookup_Some _ _ _ _ _ Hm Hi) as (d & Hd & _).
    by rewrite lookup_fmap, Hd.
Qed.

End NewTable.

(** [DiscreteProbabilities.__init__] on a mapping none of whose keys ends in
    a zero byte builds a table whose hashes are the keys in ascending order,
    each once, with the payload of each hash at its position, and the
    probability 0 for every key, in the mapping and in the array. *)
Theorem new_table_sorted_zero {F : Type} `{Float64 F} {D : Type} (data : gmap string D) :
  (∀ k, is_Some (data !! k) → rstrip_nul k = k) →
  ∃ t, new_table (F:=F) data = Some t ∧
    StronglySorted str_le (hashes_array t) ∧
    NoDup (hashes_array t) ∧
    (∀ k, k ∈ hashes_array t ↔ is_Some (data !! k)) ∧
    n_features t = size data ∧
    length (hashes_array t) = size data ∧
    length (data_array t) = size data ∧
    (∀ i k, hashes_array t !! i = Some k → data_array t !! i = data !! k) ∧
    probabilities t = (λ _, f_zero) <$> data ∧
    probabilities_array t = replicate (size data) f_zero ∧
    table_wf t.
Proof.
  intros Hkeys.
  assert (map rstrip_nul (sorted (keys_of data)) = sorted (keys_of data)) as Hs.
  { rewrite <- (map_id (sorted (keys_of data))) at 2.
    apply map_ext_in. intros k Hk%list_elem_of_In. apply Hkeys.
    by apply elem_of_sorted_keys. }
  destruct (mapM (λ feature_hash, data !! feature_hash) (sorted (keys_of data)))
    as [sorted_data|] eqn:Hm.
  2:{ apply mapM_None in Hm. apply Exists_exists in Hm as (k & Hk & Hn).
      apply elem_of_sorted_keys in Hk as [d Hd]. congruence. }
  eexists. split; [apply new_table_closed; by rewrite Hs|].
  rewrite Hs. cbn [hashes_array data_array n_features probabilities probabilities_array].
  assert (length sorted_data = size data) as Hl.
  { apply mapM_Some in Hm. rewrite <- (Forall2_length _ _ _ Hm). apply length_sorted_keys. }
  split; [apply sorted_spec|].
  split; [apply NoDup_sorted_keys|].
  split; [apply elem_of_sorted_keys|].
  split; [done|].
  split; [apply length_sorted_keys|].
  split; [done|].
  split.
  { intros i k Hi. destruct (mapM_lookup_Some _ _ _ _ _ Hm Hi) as (d & Hd & Hr). congruence. }
  split; [done|]. split; [done|].
  split; [apply NoDup_sorted_keys|].
  cbn [hashes_array data_array n_features probabilities probabilities_array].
  split; [by rewrite Hl, length_sorted_keys|].
  rewrite (mapM_const_Some _ _ f_zero).
  - by rewrite length_sorted_keys.
  - intros h [d Hd]%elem_of_sorted_keys. by rewrite lookup_fmap, Hd.
Qed.

(** The table of the payloads 3, 1 and 2 under the keys c, a and b. *)
Lemma new_table_sorted_zero_witness :
  ∃ t : table Q nat,
    new_table (<["c" := 3]> (<["a" := 1]> (<["b" := 2]> ∅))) = Some t ∧
    hashes_array t = ["a"; "b"; "c"] ∧ data_array t = [1; 2; 3] ∧
    probabilities_array t = [0%Q; 0%Q; 0%Q].
Proof.
  destruct (new_table_sorted_zero (F:=Q) (<["c" := 3]> (<["a" := 1]> (<["b" := 2]> ∅))))
    as (t & Ht & _).
  - intros k [d Hd].
    assert (k ∈ ["a"; "b"; "c"]) as Hk.
    { apply elem_of_map_to_list in Hd.
      assert (k ∈ map fst (map_to_list (<["c" := 3]> (<["a" := 1]> (<["b" := 2]> (∅ : gmap string nat))))))
        as Hin by (apply list_elem_of_fmap; by exists (k, d)).
      vm_compute in Hin. set_solver. }
    repeat (apply elem_of_cons in Hk as [-> | Hk]; [reflexivity|]).
    by apply elem_of_nil in Hk.
  - exists t. split; [exact Ht|].
    vm_compute in Ht. injection Ht as <-. done.
Defined.

(** [DiscreteProbabilities.__init__] reads the payloads under the hashes as
    they come back from the array of hashes, without their trailing zero
    bytes: it fails, with [KeyError], exactly when the mapping has a key
    whose form without trailing zero bytes is not a key. *)
Theorem new_table_key_error {F : Type} `{Float64 F} {D : Type} (data : gmap string D) :
  new_table (F:=F) data = None
  ↔ ∃ k, is_Some (data !! k) ∧ data !! rstrip_nul k = None.
Proof.
  destruct (mapM (λ feature_hash, data !! feature_hash)
                 (map rstrip_nul (sorted (keys_of data)))) as [sorted_data|] eqn:Hm.
  - rewrite (new_table_closed data sorted_data Hm). split; [done|].
    intros (k & Hk & Hn). exfalso.
    assert (rstrip_nul k ∈ map rstrip_nul (sorted (keys_of data))) as Hin.
    { apply list_elem_of_fmap. exists k. split; [done|]. by apply elem_of_sorted_keys. }
    apply list_elem_of_lookup in Hin as [i Hi].
    destruct (mapM_lookup_Some _ _ _ _ _ Hm Hi) as (d & Hd & _). congruence.
  - split.
    + intros _. apply mapM_None in Hm. apply Exists_exists in Hm as (h & Hh & Hn).
      apply list_elem_of_fmap in Hh as (k & -> & Hk%elem_of_sorted_keys). eauto.
    + intros _. unfold new_table. fold (keys_of data). by rewrite Hm.
Qed.

(** ** Probabilities from counts *)

Section FromCountsFacts.

Context {F : Type} `{Float64 F} {D : Type}.
Variable math_log : Z → option F.
Variable math_exp : F → option F.
Variable logaddexp_reduce : list F → F.

(** The logarithms of the counts, in the order of the mapping. *)
Definition all_logs (counts : gmap string Z) : list F :=
  omap (λ item : string * Z, math_log item.2) (map_to_list counts).

Lemma mapM_cons_eq {A B} (f : A → option B) (x : A) (l : list A) :
  mapM f (x :: l) = f x ≫= λ y, mapM f l ≫= λ k, Some (y :: k).
Proof. reflexivity. Qed.

Lemma log_counts_lookup (l : list (string * Z)) : ∀ logs,
  NoDup l.*1 → mapM (log_count_item math_log) l = Some logs →
  (∀ h, (list_to_map logs : gmap string F) !! h
        = (list_to_map l : gmap string Z) !! h ≫= math_log) ∧
  map snd logs = omap (λ item : string * Z, math_log item.2) l.
Proof.
  induction l as [|[k c] l IH]; intros logs Hnd Hm.
  - injection Hm as <-. split; [|done]. intros h. simpl. by rewrite !lookup_empty.
  - rewrite mapM_cons_eq in Hm.
    change (log_count_item math_log (k, c))
      with (math_log c ≫= λ log_count, Some (k, log_count)) in Hm.
    destruct (math_log c) as [lc|] eqn:Ec; cbn [mbind option_bind] in Hm; [|done].
    destruct (mapM (log_count_item math_log) l) as [logs'|] eqn:El;
      cbn [mbind option_bind] in Hm; [|done].
    injection Hm as <-. rewrite fmap_cons in Hnd. apply NoDup_cons in Hnd as [Hk Hnd].
    destruct (IH logs' Hnd eq_refl) as [IH1 IH2]. split.
    + intros h. simpl. destruct (decide (h = k)) as [->|Hne].
      * rewrite !lookup_insert_eq. simpl. by rewrite Ec.
      * rewrite !lookup_insert_ne by done. apply IH1.
    + simpl. by rewrite Ec, IH2.
Qed.

Lemma from_counts_fold_None log_counts log_sum hashes :
  foldl (from_counts_step math_exp log_counts log_sum) None hashes = None.
Proof. induction hashes as [|h hashes IH]; [done|]. simpl. apply IH. Qed.

(** The loop of [probabilities_from_counts] over the hashes of the table. *)
Lemma from_counts_fold (log_counts : gmap string F) (s : F) hashes : ∀ m,
  (∀ h lc, h ∈ hashes → log_counts !! h = Some lc → is_Some (math_exp (f_sub lc s))) →
  ∃ m', foldl (from_counts_step math_exp log_counts (Some s)) (Some m) hashes = Some m' ∧
    (∀ h, h ∈ hashes →
       m' !! h = match log_counts !! h with
                 | Some lc => math_exp (f_sub lc s)
                 | None => Some f_zero
                 end) ∧
    (∀ k, k ∉ hashes → m' !! k = m !! k).
Proof.
  induction hashes as [|h hashes IH]; intros m Hexp.
  - exists m. split; [done|]. split; [by intros ? ?%elem_of_nil | done].
  - assert (∃ p, from_counts_step math_exp log_counts (Some s) (Some m) h = Some (<[h := p]> m)
                 ∧ Some p = match log_counts !! h with
                            | Some lc => math_exp (f_sub lc s)
                            | None => Some f_zero
                            end) as (p & Hstep & Hp).
    { unfold from_counts_step. simpl.
      destruct (log_counts !! h) as [lc|] eqn:E; simpl; [|eauto].
      destruct (Hexp h lc) as [p Hp]; [left | done |]. rewrite Hp. simpl. eauto. }
    cbn [foldl]. rewrite Hstep.
    destruct (IH (<[h := p]> m)) as (m' & Hf & Hin & Hout).
    { intros h' lc Hh'. apply Hexp. by right. }
    exists m'. split; [done|]. split.
    + intros k Hk. destruct (decide (k ∈ hashes)) as [Hk'|Hk']; [by apply Hin|].
      apply elem_of_cons in Hk as [-> | Hk]; [|done].
      by rewrite Hout, lookup_insert_eq.
    + intros k Hk. apply not_elem_of_cons in Hk as [Hne Hk].
      by rewrite Hout, lookup_insert_ne.
Qed.

End FromCountsFacts.

(** [probabilities_from_counts] on counts that all have a logarithm (they are
    positive), at least one of them: every hash of the table with a count
    gets the exponential of the difference between the logarithm of its count
    and the [logaddexp] reduction of the logarithms of all the counts, those
    of keys outside the table included; every hash without a count gets 0.
    The hashes, the payloads and the entries under other keys stay, and the
    array of probabilities is that of the hashes. *)
Theorem probabilities_from_counts_normalises {F : Type} `{Float64 F} {D : Type}
    (math_log : Z → option F) (math_exp : F → option F) (logaddexp_reduce : list F → F)
    (self : table F D) (counts : gmap string Z) :
  counts ≠ ∅ →
  (∀ k c, counts !! k = Some c → is_Some (math_log c)) →
  let log_sum_of_counts := logaddexp_reduce (all_logs math_log counts) in
  (∀ h c log_count, h ∈ hashes_array self → counts !! h = Some c →
     math_log c = Some log_count →
     is_Some (math_exp (f_sub log_count log_sum_of_counts))) →
  ∃ t', probabilities_from_counts math_log math_exp logaddexp_reduce self counts = Some t' ∧
    n_features t' = n_features self ∧
    hashes_array t' = hashes_array self ∧
    data_array t' = data_array self ∧
    (∀ h, h ∈ hashes_array self →
       probabilities t' !! h
       = match counts !! h with
         | Some c => math_log c ≫= λ log_count, math_exp (f_sub log_count log_sum_of_counts)
         | None => Some f_zero
         end) ∧
    (∀ k, k ∉ hashes_array self → probabilities t' !! k = probabilities self !! k) ∧
    mapM (λ h, probabilities t' !! h) (hashes_array t') = Some (probabilities_array t').
Proof.
  intros Hne Hlog log_sum Hexp.
  destruct (mapM (log_count_item math_log) (map_to_list counts)) as [logs|] eqn:Hm.
  2:{ apply mapM_None in Hm. apply Exists_exists in Hm as ([k c] & Hin & Hn).
      apply elem_of_map_to_list in Hin. destruct (Hlog k c Hin) as [lc Hlc].
      unfold log_count_item in Hn. simpl in Hn. by rewrite Hlc in Hn. }
  destruct (log_counts_lookup math_log (map_to_list counts) logs
              (NoDup_fst_map_to_list counts) Hm) as [Hlook Hall].
  assert (0 < length (map snd logs)) as Hpos.
  { rewrite length_map. apply mapM_Some in Hm. rewrite <- (Forall2_length _ _ _ Hm).
    rewrite length_map_to_list. destruct (decide (size counts = 0)) as [E|]; [|lia].
    by apply map_size_empty_iff in E. }
  assert (∀ h, (list_to_map logs : gmap string F) !! h = counts !! h ≫= math_log) as Hlook'.
  { intros h. by rewrite Hlook, list_to_map_to_list. }
  destruct (from_counts_fold math_exp (list_to_map logs) log_sum (hashes_array self)
              (probabilities self)) as (m' & Hf & Hin & Hout).
  { intros h lc Hh Hlc. rewrite Hlook' in Hlc.
    destruct (counts !! h) as [c|] eqn:Ec; [|done]. simpl in Hlc.
    by apply (Hexp h c lc). }
  destruct (convert_probabilities_Some (set_probabilities self m')) as (parr & Hparr & Hc).
  { intros h Hh. cbn [set_probabilities probabilities hashes_array] in *.
    rewrite (Hin h Hh), Hlook'.
    destruct (counts !! h) as [c|] eqn:Ec; simpl; [|eauto].
    destruct (math_log c) as [lc|] eqn:Elc; simpl.
    - by apply (Hexp h c lc).
    - destruct (Hlog h c Ec) as [? ?]. congruence. }
  eexists. split.
  { unfold probabilities_from_counts. rewrite Hm. cbn [mbind option_bind].
    destruct (Nat.ltb_spec 0 (length (map snd logs))) as [_|]; [|lia].
    rewrite Hall. fold (all_logs math_log counts). fold log_sum.
    rewrite Hf. cbn [mbind option_bind]. exact Hc. }
  cbn [set_probabilities n_features hashes_array data_array probabilities
       probabilities_array] in *.
  split; [done|]. split; [done|]. split; [done|].
  split; [|split; [exact Hout | exact Hparr]].
  intros h Hh. rewrite (Hin h Hh), Hlook'.
  destruct (counts !! h) as [c|] eqn:Ec; simpl; [|done].
  by destruct (Hlog h c Ec) as [lc ->].
Qed.

(** [probabilities_from_counts] takes the logarithm of every count before it
    looks at the table: a count without a logarithm (one that is not
    positive, for which [math.log] raises [ValueError]) makes the call fail,
    also under a key that is not a hash of the table. *)
Theorem probabilities_from_counts_log_error {F : Type} `{Float64 F} {D : Type}
    (math_log : Z → option F) (math_exp : F → option F) (logaddexp_reduce : list F → F)
    (self : table F D) (counts : gmap string Z) (k : string) (c : Z) :
  counts !! k = Some c → math_log c = None →
  probabilities_from_counts math_log math_exp logaddexp_reduce self counts = None.
Proof.
  intros Hk Hc. unfold probabilities_from_counts.
  assert (mapM (log_count_item math_log) (map_to_list counts) = None) as ->; [|done].
  apply mapM_None, Exists_exists. exists (k, c).
  split; [by apply elem_of_map_to_list|].
  unfold log_count_item. simpl. by rewrite Hc.
Qed.

(** ** Culling keeps a table a table *)

Section DeleteFacts.

Context {A B : Type}.

Lemma delete_from_sublist (indices : list nat) (arr : list A) : ∀ i,
  delete_from indices i arr `sublist_of` arr.
Proof.
  induction arr as [|x arr IH]; intros i; simpl; [done|].
  case_bool_decide; [apply sublist_cons | apply sublist_skip]; apply IH.
Qed.

Lemma delete_from_Forall2 (P Q : A → B → Prop) (indices : list nat)
    (l1 : list A) (l2 : list B) : ∀ i,
  Forall2 P l1 l2 →
  (∀ j x y, l1 !! j = Some x → l2 !! j = Some y → i + j ∉ indices → P x y → Q x y) →
  Forall2 Q (delete_from indices i l1) (delete_from indices i l2).
Proof.
  intros i H. revert i. induction H as [|x y l1 l2 Hxy Hl IH]; intros i HPQ; simpl.
  - constructor.
  - assert (Forall2 Q (delete_from indices (S i) l1) (delete_from indices (S i) l2)) as Hrest.
    { apply IH. intros j x' y' H1 H2 Hn. apply (HPQ (S j)); [done|done|].
      by replace (i + S j) with (S i + j) by lia. }
    case_bool_decide as Hi; [done|]. constructor; [|done].
    apply (HPQ 0); [done|done| |done]. by rewrite Nat.add_0_r.
Qed.

End DeleteFacts.


(** The three theorems at [ex_table]. The logarithm and the exponential are
    stand-ins on the rationals: the logarithm is defined on the positive
    counts only, which is all that the theorems ask of it. *)
Definition ex_log (count : Z) : option Q :=
  if (0 <? count)%Z then Some (inject_Z count) else None.
Definition ex_exp (x : Q) : option Q := Some x.
Definition ex_reduce (l : list Q) : Q := foldr Qplus 0%Q l.

Definition ex_counts : gmap string Z := <["a" := 1%Z]> (<["z" := 3%Z]> ∅).

Lemma probabilities_from_counts_normalises_witness :
  ∃ t', probabilities_from_counts ex_log ex_exp ex_reduce ex_table ex_counts = Some t' ∧
    hashes_array t' = ["a"; "b"; "c"] ∧
    probabilities t' !! "a"
    = ex_log 1 ≫= (λ log_count, ex_exp (log_count - ex_reduce (all_logs ex_log ex_counts))%Q) ∧
    probabilities t' !! "b" = Some 0%Q.
Proof.
  destruct (probabilities_from_counts_normalises ex_log ex_exp ex_reduce ex_table ex_counts)
    as (t' & Ht & _ & Hh & _ & Hp & _).
  - intros E. apply (f_equal (λ m, m !! "a")) in E. vm_compute in E. discriminate.
  - intros k c Hk. unfold ex_counts in Hk.
    apply lookup_insert_Some in Hk as [[<- <-]|[_ Hk]]; [by eexists|].
    apply lookup_insert_Some in Hk as [[<- <-]|[_ Hk]]; [by eexists|].
    by rewrite lookup_empty in Hk.
  - intros h c log_count _ _ _. by eexists.
  - exists t'. split; [exact Ht|]. split; [exact Hh|]. split.
    + exact (Hp "a" ltac:(set_solver)).
    + exact (Hp "b" ltac:(set_solver)).
Defined.

Lemma probabilities_from_counts_log_error_witness :
  probabilities_from_counts ex_log ex_exp ex_reduce ex_table
                            (<["a" := 1%Z]> (<["z" := 0%Z]> ∅)) = None.
Proof.
  apply (probabilities_from_counts_log_error ex_log ex_exp ex_reduce ex_table
           (<["a" := 1%Z]> (<["z" := 0%Z]> ∅)) "z" 0%Z); reflexivity.
Defined.


(** ** The reverse index and the counter at their edges *)

Section ReverseNonEmpty.

Context {F : Type} `{Float64 F}.
Implicit Types (R : gmap string (gmap string F)).

(** No child of the index is without a parent. *)
Definition parents_nonempty R : Prop := ∀ c parents, R !! c = Some parents → parents ≠ ∅.

Lemma parents_nonempty_update R c p cp :
  parents_nonempty R → parents_nonempty (reverse_update R c p cp).
Proof.
  intros HR c' parents. unfold reverse_update.
  destruct (R !! c) as [ps|] eqn:E.
  - destruct (decide (c' = c)) as [->|Hne].
    + rewrite lookup_insert_eq. intros [= <-]. apply insert_non_empty.
    + rewrite lookup_insert_ne by done. apply HR.
  - destruct (decide (c' = c)) as [->|Hne].
    + rewrite lookup_insert_eq. intros [= <-]. apply insert_non_empty.
    + rewrite lookup_insert_ne by done. apply HR.
Qed.

Lemma parents_nonempty_fold triples : ∀ R,
  parents_nonempty R → parents_nonempty (foldl reverse_triple_step R triples).
Proof.
  induction triples as [|[p [s cp]] triples IH]; intros R HR; [done|].
  simpl. apply IH. unfold reverse_triple_step, reverse_split_step. cbn [fst snd].
  by do 2 apply parents_nonempty_update.
Qed.

Lemma reverse_cc_parents_nonempty {D} (cc_sets : gmap string (table F D)) :
  parents_nonempty (reverse_cc_probabilities cc_sets).
Proof.
  rewrite reverse_cc_probabilities_flat. apply parents_nonempty_fold.
  intros c parents. by rewrite lookup_empty.
Qed.

Lemma child_of_stripped c p s : child_of c p s → rstrip_nul c = c.
Proof.
  unfold child_of. rewrite elucidate_cc_split_closed. cbn [fst snd].
  intros [-> | ->]; apply rstrip_nul_idemp.
Qed.

Lemma child_of_size c p s : child_of c p s → clade_size c ≤ clade_size p.
Proof.
  pose proof (elucidate_cc_split_sizes p s). unfold child_of. intros [-> | ->]; lia.
Qed.

End ReverseNonEmpty.

(** [reverse_cc_probabilities] is an index of the model by child: a child
    has an entry under a parent exactly when the parent has a split that
    gives the child, and the entry is the probability of such a split. A
    child of the index has at least one parent, is an id without trailing
    zero bytes, and is no larger than any of its parents, which are clades of
    the model. *)
Theorem reverse_cc_probabilities_index {F : Type} `{Float64 F} {D : Type}
    (cc_sets : gmap string (table F D)) (child_hash parent_id : string) :
  let reverse_ccp := reverse_cc_probabilities cc_sets in
  let child_of_split split_id :=
    child_hash = (elucidate_cc_split parent_id split_id).1
    ∨ child_hash = (elucidate_cc_split parent_id split_id).2 in
  (∀ parents cc_probability,
     reverse_ccp !! child_hash = Some parents → parents !! parent_id = Some cc_probability →
     ∃ splits split_id, cc_sets !! parent_id = Some splits ∧
       probabilities splits !! split_id = Some cc_probability ∧ child_of_split split_id) ∧
  (∀ splits split_id,
     cc_sets !! parent_id = Some splits → is_Some (probabilities splits !! split_id) →
     child_of_split split_id →
     ∃ parents, reverse_ccp !! child_hash = Some parents ∧ is_Some (parents !! parent_id)) ∧
  (∀ parents, reverse_ccp !! child_hash = Some parents →
     parents ≠ ∅ ∧ rstrip_nul child_hash = child_hash ∧
     (is_Some (parents !! parent_id) →
      is_Some (cc_sets !! parent_id) ∧ clade_size child_hash ≤ clade_size parent_id)).
Proof.
  intros reverse_ccp child_of_split. subst reverse_ccp child_of_split.
  split; [|split].
  - intros parents cp Hc Hp. by apply (reverse_cc_sound cc_sets child_hash parents).
  - intros splits split_id Hs Hp Hch.
    by apply (reverse_cc_complete cc_sets child_hash parent_id splits split_id).
  - intros parents Hc.
    pose proof (reverse_cc_parents_nonempty cc_sets child_hash parents Hc) as Hne.
    split; [done|]. split.
    + destruct (map_choose parents Hne) as (p & cp & Hp).
      destruct (reverse_cc_sound cc_sets child_hash parents p cp Hc Hp)
        as (tp & s & _ & _ & Hch).
      by eapply child_of_stripped.
    + intros [cp Hp].
      destruct (reverse_cc_sound cc_sets child_hash parents parent_id cp Hc Hp)
        as (tp & s & Htp & _ & Hch).
      split; [eauto|]. by eapply child_of_size.
Qed.

Section OptionFold.

Context {A B : Type}.
Variable step : option A → B → option A.
Hypothesis step_None : ∀ b, step None b = None.

Lemma foldl_step_None l : foldl step None l = None.
Proof. induction l as [|b l IH]; [done|]. simpl. by rewrite step_None. Qed.

(** A property of the state that every step keeps holds when the loop ends. *)
Lemma foldl_step_inv (P : A → Prop) l :
  (∀ a b a', P a → step (Some a) b = Some a' → P a') →
  ∀ a a', P a → foldl step (Some a) l = Some a' → P a'.
Proof.
  intros Hstep. induction l as [|b l IH]; intros a a' Ha Hf.
  - by injection Hf as <-.
  - simpl in Hf. destruct (step (Some a) b) as [a1|] eqn:E.
    + eapply IH; [|exact Hf]. by eapply Hstep.
    + by rewrite foldl_step_None in Hf.
Qed.

End OptionFold.

Section CountEdges.

Context {F : Type} `{Float64 F} {D : Type}.
Variable cc_sets : gmap string (table F D).
Variable include_zero_probability : bool.

(** The counts are not negative and are those of clades of the model. *)
Definition counts_ok (n_subtrees : gmap string Z) : Prop :=
  ∀ k v, n_subtrees !! k = Some v → (0 ≤ v)%Z ∧ is_Some (cc_sets !! k).

Lemma child_factor_nonneg (m : gmap string Z) d n n' :
  counts_ok m → (0 ≤ n)%Z → child_factor m d n = Some n' → (0 ≤ n')%Z.
Proof.
  intros Hm Hn. unfold child_factor. destruct (2 <? clade_size d).
  - destruct (m !! d) as [v|] eqn:E; [|done]. simpl. intros [= <-].
    destruct (Hm d v E). lia.
  - by intros [= <-].
Qed.

Lemma parent_subtrees_nonneg (m : gmap string Z) p v :
  counts_ok m → parent_subtrees include_zero_probability cc_sets m p = Some v →
  (0 ≤ v)%Z ∧ is_Some (cc_sets !! p).
Proof.
  intros Hm. unfold parent_subtrees.
  destruct (cc_sets !! p) as [tp|] eqn:E; [|done]. cbn [mbind option_bind].
  intros Hf. split; [|eauto].
  eapply (foldl_step_inv (split_count_step include_zero_probability p tp m)
                         (λ _, eq_refl) (λ a, (0 ≤ a)%Z)); [|reflexivity|exact Hf].
  intros a j a' Ha. unfold split_count_step. cbn [mbind option_bind].
  destruct (hashes_array tp !! j) as [s|]; [|done]. cbn [mbind option_bind].
  destruct (probabilities_array tp !! j) as [pr|]; [|done]. cbn [mbind option_bind].
  destruct (include_zero_probability || f_ltb f_zero pr); [|by intros [= <-]].
  destruct (child_factor m (elucidate_cc_split p s).1 1) as [n1|] eqn:E1; [|done].
  cbn [mbind option_bind].
  destruct (child_factor m (elucidate_cc_split p s).2 n1) as [n2|] eqn:E2; [|done].
  cbn [mbind option_bind]. intros [= <-].
  apply (child_factor_nonneg m) in E1; [|done|lia].
  apply (child_factor_nonneg m) in E2; [|done|done]. lia.
Qed.

Lemma parent_count_step_ok m p m' :
  counts_ok m →
  parent_count_step include_zero_probability cc_sets (Some m) p = Some m' → counts_ok m'.
Proof.
  intros Hm. unfold parent_count_step. cbn [mbind option_bind].
  destruct (parent_subtrees include_zero_probability cc_sets m p) as [v|] eqn:E; [|done].
  cbn [mbind option_bind]. intros [= <-] k w.
  destruct (decide (k = p)) as [->|Hne].
  - rewrite lookup_insert_eq. intros [= <-]. by eapply parent_subtrees_nonneg.
  - rewrite lookup_insert_ne by done. apply Hm.
Qed.

Lemma count_fold_ok clades_by_size idxs m m' :
  counts_ok m →
  foldl (bucket_step (parent_count_step include_zero_probability cc_sets) clades_by_size)
        (Some m) idxs = Some m' →
  counts_ok m'.
Proof.
  apply (foldl_step_inv _ (λ _, eq_refl) counts_ok).
  intros a i a' Ha. unfold bucket_step. cbn [mbind option_bind].
  destruct (clades_by_size !! i) as [bucket|]; [|done]. cbn [mbind option_bind].
  apply (foldl_step_inv _ (λ _, eq_refl) counts_ok); [|done].
  intros b p b'. apply parent_count_step_ok.
Qed.

End CountEdges.



(** ** The queue stays sorted *)

Section IntegrateFacts.

Context {F : Type} `{Float64 F} {O : Type}.

(** No value of the list is below an earlier one. *)
Definition ascending (l : list F) : Prop := StronglySorted (λ x y, f_ltb y x = false) l.

(** What [numpy.searchsorted] returns for an ascending list: the values
    before the position are below [v], those from the position on are not. *)
Definition is_searchsorted (l : list F) (v : F) (rank : nat) : Prop :=
  rank ≤ length l ∧
  (∀ i x, i < rank → l !! i = Some x → f_ltb x v = true) ∧
  (∀ i x, rank ≤ i → l !! i = Some x → f_ltb x v = false).

Lemma insert_at_perm {A} rank (x : A) l : insert_at rank x l ≡ₚ x :: l.
Proof.
  unfold insert_at. rewrite <- Permutation_middle. by rewrite take_drop.
Qed.

Lemma length_insert_at {A} rank (x : A) l : length (insert_at rank x l) = S (length l).
Proof. by rewrite insert_at_perm. Qed.

Lemma zip_insert_at {A B} rank (x : A) (y : B) l k :
  length l = length k →
  zip (insert_at rank x l) (insert_at rank y k) = insert_at rank (x, y) (zip l k).
Proof.
  revert k rank. unfold insert_at.
  induction l as [|a l IH]; intros [|b k] rank Hl; try done.
  - by destruct rank.
  - destruct rank as [|rank]; [done|]. simpl. rewrite IH; [done|].
    simpl in Hl. lia.
Qed.

Lemma zip_snoc {A B} (l : list A) (x : A) : ∀ (k : list B) (y : B),
  k !! length l = Some y → zip (l ++ [x]) k = zip l k ++ [(x, y)].
Proof.
  induction l as [|a l IH]; intros [|b k] y Hy; try done.
  - simpl in Hy. by injection Hy as ->.
  - simpl in *. by rewrite (IH k y).
Qed.

Hypothesis f_ltb_asym : ∀ x y : F, f_ltb x y = true → f_ltb y x = false.

Lemma ascending_insert_at l v rank :
  ascending l → is_searchsorted l v rank → ascending (insert_at rank v l).
Proof.
  intros Hl (Hr & Hlt & Hge). unfold ascending, insert_at.
  rewrite <- (take_drop rank l) in Hl. apply StronglySorted_app in Hl as (Hx & Ht & Hd).
  apply StronglySorted_app_2; [|done|].
  - intros x y [i [Hi Hir]]%elem_of_take [-> | Hy]%elem_of_cons.
    + apply f_ltb_asym. by eapply Hlt.
    + by apply Hx; [apply elem_of_take; eauto|].
  - apply SSorted_cons; [done|].
    apply Forall_forall. intros y [j Hj]%list_elem_of_lookup.
    rewrite lookup_drop in Hj. eapply Hge; [|exact Hj]. lia.
Qed.

Variable searchsorted : list F → F → nat.
Hypothesis searchsorted_ok : ∀ l v, ascending l → is_searchsorted l v (searchsorted l v).

(** The loop of [integrate_probability] over the first [k] new items. *)
Lemma integrate_fold (original_probs : list F) (original_data : list O)
    (new_probs : list F) (new_data : list O) k :
  ascending original_probs → length original_data = length original_probs →
  k ≤ length new_probs → k ≤ length new_data →
  ∃ probs data,
    foldl (integrate_step searchsorted new_probs new_data)
          (Some (original_probs, original_data)) (seq 0 k) = Some (probs, data) ∧
    ascending probs ∧ length data = length probs ∧
    zip probs data ≡ₚ zip original_probs original_data ++ zip (take k new_probs) new_data.
Proof.
  intros Hasc Hlen. induction k as [|k IH]; intros Hk1 Hk2.
  - exists original_probs, original_data. simpl. by rewrite app_nil_r.
  - destruct IH as (probs & data & Hf & Ha & Hl & Hp); [lia|lia|].
    destruct (lookup_lt_is_Some_2 new_probs k) as [p Hpk]; [lia|].
    destruct (lookup_lt_is_Some_2 new_data k) as [o Hok]; [lia|].
    exists (insert_at (searchsorted probs p) p probs),
           (insert_at (searchsorted probs p) o data).
    split; [|split; [|split]].
    + rewrite seq_S, foldl_app, Hf. simpl. unfold integrate_step. simpl.
      by rewrite Hpk, Hok.
    + by apply ascending_insert_at; [|apply searchsorted_ok].
    + by rewrite !length_insert_at, Hl.
    + rewrite zip_insert_at by done. rewrite insert_at_perm, Hp.
      rewrite (take_S_r _ _ _ Hpk).
      rewrite (zip_snoc (take k new_probs) p new_data o)
        by (rewrite length_take, Nat.min_l by lia; exact Hok).
      rewrite app_assoc. apply Permutation_cons_append.
Qed.

End IntegrateFacts.


(** [integrate_probability] reads an observation for every new probability:
    with fewer observations than probabilities it fails, with [IndexError]. *)
Theorem integrate_probability_index_error {F : Type} `{Float64 F} {O : Type}
    (searchsorted : list F → F → nat)
    (original_probs : list F) (original_data : list O)
    (new_probs : list F) (new_data : list O) :
  length new_data < length new_probs →
  integrate_probability searchsorted original_probs original_data new_probs new_data = None.
Proof.
  intros Hlt. unfold integrate_probability.
  replace (length new_probs)
    with (length new_data + (1 + (length new_probs - S (length new_data)))) by lia.
  rewrite !seq_app, !foldl_app. simpl.
  assert (∀ acc, integrate_step searchsorted new_probs new_data acc (length new_data) = None)
    as ->.
  { intros [[ps ds]|]; [|done]. unfold integrate_step. simpl.
    destruct (new_probs !! length new_data); [|done]. simpl.
    by rewrite (proj2 (lookup_ge_None new_data (length new_data))) by lia. }
  by apply foldl_step_None.
Qed.

(** A linear search, one function meeting [is_searchsorted]. *)
Fixpoint searchsorted_left {F : Type} `{Float64 F} (l : list F) (v : F) : nat :=
  match l with
  | [] => 0
  | x :: l' => if f_ltb x v then S (searchsorted_left l' v) else 0
  end.

Lemma searchsorted_left_Q (l : list Q) (v : Q) :
  ascending l → is_searchsorted l v (searchsorted_left l v).
Proof.
  assert (∀ x y : Q, f_ltb y x = false ↔ Qle_bool x y = true) as Hle.
  { intros x y. simpl. by rewrite negb_false_iff. }
  induction l as [|x l IH]; intros Hasc.
  - split; [done|]. split; intros i y; by rewrite lookup_nil.
  - apply StronglySorted_inv in Hasc as [Hasc Hx].
    destruct (IH Hasc) as (Hr & Hlt & Hge). cbn [searchsorted_left].
    destruct (f_ltb x v) eqn:E.
    + split; [simpl; lia|]. split.
      * intros [|i] y Hi Hy; [by injection Hy as <-|]. apply (Hlt i); [lia|done].
      * intros [|i] y Hi Hy; [lia|]. apply (Hge i); [lia|done].
    + split; [simpl; lia|]. split; [intros i y Hi; lia|].
      intros [|i] y _ Hy; [by injection Hy as <-|].
      simpl in Hy. apply list_elem_of_lookup_2 in Hy.
      rewrite Forall_forall in Hx. specialize (Hx y Hy). simpl in Hx.
      apply Hle. apply Hle in E. apply Hle in Hx.
      apply Qle_bool_iff. apply Qle_bool_iff in E, Hx.
      eapply Qle_trans; [exact E | exact Hx].
Qed.


Lemma integrate_probability_index_error_witness :
  integrate_probability searchsorted_left [(1 # 4)%Q] ["b"] [(3 # 4)%Q; 0%Q] ["d"] = None.
Proof.
  apply (integrate_probability_index_error searchsorted_left). simpl. lia.
Defined.

(** ** Trees from splits, and back *)

Section TaxaOfHash.

Variable taxon_order : list string.

(** The taxa of a clade id, in taxon order. *)
Definition taxa_of (clade_hash : string) : list string :=
  omap (λ i, if bit (unpackbits clade_hash) i then taxon_order !! i else None)
       (seq 0 (length taxon_order)).

(** No set bit of the id is beyond the taxon order. *)
Definition in_range (clade_hash : string) : Prop :=
  ∀ i, bit (unpackbits clade_hash) i = true → i < length taxon_order.

Lemma names_upto_ge bits k :
  length taxon_order ≤ k →
  names_upto bits taxon_order k = names_upto bits taxon_order (length taxon_order).
Proof.
  intros Hk. replace k with (length taxon_order + (k - length taxon_order)) by lia.
  generalize (k - length taxon_order). intros d. induction d as [|d IH]; [by rewrite Nat.add_0_r|].
  rewrite Nat.add_succ_r, names_upto_S, IH.
  rewrite (proj2 (lookup_ge_None taxon_order _)) by lia.
  destruct (bit bits _); by rewrite app_nil_r.
Qed.

Lemma names_upto_le bits k :
  length bits ≤ k → names_upto bits taxon_order k = names_upto bits taxon_order (length bits).
Proof.
  intros Hk. replace k with (length bits + (k - length bits)) by lia.
  generalize (k - length bits). intros d. induction d as [|d IH]; [by rewrite Nat.add_0_r|].
  rewrite Nat.add_succ_r, names_upto_S, IH.
  rewrite (bit_ge bits) by lia. by rewrite app_nil_r.
Qed.

Lemma names_upto_taxa_of clade_hash :
  names_upto (unpackbits clade_hash) taxon_order (length (unpackbits clade_hash))
  = taxa_of clade_hash.
Proof.
  unfold taxa_of. fold (names_upto (unpackbits clade_hash) taxon_order (length taxon_order)).
  destruct (decide (length taxon_order ≤ length (unpackbits clade_hash))).
  - by apply names_upto_ge.
  - symmetry. apply names_upto_le. lia.
Qed.

Lemma clade_taxon_names_Some clade_hash names :
  clade_taxon_names clade_hash taxon_order = Some names →
  in_range clade_hash ∧ names = taxa_of clade_hash.
Proof.
  intros Hn. unfold clade_taxon_names in Hn.
  assert (in_range clade_hash) as Hr.
  { intros i Hb. destruct (decide (i < length taxon_order)) as [|Hge]; [done|].
    rewrite (taxon_names_fold_fail _ _ _ i) in Hn; [done| |done|lia].
    by apply bit_true_lt. }
  split; [done|].
  rewrite taxon_names_fold_Some in Hn by (intros i _; apply Hr).
  injection Hn as <-. apply names_upto_taxa_of.
Qed.

Lemma clade_taxon_names_in_range clade_hash :
  in_range clade_hash → clade_taxon_names clade_hash taxon_order = Some (taxa_of clade_hash).
Proof.
  intros Hr. unfold clade_taxon_names.
  rewrite taxon_names_fold_Some by (intros i _; apply Hr).
  by rewrite names_upto_taxa_of.
Qed.

Lemma length_taxa_of clade_hash :
  in_range clade_hash → length (taxa_of clade_hash) = clade_size clade_hash.
Proof.
  intros Hr. rewrite <- names_upto_taxa_of.
  rewrite length_names_upto by (intros i _; apply Hr). by apply rank_ge.
Qed.

Lemma omap_split {A B} (f g h : A → option B) (l : list A) :
  (∀ x, x ∈ l → (f x = g x ∧ h x = None) ∨ (f x = h x ∧ g x = None)) →
  omap f l ≡ₚ omap g l ++ omap h l.
Proof.
  induction l as [|x l IH]; intros Hx; [done|].
  assert (omap f l ≡ₚ omap g l ++ omap h l) as IH'
    by (apply IH; intros y Hy; apply Hx; by right).
  clear IH. rename IH' into IH.
  destruct (Hx x) as [[Hf Hh] | [Hf Hg]]; [left| |]; simpl; rewrite Hf.
  - rewrite Hh. destruct (g x); simpl; by rewrite IH.
  - rewrite Hg. destruct (h x) as [y|]; simpl; [|done].
    rewrite IH. apply Permutation_middle.
Qed.

(** The taxa of a clade are those of its two children. *)
Lemma taxa_of_children parent_hash split_hash :
  let children := elucidate_cc_split parent_hash split_hash in
  in_range children.1 → in_range children.2 →
  in_range parent_hash ∧
  taxa_of parent_hash ≡ₚ taxa_of children.1 ++ taxa_of children.2.
Proof.
  intros children H1 H2. subst children.
  destruct (elucidate_cc_split_bits parent_hash split_hash) as [Hb1 Hb2].
  simpl in Hb1, Hb2. split.
  - intros i Hi.
    destruct (bit (unpackbits split_hash) (rank (unpackbits parent_hash) i)) eqn:Es.
    + apply H1. rewrite Hb1. unfold child1_bit. by rewrite Hi, Es.
    + apply H2. rewrite Hb2. unfold child2_bit. by rewrite Hi, Es.
  - unfold taxa_of. apply omap_split. intros i _.
    rewrite Hb1, Hb2. unfold child1_bit, child2_bit.
    destruct (bit (unpackbits parent_hash) i); simpl; [|by left].
    destruct (bit (unpackbits split_hash) _); simpl; [by left | by right].
Qed.

End TaxaOfHash.

Section DeriveTree.

Variable taxon_order : list string.
Variable splits : gmap string string.

(** The child expression of [derive_tree_from_splits]. *)
Definition derive_child (depth : nat) (child_hash : string) : option tree :=
  if Nat.eqb (clade_size child_hash) 1
  then names ← clade_taxon_names child_hash taxon_order;
       name ← names !! 0;
       Some (Leaf name)
  else derive_tree_from_splits depth child_hash taxon_order splits.

Lemma derive_tree_from_splits_S depth parent_hash :
  derive_tree_from_splits (S depth) parent_hash taxon_order splits
  = split_hash ← splits !! parent_hash;
    child1_node ← derive_child depth (elucidate_cc_split parent_hash split_hash).1;
    child2_node ← derive_child depth (elucidate_cc_split parent_hash split_hash).2;
    Some (Node child1_node child2_node).
Proof. reflexivity. Qed.

Lemma derive_leaves depth : ∀ parent_hash t,
  derive_tree_from_splits depth parent_hash taxon_order splits = Some t →
  in_range taxon_order parent_hash ∧ get_leaf_names t ≡ₚ taxa_of taxon_order parent_hash.
Proof.
  induction depth as [|depth IH]; intros parent_hash t Ht; [done|].
  rewrite derive_tree_from_splits_S in Ht.
  destruct (splits !! parent_hash) as [split_hash|]; [|done]. cbn [mbind option_bind] in Ht.
  assert (∀ c tc, derive_child depth c = Some tc →
            in_range taxon_order c ∧ get_leaf_names tc ≡ₚ taxa_of taxon_order c) as Hchild.
  { intros c tc. unfold derive_child.
    destruct (Nat.eqb_spec (clade_size c) 1) as [Hs|_]; [|apply IH].
    destruct (clade_taxon_names c taxon_order) as [names|] eqn:En; [|done].
    cbn [mbind option_bind].
    apply clade_taxon_names_Some in En as [Hr ->].
    pose proof (length_taxa_of taxon_order c Hr) as Hl. rewrite Hs in Hl.
    destruct (taxa_of taxon_order c) as [|name [|? ?]]; try done.
    simpl. by intros [= <-]. }
  destruct (derive_child depth (elucidate_cc_split parent_hash split_hash).1)
    as [t1|] eqn:E1; [|done]. cbn [mbind option_bind] in Ht.
  destruct (derive_child depth (elucidate_cc_split parent_hash split_hash).2)
    as [t2|] eqn:E2; [|done]. cbn [mbind option_bind] in Ht.
  injection Ht as <-.
  apply Hchild in E1 as [Hr1 Hp1]. apply Hchild in E2 as [Hr2 Hp2].
  destruct (taxa_of_children taxon_order parent_hash split_hash Hr1 Hr2) as [Hr Hp].
  split; [done|]. cbn [get_leaf_names]. by rewrite Hp, Hp1, Hp2.
Qed.

Hypothesis order_NoDup : NoDup taxon_order.

(** The set of the leaf names of a tree and the ids of a node. *)
Definition leaf_set (t : tree) : gset string := list_to_set (get_leaf_names t).

Definition node_ids (a b : tree) : string * string :=
  calculate_node_hashes (leaf_set a) (leaf_set b) taxon_order.

(** The tree with, at every node, the child that holds the first taxon of
    the node first. *)
Fixpoint canonical (t : tree) : tree :=
  match t with
  | Leaf name => Leaf name
  | Node a b =>
      if first_in_a (leaf_set a) (leaf_set b) taxon_order
      then Node (canonical a) (canonical b)
      else Node (canonical b) (canonical a)
  end.

Fixpoint height (t : tree) : nat :=
  match t with
  | Leaf _ => 0
  | Node a b => S (Nat.max (height a) (height b))
  end.

(** A split id that reads as the one of the ids on the taxa of the clade. *)
Definition split_agrees (ids : string * string) (split_hash : string) : Prop :=
  ∀ r, r < clade_size ids.1 → bit (unpackbits split_hash) r = bit (unpackbits ids.2) r.

(** The mapping has, under the clade id of every node, read without its
    trailing zero bytes, the node's split id or one that reads as it. *)
Fixpoint splits_hold (t : tree) : Prop :=
  match t with
  | Leaf _ => True
  | Node a b =>
      (∃ split_hash, splits !! rstrip_nul (node_ids a b).1 = Some split_hash
                     ∧ split_agrees (node_ids a b) split_hash)
      ∧ splits_hold a ∧ splits_hold b
  end.

Definition indicator (S : gset string) : list bool :=
  map (λ t, bool_decide (t ∈ S)) taxon_order.

Lemma clade_size_indicator h (S : gset string) :
  bits_eq (unpackbits h) (indicator S) → (∀ t, t ∈ S → t ∈ taxon_order) →
  clade_size h = size S.
Proof.
  intros Hb Hsub. unfold clade_size. rewrite (popcount_bits_eq _ _ Hb).
  unfold indicator. rewrite popcount_map. by apply length_filter_elem.
Qed.

Lemma filter_singleton_order name :
  name ∈ taxon_order →
  filter (λ t, bool_decide (t ∈ ({[name]} : gset string)) = true) taxon_order = [name].
Proof.
  intros Hin. apply Permutation_singleton_r. apply NoDup_Permutation.
  - by apply NoDup_filter.
  - apply NoDup_singleton.
  - intros x. rewrite list_elem_of_filter, bool_decide_eq_true, elem_of_singleton,
      list_elem_of_singleton.
    split; [by intros [-> _] | by intros ->].
Qed.

Lemma length_leaves_pos t : 0 < length (get_leaf_names t).
Proof. induction t; simpl; [lia|]. rewrite length_app. lia. Qed.

Lemma size_leaf_set t : NoDup (get_leaf_names t) → size (leaf_set t) = length (get_leaf_names t).
Proof. intros Hnd. unfold leaf_set. by rewrite size_list_to_set. Qed.

Lemma leaf_set_Node a b : leaf_set (Node a b) = leaf_set a ∪ leaf_set b.
Proof. unfold leaf_set. simpl. by rewrite list_to_set_app_L. Qed.

Lemma node_ids_bits a b :
  bits_eq (unpackbits (node_ids a b).1) (indicator (leaf_set (Node a b))).
Proof.
  unfold node_ids.
  destruct (calculate_node_hashes_closed (leaf_set a) (leaf_set b) taxon_order)
    as (af & _ & ->).
  cbn [fst]. rewrite leaf_set_Node. apply bits_eq_unpack_pack.
Qed.

(** The expression that builds a child gives the canonical form of the
    subtree whose taxa the child id has. *)
Lemma derive_child_canonical c : ∀ h depth,
  NoDup (get_leaf_names c) → (∀ n, n ∈ get_leaf_names c → n ∈ taxon_order) →
  splits_hold c → height c ≤ depth →
  bits_eq (unpackbits h) (indicator (leaf_set c)) → rstrip_nul h = h →
  derive_child depth h = Some (canonical c).
Proof.
  induction c as [name | a IHa b IHb]; intros h depth Hnd Hsub Hsp Hd Hb Hstrip.
  - unfold derive_child.
    assert (name ∈ taxon_order) as Hin by (apply Hsub; simpl; left).
    rewrite (clade_size_indicator h (leaf_set (Leaf name)))
      by (done || intros t Ht; apply Hsub; by apply elem_of_list_to_set in Ht).
    rewrite size_leaf_set by done. simpl.
    rewrite (clade_taxon_names_closed h _ taxon_order Hb). cbn [mbind option_bind].
    unfold leaf_set. simpl. rewrite union_empty_r_L.
    by rewrite filter_singleton_order.
  - cbn [get_leaf_names] in Hnd, Hsub.
    pose proof Hnd as (Hna & Hab & Hnb)%NoDup_app.
    assert (leaf_set a ## leaf_set b) as Hdisj by (by apply NoDup_leaves_disjoint).
    assert (∀ t, t ∈ leaf_set a ∪ leaf_set b → t ∈ taxon_order) as Hsub'.
    { intros t Ht. apply Hsub. rewrite elem_of_app.
      unfold leaf_set in Ht. rewrite elem_of_union, !elem_of_list_to_set in Ht. done. }
    unfold derive_child.
    rewrite (clade_size_indicator h (leaf_set (Node a b)))
      by (done || by rewrite leaf_set_Node).
    rewrite size_leaf_set by done. cbn [get_leaf_names]. rewrite length_app.
    pose proof (length_leaves_pos a). pose proof (length_leaves_pos b).
    destruct (Nat.eqb_spec (length (get_leaf_names a) + length (get_leaf_names b)) 1)
      as [|_]; [lia|].
    destruct depth as [|depth]; [simpl in Hd; lia|]. simpl in Hd.
    destruct Hsp as ((split_hash & Hlook & Hagree) & Hsa & Hsb).
    assert (h = rstrip_nul (node_ids a b).1) as Hkey.
    { rewrite <- Hstrip. apply rstrip_nul_bits_eq.
      eapply bits_eq_trans; [exact Hb | apply bits_eq_sym, node_ids_bits]. }
    rewrite derive_tree_from_splits_S. rewrite Hkey at 1. rewrite Hlook.
    cbn [mbind option_bind].
    assert (elucidate_cc_split h split_hash
            = elucidate_cc_split (node_ids a b).1 (node_ids a b).2) as Hel.
    { apply elucidate_cc_split_ext.
      - eapply bits_eq_trans; [exact Hb | apply bits_eq_sym, node_ids_bits].
      - intros r Hr. apply Hagree.
        unfold clade_size in *. rewrite (popcount_bits_eq _ _ Hb) in Hr.
        by rewrite (popcount_bits_eq _ _ (node_ids_bits a b)). }
    rewrite Hel.
    destruct (decode_encoded (leaf_set a) (leaf_set b) taxon_order Hdisj)
      as (af & Haf & H1 & H2).
    fold (node_ids a b) in H1, H2.
    assert (members (leaf_set a) (leaf_set b) taxon_order ≠ []) as Hne.
    { destruct (get_leaf_names a) as [|n l] eqn:E; [simpl in *; lia|].
      assert (n ∈ leaf_set a) as Hn by (unfold leaf_set; rewrite E; set_solver).
      intros Hm. assert (n ∈ members (leaf_set a) (leaf_set b) taxon_order) as Hin.
      { apply elem_of_members. split; [set_solver|]. apply Hsub'. set_solver. }
      rewrite Hm in Hin. by apply elem_of_nil in Hin. }
    specialize (Haf Hne). subst af.
    assert (rstrip_nul (elucidate_cc_split (node_ids a b).1 (node_ids a b).2).1
            = (elucidate_cc_split (node_ids a b).1 (node_ids a b).2).1) as Hst1
      by (eapply child_of_stripped; by left).
    assert (rstrip_nul (elucidate_cc_split (node_ids a b).1 (node_ids a b).2).2
            = (elucidate_cc_split (node_ids a b).1 (node_ids a b).2).2) as Hst2
      by (eapply child_of_stripped; by right).
    assert (∀ n, n ∈ get_leaf_names a → n ∈ taxon_order) as Hsuba
      by (intros n Hn; apply Hsub; rewrite elem_of_app; by left).
    assert (∀ n, n ∈ get_leaf_names b → n ∈ taxon_order) as Hsubb
      by (intros n Hn; apply Hsub; rewrite elem_of_app; by right).
    assert (height a ≤ depth) as Hda by lia.
    assert (height b ≤ depth) as Hdb by lia.
    cbn [canonical]. unfold first_child, second_child in H1, H2.
    destruct (first_in_a (leaf_set a) (leaf_set b) taxon_order).
    + rewrite (IHa _ depth Hna Hsuba Hsa Hda H1 Hst1). cbn [mbind option_bind].
      by rewrite (IHb _ depth Hnb Hsubb Hsb Hdb H2 Hst2).
    + rewrite (IHb _ depth Hnb Hsubb Hsb Hdb H1 Hst1). cbn [mbind option_bind].
      by rewrite (IHa _ depth Hna Hsuba Hsa Hda H2 Hst2).
Qed.

End DeriveTree.

(** [derive_tree_from_splits] undoes [calculate_node_hashes]: from a mapping
    that has, for every internal node of a tree with distinct leaf names of
    the taxon order, the node's split id under the node's clade id (as they
    are read from an array, or a split id that reads the same on the taxa of
    the clade, such as the cherry id), and from the clade id of the root, it
    rebuilds the tree, each node with the child that holds its first taxon
    first, provided the interpreter allows as many nested calls as the tree
    is high. *)
Theorem derive_tree_from_splits_round_trip (taxon_order : list string)
    (splits : gmap string string) (child1 child2 : tree) (depth : nat) :
  let topology_root := Node child1 child2 in
  NoDup taxon_order →
  NoDup (get_leaf_names topology_root) →
  (∀ name, name ∈ get_leaf_names topology_root → name ∈ taxon_order) →
  splits_hold taxon_order splits topology_root →
  height topology_root ≤ depth →
  derive_tree_from_splits depth (rstrip_nul (node_ids taxon_order child1 child2).1)
                          taxon_order splits
  = Some (canonical taxon_order topology_root).
Proof.
  intros topology_root Hord Hnd Hsub Hsp Hd.
  pose proof (derive_child_canonical taxon_order splits Hord topology_root
                (rstrip_nul (node_ids taxon_order child1 child2).1) depth Hnd Hsub Hsp Hd)
    as Hc.
  unfold derive_child in Hc.
  rewrite (clade_size_indicator taxon_order Hord _ (leaf_set topology_root)) in Hc.
  - rewrite size_leaf_set in Hc by done. subst topology_root.
    cbn [get_leaf_names] in Hc. rewrite length_app in Hc.
    pose proof (length_leaves_pos child1). pose proof (length_leaves_pos child2).
    destruct (Nat.eqb_spec (length (get_leaf_names child1) + length (get_leaf_names child2)) 1)
      as [|_]; [lia|].
    apply Hc; [|apply rstrip_nul_idemp].
    eapply bits_eq_trans; [apply bits_eq_rstrip | apply node_ids_bits].
  - eapply bits_eq_trans; [apply bits_eq_rstrip | apply node_ids_bits].
  - intros t Ht. apply Hsub. by apply elem_of_list_to_set in Ht.
Qed.

(** Whatever the mapping of splits holds, a tree that
    [derive_tree_from_splits] returns is a tree on the taxa of the clade id it
    was given: its leaf names are the names that [clade_taxon_names] gives
    for the id, each once. *)
Theorem derive_tree_from_splits_leaves (taxon_order : list string)
    (splits : gmap string string) (depth : nat) (parent_hash : string) (topology : tree) :
  derive_tree_from_splits depth parent_hash taxon_order splits = Some topology →
  ∃ names, clade_taxon_names parent_hash taxon_order = Some names ∧
    get_leaf_names topology ≡ₚ names ∧
    length (get_leaf_names topology) = clade_size parent_hash.
Proof.
  intros Ht. apply derive_leaves in Ht as [Hr Hp].
  exists (taxa_of taxon_order parent_hash).
  split; [by apply clade_taxon_names_in_range|]. split; [done|].
  by rewrite Hp, length_taxa_of.
Qed.

(** ** A tree of four taxa, derived from its splits *)

Lemma split_agrees_rstrip (ids : string * string) : split_agrees ids (rstrip_nul ids.2).
Proof. intros r _. apply bits_eq_rstrip. Qed.

(** The splits of the nodes of a tree, under their clade ids, as they are
    read from an array. *)
Fixpoint tree_splits (taxon_order : list string) (t : tree) : gmap string string :=
  match t with
  | Leaf _ => ∅
  | Node a b =>
      <[rstrip_nul (node_ids taxon_order a b).1 := rstrip_nul (node_ids taxon_order a b).2]>
        (tree_splits taxon_order a ∪ tree_splits taxon_order b)
  end.

Definition ex_order4 : list string := ["A"; "B"; "C"; "D"].

Definition ex_tree4 : tree := Node (Node (Leaf "D") (Leaf "C")) (Node (Leaf "B") (Leaf "A")).

Lemma derive_tree_from_splits_round_trip_witness :
  derive_tree_from_splits
    2 (rstrip_nul (node_ids ex_order4 (Node (Leaf "D") (Leaf "C")) (Node (Leaf "B") (Leaf "A"))).1)
    ex_order4 (tree_splits ex_order4 ex_tree4)
  = Some (canonical ex_order4 ex_tree4)
  ∧ canonical ex_order4 ex_tree4
    = Node (Node (Leaf "A") (Leaf "B")) (Node (Leaf "C") (Leaf "D")).
Proof.
  split; [|vm_compute; reflexivity].
  apply (derive_tree_from_splits_round_trip ex_order4 (tree_splits ex_order4 ex_tree4)
           (Node (Leaf "D") (Leaf "C")) (Node (Leaf "B") (Leaf "A")) 2).
  - apply (bool_decide_unpack _). vm_compute. exact I.
  - apply (bool_decide_unpack _). vm_compute. exact I.
  - intros name Hn. vm_compute in Hn. unfold ex_order4. set_solver.
  - repeat split; eexists; (split; [vm_compute; reflexivity|]); apply split_agrees_rstrip.
  - simpl. lia.
Defined.

Lemma derive_tree_from_splits_leaves_witness :
  ∃ names,
    clade_taxon_names (calculate_root_hash 4) ex_order4 = Some names ∧
    ["A"; "B"; "C"; "D"] ≡ₚ names ∧ 4 = clade_size (calculate_root_hash 4).
Proof.
  apply (derive_tree_from_splits_leaves ex_order4 (tree_splits ex_order4 ex_tree4) 2
           (calculate_root_hash 4)
           (Node (Node (Leaf "A") (Leaf "B")) (Node (Leaf "C") (Leaf "D")))).
  vm_compute. reflexivity.
Defined.

(** ** Counting: mappings of counts *)

Section Occurrences.

Context {A : Type} `{EqDecision A}.

(** How often a value occurs in a list. *)
Definition occurrences (x : A) (l : list A) : nat := length (filter (λ y, y = x) l).

(** The entry of a mapping of counts for a key seen [n] times. *)
Definition count_entry (n : nat) : option Z :=
  match n with
  | 0 => None
  | S _ => Some (Z.of_nat n)
  end.

Lemma occurrences_nil x : occurrences x [] = 0.
Proof. done. Qed.

Lemma occurrences_snoc x l y :
  occurrences x (l ++ [y]) = occurrences x l + (if decide (y = x) then 1 else 0).
Proof.
  unfold occurrences. rewrite filter_app, length_app, filter_cons, filter_nil.
  by destruct (decide (y = x)).
Qed.

Lemma occurrences_app x l1 l2 :
  occurrences x (l1 ++ l2) = occurrences x l1 + occurrences x l2.
Proof. unfold occurrences. by rewrite filter_app, length_app. Qed.

Lemma occurrences_pos x l : 0 < occurrences x l ↔ x ∈ l.
Proof.
  unfold occurrences. split.
  - intros Hl. destruct (filter (λ y, y = x) l) as [|y l'] eqn:E; [simpl in Hl; lia|].
    assert (y ∈ filter (λ y, y = x) l) as [-> Hy]%list_elem_of_filter by (rewrite E; left).
    done.
  - intros Hx. assert (x ∈ filter (λ y, y = x) l) as Hin by (by apply list_elem_of_filter).
    destruct (filter (λ y, y = x) l); [by apply elem_of_nil in Hin | simpl; lia].
Qed.

Lemma count_entry_None n : count_entry n = None ↔ n = 0.
Proof. by destruct n. Qed.

Lemma count_entry_Some n c : count_entry n = Some c ↔ 0 < n ∧ c = Z.of_nat n.
Proof.
  destruct n; simpl; split; try done; try (intros [? _]; lia).
  - intros [= <-]. split; [lia|done].
  - by intros [_ ->].
Qed.

Lemma count_entry_succ n c : count_entry n = Some c → count_entry (n + 1) = Some (c + 1)%Z.
Proof.
  intros [Hn ->]%count_entry_Some. apply count_entry_Some. split; lia.
Qed.

Lemma count_entry_first n : count_entry n = None → count_entry (n + 1) = Some 1%Z.
Proof. intros ->%count_entry_None. done. Qed.

End Occurrences.

Section MapsOfMaps.

Context {V : Type}.
Implicit Types (m : gmap string (gmap string V)).

(** The entry of a mapping of mappings under two keys. *)
Definition entry2 m (p s : string) : option V := m !! p ≫= λ inner, inner !! s.

Lemma entry2_insert_new m p0 s0 v p s :
  m !! p0 = None →
  entry2 (<[p0 := {[s0 := v]}]> m) p s
  = if decide (p = p0 ∧ s = s0) then Some v else entry2 m p s.
Proof.
  intros Hn. unfold entry2. destruct (decide (p = p0)) as [->|Hp].
  - rewrite lookup_insert_eq, Hn. simpl. destruct (decide (s = s0)) as [->|Hs].
    + rewrite decide_True by done. apply lookup_singleton_eq.
    + rewrite decide_False by naive_solver. by apply lookup_singleton_ne.
  - rewrite lookup_insert_ne by done. by rewrite decide_False by naive_solver.
Qed.

Lemma entry2_insert_inner m p0 inner s0 v p s :
  m !! p0 = Some inner →
  entry2 (<[p0 := <[s0 := v]> inner]> m) p s
  = if decide (p = p0 ∧ s = s0) then Some v else entry2 m p s.
Proof.
  intros Hi. unfold entry2. destruct (decide (p = p0)) as [->|Hp].
  - rewrite lookup_insert_eq, Hi. simpl. destruct (decide (s = s0)) as [->|Hs].
    + rewrite decide_True by done. apply lookup_insert_eq.
    + rewrite decide_False by naive_solver. by apply lookup_insert_ne.
  - rewrite lookup_insert_ne by done. by rewrite decide_False by naive_solver.
Qed.

(** No key of the outer mapping has an empty mapping. *)
Definition inner_nonempty m : Prop := ∀ p inner, m !! p = Some inner → inner ≠ ∅.

Lemma inner_nonempty_insert m p inner :
  inner_nonempty m → inner ≠ ∅ → inner_nonempty (<[p := inner]> m).
Proof.
  intros Hm Hi p' inner'. destruct (decide (p' = p)) as [->|Hne].
  - rewrite lookup_insert_eq. by intros [= <-].
  - rewrite lookup_insert_ne by done. apply Hm.
Qed.

Lemma inner_nonempty_entry m p :
  inner_nonempty m → is_Some (m !! p) ↔ ∃ s, is_Some (entry2 m p s).
Proof.
  intros Hm. unfold entry2. split.
  - intros [inner Hi]. destruct (map_choose inner (Hm p inner Hi)) as (s & v & Hs).
    exists s. rewrite Hi. simpl. eauto.
  - intros (s & v & Hv). destruct (m !! p); [eauto | done].
Qed.

End MapsOfMaps.

Section TotalCount.

(** The sum of the counts of a mapping. *)
Definition total_count (m : gmap string Z) : Z :=
  map_fold (λ _ count acc, (count + acc)%Z) 0%Z m.

Lemma total_count_insert_new (m : gmap string Z) h c :
  m !! h = None → total_count (<[h := c]> m) = (c + total_count m)%Z.
Proof.
  intros Hn. unfold total_count. rewrite map_fold_insert_L; [done| |done].
  intros. lia.
Qed.

Lemma total_count_insert (m : gmap string Z) h c c' :
  m !! h = Some c → total_count (<[h := c']> m) = (total_count m + (c' - c))%Z.
Proof.
  intros Hc.
  rewrite <- (insert_delete_eq m h c').
  rewrite total_count_insert_new by apply lookup_delete_eq.
  rewrite <- (insert_delete_id m h c Hc) at 2.
  rewrite total_count_insert_new by apply lookup_delete_eq. lia.
Qed.

End TotalCount.

Section ItemsToMap.

Context {V W : Type}.
Variable f : V → option W.

(** A mapping rebuilt item by item with a function that may fail. *)
Definition item_map (item : string * V) : option (string * W) :=
  w ← f item.2; Some (item.1, w).

Lemma mapM_item_map_lookup (l : list (string * V)) : ∀ items,
  NoDup l.*1 → mapM item_map l = Some items →
  ∀ k, (list_to_map items : gmap string W) !! k
       = (list_to_map l : gmap string V) !! k ≫= f.
Proof.
  induction l as [|[k0 v] l IH]; intros items Hnd Hm k.
  - injection Hm as <-. simpl. by rewrite !lookup_empty.
  - rewrite mapM_cons_eq in Hm.
    change (item_map (k0, v)) with (f v ≫= λ w, Some (k0, w)) in Hm.
    destruct (f v) as [w|] eqn:Ev; cbn [mbind option_bind] in Hm; [|done].
    destruct (mapM item_map l) as [items'|] eqn:El; cbn [mbind option_bind] in Hm; [|done].
    injection Hm as <-. rewrite fmap_cons in Hnd. apply NoDup_cons in Hnd as [Hk Hnd].
    simpl. destruct (decide (k = k0)) as [->|Hne].
    + rewrite !lookup_insert_eq. simpl. by rewrite Ev.
    + rewrite !lookup_insert_ne by done. by apply IH.
Qed.

Lemma mapM_item_map_Some (m : gmap string V) :
  (∀ k v, m !! k = Some v → is_Some (f v)) →
  ∃ items, mapM item_map (map_to_list m) = Some items ∧
    ∀ k, (list_to_map items : gmap string W) !! k = m !! k ≫= f.
Proof.
  intros Hf.
  destruct (mapM item_map (map_to_list m)) as [items|] eqn:Hm.
  - exists items. split; [done|]. intros k.
    rewrite (mapM_item_map_lookup _ _ (NoDup_fst_map_to_list m) Hm).
    by rewrite list_to_map_to_list.
  - apply mapM_None in Hm. apply Exists_exists in Hm as ([k v] & Hin & Hn).
    apply elem_of_map_to_list in Hin. destruct (Hf k v Hin) as [w Hw].
    unfold item_map in Hn. simpl in Hn. by rewrite Hw in Hn.
Qed.

End ItemsToMap.

(** ** Counting: what the loops keep *)

(** The key of a record: its clade id and its split id as they are read. *)
Definition node_key (node : string * string) : string * string :=
  (rstrip_nul node.1, rstrip_nul node.2).

(** The clade id of a record, as it is read. *)
Definition node_clade (node : string * string) : string := rstrip_nul node.1.

(** The keys of the records of conditional clades, of three taxa or more. *)
Definition big_keys (nodes : list (string * string)) : list (string * string) :=
  map node_key (filter (λ node, 3 ≤ clade_size (node_clade node)) nodes).

Section TallyInvariants.

Context {T : Type}.

(** What the loop over the nodes keeps, after the records [nodes]. *)
Record cc_inv (nodes : list (string * string)) (st : tally T) : Prop := {
  cc_entries : ∀ p s,
    entry2 (cc_counts st) p s = count_entry (occurrences (p, s) (big_keys nodes));
  cc_nonempty : inner_nonempty (cc_counts st);
  cc_data_dom : ∀ p, is_Some (cc_data st !! p) ↔ is_Some (cc_counts st !! p);
  cc_data_entries : ∀ p s,
    is_Some (entry2 (cc_data st) p s) ↔ is_Some (entry2 (cc_counts st) p s);
  cc_data_key : ∀ p s node,
    entry2 (cc_data st) p s = Some node → node_key node = (p, s) ∧ node ∈ nodes;
  cc_sizes : ∀ p,
    clade_sizes st !! p
    = if decide (p ∈ map node_clade nodes) then Some (clade_size p) else None
}.

Lemma big_keys_snoc nodes node :
  big_keys (nodes ++ [node])
  = big_keys nodes
    ++ (if decide (3 ≤ clade_size (node_clade node)) then [node_key node] else []).
Proof.
  unfold big_keys. rewrite filter_app, map_app, filter_cons, filter_nil.
  by destruct (decide (3 ≤ clade_size (node_clade node))).
Qed.

Lemma sizes_step nodes node (sizes : gmap string nat) :
  (∀ p, sizes !! p = if decide (p ∈ map node_clade nodes) then Some (clade_size p) else None) →
  ∀ p, <[node_clade node := clade_size (node_clade node)]> sizes !! p
       = if decide (p ∈ map node_clade (nodes ++ [node])) then Some (clade_size p) else None.
Proof.
  intros Hs p. rewrite map_app. simpl. destruct (decide (p = node_clade node)) as [->|Hne].
  - rewrite lookup_insert_eq. by rewrite decide_True by (apply elem_of_app; right; left).
  - rewrite lookup_insert_ne by done. rewrite Hs.
    destruct (decide (p ∈ map node_clade nodes)) as [Hin|Hout].
    + by rewrite decide_True by (apply elem_of_app; by left).
    + rewrite decide_False; [done|].
      intros [?|[?|?%elem_of_nil]%elem_of_cons]%elem_of_app; done.
Qed.

Lemma occurrences_key_snoc (keys : list (string * string)) p0 s0 p s :
  occurrences (p, s) (keys ++ [(p0, s0)])
  = occurrences (p, s) keys + (if decide (p = p0 ∧ s = s0) then 1 else 0).
Proof.
  rewrite occurrences_snoc. f_equal.
  destruct (decide ((p0, s0) = (p, s))) as [[= -> ->]|Hne].
  - by rewrite decide_True.
  - rewrite decide_False; [done|]. intros [-> ->]. done.
Qed.

(** One record more. *)
Lemma record_node_inv nodes st node :
  cc_inv nodes st →
  ∃ st', record_node (Some st) node = Some st' ∧
    cc_inv (nodes ++ [node]) st' ∧
    topology_counts st' = topology_counts st ∧ topology_data st' = topology_data st.
Proof.
  intros [Hent Hne Hdom Hdent Hkey Hsz].
  unfold record_node. cbn [mbind option_bind].
  fold (node_clade node).
  set (p0 := node_clade node). set (s0 := rstrip_nul node.2).
  assert (node_key node = (p0, s0)) as Hk0 by done.
  pose proof (sizes_step nodes node (clade_sizes st) Hsz) as Hsz'. fold p0 in Hsz'.
  assert (∀ nd, nd ∈ nodes → nd ∈ nodes ++ [node]) as Hold
    by (intros; apply elem_of_app; by left).
  destruct (Nat.leb_spec 3 (clade_size p0)) as [Hbig|Hsmall].
  2:{ eexists. split; [done|]. split; [|done].
      assert (big_keys (nodes ++ [node]) = big_keys nodes) as Hb.
      { rewrite big_keys_snoc. fold p0. rewrite decide_False by lia. apply app_nil_r. }
      split; cbn [cc_counts cc_data clade_sizes]; rewrite ?Hb; try done.
      intros p s nd Hnd. destruct (Hkey p s nd Hnd). eauto. }
  assert (big_keys (nodes ++ [node]) = big_keys nodes ++ [(p0, s0)]) as Hb.
  { rewrite big_keys_snoc. fold p0. by rewrite decide_True by lia. }
  destruct (cc_counts st !! p0) as [split_counts|] eqn:Ec.
  - destruct (proj2 (Hdom p0)) as [splits_data Hd]; [by rewrite Ec|].
    destruct (split_counts !! s0) as [count|] eqn:Es.
    + (* the split was seen before *)
      assert (entry2 (cc_counts st) p0 s0 = Some count) as He
        by (unfold entry2; by rewrite Ec).
      eexists. split; [done|]. split; [|done].
      split; cbn [cc_counts cc_data clade_sizes]; rewrite ?Hb; try done.
      * intros p s. rewrite (entry2_insert_inner _ _ _ _ _ _ _ Ec), occurrences_key_snoc.
        case_decide as Hps.
        -- destruct Hps as [-> ->]. symmetry. apply count_entry_succ. by rewrite <- Hent.
        -- by rewrite Nat.add_0_r.
      * apply inner_nonempty_insert; [done | apply insert_non_empty].
      * intros p. rewrite Hdom. destruct (decide (p = p0)) as [->|Hp].
        -- rewrite lookup_insert_eq, Ec. split; eauto.
        -- by rewrite lookup_insert_ne.
      * intros p s. rewrite Hdent, (entry2_insert_inner _ _ _ _ _ _ _ Ec).
        case_decide as Hps; [|done]. destruct Hps as [-> ->]. rewrite He. split; eauto.
      * intros p s nd Hnd. destruct (Hkey p s nd Hnd). eauto.
    + (* a new split of a clade seen before *)
      assert (entry2 (cc_counts st) p0 s0 = None) as He
        by (unfold entry2; by rewrite Ec).
      rewrite Hd. cbn [mbind option_bind].
      eexists. split; [done|]. split; [|done].
      split; cbn [cc_counts cc_data clade_sizes]; rewrite ?Hb; try done.
      * intros p s. rewrite (entry2_insert_inner _ _ _ _ _ _ _ Ec), occurrences_key_snoc.
        case_decide as Hps.
        -- destruct Hps as [-> ->]. symmetry. apply count_entry_first. by rewrite <- Hent.
        -- by rewrite Nat.add_0_r.
      * apply inner_nonempty_insert; [done | apply insert_non_empty].
      * intros p. destruct (decide (p = p0)) as [->|Hp].
        -- rewrite !lookup_insert_eq. split; eauto.
        -- by rewrite !lookup_insert_ne.
      * intros p s. rewrite (entry2_insert_inner _ _ _ _ _ _ _ Ec),
          (entry2_insert_inner _ _ _ _ _ _ _ Hd).
        case_decide; [split; eauto | apply Hdent].
      * intros p s nd. rewrite (entry2_insert_inner _ _ _ _ _ _ _ Hd).
        case_decide as Hps.
        -- destruct Hps as [-> ->]. intros [= <-]. split; [done|].
           apply elem_of_app. right. left.
        -- intros Hnd. destruct (Hkey p s nd Hnd). eauto.
  - (* a new clade *)
    assert (cc_data st !! p0 = None) as Hd.
    { destruct (cc_data st !! p0) eqn:E; [|done].
      destruct (proj1 (Hdom p0)) as [? ?]; [eauto | congruence]. }
    assert (entry2 (cc_counts st) p0 s0 = None) as He
      by (unfold entry2; by rewrite Ec).
    eexists. split; [done|]. split; [|done].
    split; cbn [cc_counts cc_data clade_sizes]; rewrite ?Hb; try done.
    + intros p s. rewrite (entry2_insert_new _ _ _ _ _ _ Ec), occurrences_key_snoc.
      case_decide as Hps.
      * destruct Hps as [-> ->]. symmetry. apply count_entry_first. by rewrite <- Hent.
      * by rewrite Nat.add_0_r.
    + apply inner_nonempty_insert; [done | apply insert_non_empty].
    + intros p. destruct (decide (p = p0)) as [->|Hp].
      * rewrite !lookup_insert_eq. split; eauto.
      * by rewrite !lookup_insert_ne.
    + intros p s. rewrite (entry2_insert_new _ _ _ _ _ _ Ec),
        (entry2_insert_new _ _ _ _ _ _ Hd).
      case_decide; [split; eauto | apply Hdent].
    + intros p s nd. rewrite (entry2_insert_new _ _ _ _ _ _ Hd).
      case_decide as Hps.
      * destruct Hps as [-> ->]. intros [= <-]. split; [done|].
        apply elem_of_app. right. left.
      * intros Hnd. destruct (Hkey p s nd Hnd). eauto.
Qed.

(** The loop over the records of a tree. *)
Lemma record_nodes_inv records : ∀ nodes st,
  cc_inv nodes st →
  ∃ st', foldl record_node (Some st) records = Some st' ∧
    cc_inv (nodes ++ records) st' ∧
    topology_counts st' = topology_counts st ∧ topology_data st' = topology_data st.
Proof.
  induction records as [|node records IH]; intros nodes st Hinv.
  - exists st. by rewrite app_nil_r.
  - destruct (record_node_inv nodes st node Hinv) as (st1 & Hs & Hinv1 & Hc1 & Hd1).
    destruct (IH (nodes ++ [node]) st1 Hinv1) as (st' & Hf & Hinv' & Hc' & Hd').
    exists st'. cbn [foldl]. rewrite Hs. split; [done|].
    rewrite <- app_assoc in Hinv'. split; [done|]. split; congruence.
Qed.

Lemma cc_inv_ext nodes st st' :
  cc_counts st' = cc_counts st → cc_data st' = cc_data st →
  clade_sizes st' = clade_sizes st → cc_inv nodes st → cc_inv nodes st'.
Proof. intros H1 H2 H3 [? ? ? ? ? ?]. split; by rewrite ?H1, ?H2, ?H3. Qed.

End TallyInvariants.

Section TopologyInvariants.

Context {N Hgt T : Type}.
Variable topology_newick_of : N → T.
Variable ts : ultrametric_sample N Hgt.

(** The topology hashes and the records of the first [k] trees. *)
Definition hashes_upto (k : nat) : list string :=
  map topology_hash_of (take k (tree_arrays ts)).

Definition array_records (tree_array : list (string * string * Hgt)) : list (string * string) :=
  map (λ node : string * string * Hgt, (node.1.1, node.1.2)) tree_array.

Definition nodes_upto (k : nat) : list (string * string) :=
  mjoin (map array_records (take k (tree_arrays ts))).

(** What the loop over the trees keeps of the topologies, after [k] trees. *)
Record top_inv (k : nat) (st : tally T) : Prop := {
  top_counts : ∀ h, topology_counts st !! h = count_entry (occurrences h (hashes_upto k));
  top_total : total_count (topology_counts st) = Z.of_nat k;
  top_data_dom : ∀ h, is_Some (topology_data st !! h) ↔ is_Some (topology_counts st !! h);
  top_data_first : ∀ h d, topology_data st !! h = Some d →
    ∃ i tree_newick, hashes_upto k !! i = Some h ∧
      (∀ j, j < i → hashes_upto k !! j ≠ Some h) ∧
      newick_strings ts !! i = Some tree_newick ∧ d = topology_newick_of tree_newick
}.

Lemma top_inv_ext k st st' :
  topology_counts st' = topology_counts st → topology_data st' = topology_data st →
  top_inv k st → top_inv k st'.
Proof. intros H1 H2 [? ? ? ?]. split; by rewrite ?H1, ?H2. Qed.

Lemma hashes_upto_S k tree_array :
  tree_arrays ts !! k = Some tree_array →
  hashes_upto (S k) = hashes_upto k ++ [topology_hash_of tree_array].
Proof. intros Hk. unfold hashes_upto. by rewrite (take_S_r _ _ _ Hk), map_app. Qed.

Lemma nodes_upto_S k tree_array :
  tree_arrays ts !! k = Some tree_array →
  nodes_upto (S k) = nodes_upto k ++ array_records tree_array.
Proof.
  intros Hk. unfold nodes_upto. rewrite (take_S_r _ _ _ Hk), map_app, join_app.
  simpl. by rewrite app_nil_r.
Qed.

Lemma length_hashes_upto k : k ≤ length (tree_arrays ts) → length (hashes_upto k) = k.
Proof. intros Hk. unfold hashes_upto. rewrite length_map, length_take. lia. Qed.

(** One tree more. *)
Lemma count_tree_step_inv k st tree_array :
  tree_arrays ts !! k = Some tree_array → is_Some (newick_strings ts !! k) →
  top_inv k st → cc_inv (nodes_upto k) st →
  ∃ st', count_tree_step topology_newick_of ts (Some st) k = Some st' ∧
    top_inv (S k) st' ∧ cc_inv (nodes_upto (S k)) st'.
Proof.
  intros Hk [tree_newick Hnk] [Hc Ht Hdom Hfirst] Hcc.
  assert (k ≤ length (tree_arrays ts)) as Hkl
    by (apply Nat.lt_le_incl; by eapply lookup_lt_Some).
  set (h0 := topology_hash_of tree_array).
  assert (∃ st1, match topology_counts st !! h0 with
                 | None =>
                     tree_newick ← newick_strings ts !! k;
                     Some (Tally (<[h0 := 1%Z]> (topology_counts st))
                                 (<[h0 := topology_newick_of tree_newick]> (topology_data st))
                                 (cc_counts st) (cc_data st) (clade_sizes st))
                 | Some count =>
                     Some (Tally (<[h0 := (count + 1)%Z]> (topology_counts st))
                                 (topology_data st) (cc_counts st) (cc_data st)
                                 (clade_sizes st))
                 end = Some st1
               ∧ top_inv (S k) st1 ∧ cc_inv (nodes_upto k) st1) as (st1 & Hst1 & Htop1 & Hcc1).
  { destruct (topology_counts st !! h0) as [count|] eqn:Eh.
    - eexists. split; [done|]. split; [|by apply (cc_inv_ext _ st)].
      split; cbn [topology_counts topology_data];
        rewrite ?(hashes_upto_S k tree_array Hk).
      + intros h. rewrite occurrences_snoc. fold h0.
        destruct (decide (h0 = h)) as [<-|Hne].
        * rewrite lookup_insert_eq. symmetry. apply count_entry_succ. by rewrite <- Hc.
        * rewrite lookup_insert_ne by done. by rewrite Nat.add_0_r.
      + rewrite (total_count_insert _ _ count) by done. lia.
      + intros h. rewrite Hdom. destruct (decide (h = h0)) as [->|Hne].
        * rewrite lookup_insert_eq, Eh. split; eauto.
        * by rewrite lookup_insert_ne.
      + intros h d Hd. destruct (Hfirst h d Hd) as (i & nw & Hi & Hj & Hn & ->).
        exists i, nw. assert (i < length (hashes_upto k)) as Hil by (by eapply lookup_lt_Some).
        split; [by rewrite lookup_app_l|]. split; [|done].
        intros j Hji. rewrite lookup_app_l by lia. by apply Hj.
    - rewrite Hnk. cbn [mbind option_bind].
      eexists. split; [done|]. split; [|by apply (cc_inv_ext _ st)].
      assert (h0 ∉ hashes_upto k) as Hnew.
      { intros Hin%occurrences_pos. rewrite Hc in Eh. apply count_entry_None in Eh. lia. }
      split; cbn [topology_counts topology_data];
        rewrite ?(hashes_upto_S k tree_array Hk).
      + intros h. rewrite occurrences_snoc. fold h0.
        destruct (decide (h0 = h)) as [<-|Hne].
        * rewrite lookup_insert_eq. symmetry. apply count_entry_first. by rewrite <- Hc.
        * rewrite lookup_insert_ne by done. by rewrite Nat.add_0_r.
      + rewrite total_count_insert_new by done. lia.
      + intros h. destruct (decide (h = h0)) as [->|Hne].
        * rewrite !lookup_insert_eq. split; eauto.
        * by rewrite !lookup_insert_ne.
      + intros h d. destruct (decide (h = h0)) as [->|Hne].
        * rewrite lookup_insert_eq. intros [= <-]. exists k, tree_newick.
          split; [|split; [|done]].
          -- rewrite lookup_app_r by (rewrite length_hashes_upto; lia).
             by rewrite length_hashes_upto, Nat.sub_diag by done.
          -- intros j Hj. rewrite lookup_app_l by (rewrite length_hashes_upto; lia).
             intros Hin. apply Hnew. by eapply list_elem_of_lookup_2.
        * rewrite lookup_insert_ne by done. intros Hd.
          destruct (Hfirst h d Hd) as (i & nw & Hi & Hj & Hn & ->).
          exists i, nw.
          assert (i < length (hashes_upto k)) as Hil by (by eapply lookup_lt_Some).
          split; [by rewrite lookup_app_l|]. split; [|done].
          intros j Hji. rewrite lookup_app_l by lia. by apply Hj. }
  destruct (record_nodes_inv (array_records tree_array) (nodes_upto k) st1 Hcc1)
    as (st' & Hf & Hcc' & Hc' & Hd').
  exists st'. split.
  - unfold count_tree_step. cbn [mbind option_bind]. rewrite Hk. cbn [mbind option_bind].
    fold h0. rewrite Hst1. cbn [mbind option_bind]. exact Hf.
  - split; [by eapply top_inv_ext | by rewrite (nodes_upto_S k tree_array Hk)].
Qed.

(** The loop over the trees. *)
Lemma count_trees_inv k :
  k ≤ length (tree_arrays ts) → k ≤ length (newick_strings ts) →
  ∃ st, foldl (count_tree_step topology_newick_of ts) (Some (Tally ∅ ∅ ∅ ∅ ∅)) (seq 0 k)
        = Some st ∧
    top_inv k st ∧ cc_inv (nodes_upto k) st.
Proof.
  induction k as [|k IH]; intros Hk1 Hk2.
  - eexists. split; [done|]. split.
    + split; cbn [topology_counts topology_data].
      * intros h. by rewrite lookup_empty.
      * apply map_fold_empty.
      * intros h. rewrite !lookup_empty. split; intros [? ?]; done.
      * intros h d. by rewrite lookup_empty.
    + split; cbn [cc_counts cc_data clade_sizes].
      * intros p s. unfold entry2. by rewrite lookup_empty.
      * intros p inner. by rewrite lookup_empty.
      * intros p. rewrite !lookup_empty. split; intros [? ?]; done.
      * intros p s. unfold entry2. rewrite !lookup_empty. split; intros [? ?]; done.
      * intros p s node. unfold entry2. by rewrite lookup_empty.
      * intros p. rewrite lookup_empty. by rewrite decide_False by (by intros ?%elem_of_nil).
  - destruct IH as (st & Hf & Htop & Hcc); [lia|lia|].
    destruct (lookup_lt_is_Some_2 (tree_arrays ts) k) as [tree_array Ha]; [lia|].
    destruct (count_tree_step_inv k st tree_array Ha) as (st' & Hs & Htop' & Hcc');
      [apply lookup_lt_is_Some_2; lia | done | done |].
    exists st'. rewrite seq_S, foldl_app, Hf. simpl. done.
Qed.

End TopologyInvariants.

(** ** Counting: the result *)

Section NewTableKeys.

Context {F : Type} `{Float64 F} {D : Type}.
Implicit Types (data : gmap string D).

(** A table of a mapping none of whose keys ends in a zero byte. *)
Lemma new_table_stripped data :
  (∀ k, is_Some (data !! k) → rstrip_nul k = k) →
  ∃ t, new_table (F:=F) data = Some t ∧
    hashes_array t = sorted (keys_of data) ∧
    (∀ i k, hashes_array t !! i = Some k → data_array t !! i = data !! k) ∧
    probabilities_array t = replicate (size data) f_zero.
Proof.
  intros Hkeys.
  assert (map rstrip_nul (sorted (keys_of data)) = sorted (keys_of data)) as Hs.
  { rewrite <- (map_id (sorted (keys_of data))) at 2.
    apply map_ext_in. intros k Hk%list_elem_of_In. apply Hkeys.
    by apply elem_of_sorted_keys. }
  destruct (mapM (λ feature_hash, data !! feature_hash) (sorted (keys_of data)))
    as [sorted_data|] eqn:Hm.
  2:{ apply mapM_None in Hm. apply Exists_exists in Hm as (k & Hk & Hn).
      apply elem_of_sorted_keys in Hk as [d Hd]. congruence. }
  eexists. split; [apply new_table_closed; by rewrite Hs|].
  rewrite Hs. cbn [hashes_array data_array probabilities_array].
  split; [done|]. split; [|done].
  intros i k Hi. destruct (mapM_lookup_Some _ _ _ _ _ Hm Hi) as (d & Hd & Hr). congruence.
Qed.

(** A key whose form without trailing zero bytes is no key. *)
Lemma new_table_missing_key data k :
  is_Some (data !! k) → data !! rstrip_nul k = None → new_table (F:=F) data = None.
Proof.
  intros Hk Hn. unfold new_table. fold (keys_of data).
  destruct (mapM (λ feature_hash, data !! feature_hash)
                 (map rstrip_nul (sorted (keys_of data)))) as [sorted_data|] eqn:Hm; [|done].
  exfalso.
  assert (rstrip_nul k ∈ map rstrip_nul (sorted (keys_of data))) as Hin.
  { apply list_elem_of_fmap. exists k. split; [done|]. by apply elem_of_sorted_keys. }
  apply list_elem_of_lookup in Hin as [i Hi].
  destruct (mapM_lookup_Some _ _ _ _ _ Hm Hi) as (d & Hd & _). congruence.
Qed.

End NewTableKeys.

(** The topology hashes of the trees of a sample, in the order of the trees. *)
Definition sample_hashes {N Hgt : Type} (ts : ultrametric_sample N Hgt) : list string :=
  map topology_hash_of (tree_arrays ts).

(** The records of the nodes of the trees of a sample, tree after tree. *)
Definition sample_nodes {N Hgt : Type} (ts : ultrametric_sample N Hgt)
    : list (string * string) :=
  mjoin (map array_records (tree_arrays ts)).

Lemma is_Some_count_entry {A : Type} `{EqDecision A} (x : A) (l : list A) :
  is_Some (count_entry (occurrences x l)) ↔ x ∈ l.
Proof.
  rewrite <- occurrences_pos. destruct (occurrences x l); simpl.
  - split; [by intros [? ?] | lia].
  - split; [lia | eauto].
Qed.

Lemma count_entry_occurrences {A : Type} `{EqDecision A} (x : A) (l : list A) c :
  count_entry (occurrences x l) = Some c ↔ x ∈ l ∧ c = Z.of_nat (occurrences x l).
Proof. by rewrite count_entry_Some, occurrences_pos. Qed.

Lemma big_keys_clade nodes p :
  (∃ s, (p, s) ∈ big_keys nodes) ↔ p ∈ map node_clade nodes ∧ 3 ≤ clade_size p.
Proof.
  unfold big_keys. split.
  - intros (s & [node [Hk [Hbig Hin]%list_elem_of_filter]]%list_elem_of_fmap).
    injection Hk as -> ->. split; [|done].
    apply list_elem_of_fmap. by exists node.
  - intros [[node [-> Hin]]%list_elem_of_fmap Hbig].
    exists (rstrip_nul node.2). apply list_elem_of_fmap. exists node. split; [done|].
    by apply list_elem_of_filter.
Qed.

Section CountResult.

Context {F : Type} `{Float64 F} {N Hgt T : Type}.
Variable topology_newick_of : N → T.
Variable ts : ultrametric_sample N Hgt.

Lemma clade_keys_stripped nodes (st : tally T) p :
  cc_inv nodes st → is_Some (clade_sizes st !! p) → rstrip_nul p = p.
Proof.
  intros Hinv Hp. rewrite (cc_sizes _ _ Hinv) in Hp.
  case_decide as Hin; [|by destruct Hp].
  apply list_elem_of_fmap in Hin as (node & -> & _). apply rstrip_nul_idemp.
Qed.

Lemma split_keys_stripped nodes (st : tally T) p splits_data s :
  cc_inv nodes st → cc_data st !! p = Some splits_data → is_Some (splits_data !! s) →
  rstrip_nul s = s.
Proof.
  intros Hinv Hp [node Hs].
  destruct (cc_data_key _ _ Hinv p s node) as [Hk _].
  { unfold entry2. by rewrite Hp. }
  injection Hk as _ <-. apply rstrip_nul_idemp.
Qed.

Lemma sample_hashes_upto :
  length (tree_arrays ts) = n_trees ts → hashes_upto ts (n_trees ts) = sample_hashes ts.
Proof. intros Hl. unfold hashes_upto, sample_hashes. by rewrite take_ge by lia. Qed.

Lemma sample_nodes_upto :
  length (tree_arrays ts) = n_trees ts → nodes_upto ts (n_trees ts) = sample_nodes ts.
Proof. intros Hl. unfold nodes_upto, sample_nodes. by rewrite take_ge by lia. Qed.

(** The loops run to their end and the tables of the clades and of the
    splits are built; what is left is the table of the topologies. *)
Lemma count_result :
  length (tree_arrays ts) = n_trees ts → length (newick_strings ts) = n_trees ts →
  ∃ (st : tally T) (clades_set : table F nat)
    (cc_sets : gmap string (table F (string * string))),
    top_inv topology_newick_of ts (n_trees ts) st ∧
    cc_inv (sample_nodes ts) st ∧
    new_table (clade_sizes st) = Some clades_set ∧
    (∀ p, cc_sets !! p = cc_data st !! p ≫= new_table) ∧
    calculate_topology_probabilities topology_newick_of ts
    = (topology_set ← new_table (topology_data st);
       Some (topology_set, topology_counts st, cc_sets, cc_counts st, clades_set)).
Proof.
  intros Hl1 Hl2.
  destruct (count_trees_inv topology_newick_of ts (n_trees ts))
    as (st & Hf & Htop & Hcc); [lia|lia|].
  rewrite (sample_nodes_upto Hl1) in Hcc.
  destruct (new_table_stripped (F:=F) (clade_sizes st)) as (clades_set & Hclades & _).
  { intros p. by apply (clade_keys_stripped (sample_nodes ts)). }
  destruct (mapM_item_map_Some (new_table (F:=F)) (cc_data st)) as (items & Hm & Hitems).
  { intros p splits_data Hp.
    destruct (new_table_stripped (F:=F) splits_data) as (t & Ht & _); [|eauto].
    intros s. by apply (split_keys_stripped (sample_nodes ts) st p). }
  exists st, clades_set, (list_to_map items).
  split; [done|]. split; [done|]. split; [done|]. split; [done|].
  unfold calculate_topology_probabilities. rewrite Hf. cbn [mbind option_bind].
  rewrite Hclades. cbn [mbind option_bind].
  destruct (new_table (topology_data st)) as [topology_set|]; cbn [mbind option_bind]; [|done].
  assert (mapM splits_table (map_to_list (cc_data st)) = Some items) as -> by exact Hm.
  done.
Qed.

(** The table of the splits of a clade. *)
Lemma splits_table_spec (st : tally T) (cc_sets : gmap string (table F (string * string))) p :
  cc_inv (sample_nodes ts) st →
  (∀ p, cc_sets !! p = cc_data st !! p ≫= new_table) →
  match cc_data st !! p with
  | None => cc_sets !! p = None
  | Some splits_data =>
      ∃ t, cc_sets !! p = Some t ∧
        hashes_array t = sorted (keys_of splits_data) ∧
        (∀ i s, hashes_array t !! i = Some s → data_array t !! i = splits_data !! s) ∧
        probabilities_array t = replicate (size splits_data) f_zero
  end.
Proof.
  intros Hcc Hsets. rewrite Hsets. destruct (cc_data st !! p) as [splits_data|] eqn:Hp; [|done].
  destruct (new_table_stripped (F:=F) splits_data) as (t & Ht & Hrest).
  { intros s. by apply (split_keys_stripped (sample_nodes ts) st p). }
  exists t. by rewrite <- Ht.
Qed.

End CountResult.

(** [calculate_topology_probabilities] counts the topologies. For a sample
    with one array and one newick string for each of its trees, where no
    topology hash ends in a zero byte: the count of a topology hash is the
    number of trees of the sample with that hash, and the counts add up to
    the number of trees; the table of the topologies lists the hashes of the
    sample in ascending order, each once, every probability is 0, and the
    payload of a hash is the newick string, without branch lengths, of the
    first tree of the sample with that hash. *)
Theorem calculate_topology_probabilities_topologies {F : Type} `{Float64 F}
    {N Hgt T : Type} (topology_newick_of : N → T) (ts : ultrametric_sample N Hgt) :
  length (tree_arrays ts) = n_trees ts →
  length (newick_strings ts) = n_trees ts →
  (∀ h, h ∈ sample_hashes ts → rstrip_nul h = h) →
  ∃ topology_set topology_counts cc_sets cc_counts clades_set,
    calculate_topology_probabilities (F:=F) topology_newick_of ts
    = Some (topology_set, topology_counts, cc_sets, cc_counts, clades_set) ∧
    (∀ h c, topology_counts !! h = Some c
            ↔ h ∈ sample_hashes ts ∧ c = Z.of_nat (occurrences h (sample_hashes ts))) ∧
    total_count topology_counts = Z.of_nat (n_trees ts) ∧
    StronglySorted str_le (hashes_array topology_set) ∧
    NoDup (hashes_array topology_set) ∧
    (∀ h, h ∈ hashes_array topology_set ↔ h ∈ sample_hashes ts) ∧
    (∀ i h, hashes_array topology_set !! i = Some h →
       ∃ j tree_newick,
         sample_hashes ts !! j = Some h ∧
         (∀ j', j' < j → sample_hashes ts !! j' ≠ Some h) ∧
         newick_strings ts !! j = Some tree_newick ∧
         data_array topology_set !! i = Some (topology_newick_of tree_newick)) ∧
    probabilities_array topology_set
    = replicate (length (hashes_array topology_set)) f_zero.
Proof.
  intros Hl1 Hl2 Hstripped.
  destruct (count_result (F:=F) topology_newick_of ts Hl1 Hl2)
    as (st & clades_set & cc_sets & Htop & Hcc & Hclades & Hsets & Heq).
  destruct Htop as [Hc Ht Hdom Hfirst]. rewrite (sample_hashes_upto ts Hl1) in Hc, Hfirst.
  assert (∀ h, is_Some (topology_data st !! h) ↔ h ∈ sample_hashes ts) as Hkeys.
  { intros h. by rewrite Hdom, Hc, is_Some_count_entry. }
  destruct (new_table_stripped (F:=F) (topology_data st)) as (t & Hnew & Hh & Hd & Hp).
  { intros h Hh. by apply Hstripped, Hkeys. }
  exists t, (topology_counts st), cc_sets, (cc_counts st), clades_set.
  split; [by rewrite Heq, Hnew|].
  split; [intros h c; by rewrite Hc, count_entry_occurrences|].
  split; [done|].
  split; [rewrite Hh; apply sorted_spec|].
  split; [rewrite Hh; apply NoDup_sorted_keys|].
  split; [intros h; by rewrite Hh, elem_of_sorted_keys|].
  split.
  - intros i h Hi. rewrite (Hd i h Hi).
    assert (is_Some (topology_data st !! h)) as [d Hdh].
    { apply elem_of_sorted_keys. rewrite <- Hh. by eapply list_elem_of_lookup_2. }
    destruct (Hfirst h d Hdh) as (j & tree_newick & Hj & Hbefore & Hn & ->).
    exists j, tree_newick. by rewrite Hdh.
  - by rewrite Hp, Hh, length_sorted_keys.
Qed.

(** [calculate_topology_probabilities] counts the conditional clades. For a
    sample as above, with the records of its trees read without their
    trailing zero bytes: the count of a split of a clade is the number of
    records with that clade and that split, for the clades of three taxa or
    more; there is a table of splits for exactly the clades with a counted
    split, and it lists the counted splits of the clade in ascending order,
    each once, every probability is 0, and the payload of a split is a record
    of the sample with that clade and that split. *)
Theorem calculate_topology_probabilities_conditional_clades {F : Type} `{Float64 F}
    {N Hgt T : Type} (topology_newick_of : N → T) (ts : ultrametric_sample N Hgt) :
  length (tree_arrays ts) = n_trees ts →
  length (newick_strings ts) = n_trees ts →
  (∀ h, h ∈ sample_hashes ts → rstrip_nul h = h) →
  ∃ topology_set topology_counts cc_sets cc_counts clades_set,
    calculate_topology_probabilities (F:=F) topology_newick_of ts
    = Some (topology_set, topology_counts, cc_sets, cc_counts, clades_set) ∧
    (∀ p s c, entry2 cc_counts p s = Some c
              ↔ (p, s) ∈ big_keys (sample_nodes ts)
                ∧ c = Z.of_nat (occurrences (p, s) (big_keys (sample_nodes ts)))) ∧
    (∀ p, is_Some (cc_sets !! p) ↔ is_Some (cc_counts !! p)) ∧
    (∀ p, is_Some (cc_sets !! p) ↔ ∃ s, (p, s) ∈ big_keys (sample_nodes ts)) ∧
    (∀ p splits_set, cc_sets !! p = Some splits_set →
       StronglySorted str_le (hashes_array splits_set) ∧
       NoDup (hashes_array splits_set) ∧
       (∀ s, s ∈ hashes_array splits_set ↔ (p, s) ∈ big_keys (sample_nodes ts)) ∧
       (∀ i s, hashes_array splits_set !! i = Some s →
          ∃ node, data_array splits_set !! i = Some node ∧
            node ∈ sample_nodes ts ∧ node_key node = (p, s)) ∧
       probabilities_array splits_set
       = replicate (length (hashes_array splits_set)) f_zero).
Proof.
  intros Hl1 Hl2 Hstripped.
  destruct (count_result (F:=F) topology_newick_of ts Hl1 Hl2)
    as (st & clades_set & cc_sets & Htop & Hcc & Hclades & Hsets & Heq).
  destruct (new_table_stripped (F:=F) (topology_data st)) as (t & Hnew & _).
  { intros h Hh. apply Hstripped. rewrite <- (sample_hashes_upto ts Hl1).
    apply (is_Some_count_entry h). rewrite <- (top_counts _ _ _ _ Htop).
    by apply (top_data_dom _ _ _ _ Htop). }
  pose proof (cc_entries _ _ Hcc) as Hent.
  pose proof (cc_data_entries _ _ Hcc) as Hdent.
  assert (∀ p, is_Some (cc_sets !! p) ↔ is_Some (cc_counts st !! p)) as Hdom.
  { intros p. rewrite <- (cc_data_dom _ _ Hcc).
    pose proof (splits_table_spec ts st cc_sets p Hcc Hsets) as Hspec.
    destruct (cc_data st !! p) as [splits_data|].
    - destruct Hspec as (t' & -> & _). split; eauto.
    - rewrite Hspec. done. }
  exists t, (topology_counts st), cc_sets, (cc_counts st), clades_set.
  split; [by rewrite Heq, Hnew|].
  split; [intros p s c; by rewrite Hent, count_entry_occurrences|].
  split; [done|].
  split.
  { intros p. rewrite Hdom, (inner_nonempty_entry _ _ (cc_nonempty _ _ Hcc)).
    apply exist_proper. intros s. by rewrite Hent, is_Some_count_entry. }
  intros p splits_set Hp.
  pose proof (splits_table_spec ts st cc_sets p Hcc Hsets) as Hspec.
  destruct (cc_data st !! p) as [splits_data|] eqn:Hdp; [|congruence].
  destruct Hspec as (t' & Ht' & Hh & Hd & Hpr).
  assert (t' = splits_set) as -> by congruence.
  assert (∀ s, splits_data !! s = entry2 (cc_data st) p s) as He2
    by (intros s; unfold entry2; by rewrite Hdp).
  split; [rewrite Hh; apply sorted_spec|].
  split; [rewrite Hh; apply NoDup_sorted_keys|].
  split.
  { intros s. by rewrite Hh, elem_of_sorted_keys, He2, Hdent, Hent, is_Some_count_entry. }
  split.
  - intros i s Hi. rewrite (Hd i s Hi).
    assert (is_Some (splits_data !! s)) as [node Hnode].
    { apply elem_of_sorted_keys. rewrite <- Hh. by eapply list_elem_of_lookup_2. }
    exists node. split; [done|]. rewrite He2 in Hnode.
    destruct (cc_data_key _ _ Hcc p s node Hnode). done.
  - by rewrite Hpr, Hh, length_sorted_keys.
Qed.

(** [calculate_topology_probabilities] records the clades. For a sample as
    above: the table of the clades lists the clade ids of all the records of
    the sample, read without their trailing zero bytes, in ascending order,
    each once, with the number of taxa of the clade as payload; and the
    clades with a table of splits are exactly the listed clades of three
    taxa or more. *)
Theorem calculate_topology_probabilities_clades {F : Type} `{Float64 F}
    {N Hgt T : Type} (topology_newick_of : N → T) (ts : ultrametric_sample N Hgt) :
  length (tree_arrays ts) = n_trees ts →
  length (newick_strings ts) = n_trees ts →
  (∀ h, h ∈ sample_hashes ts → rstrip_nul h = h) →
  ∃ topology_set topology_counts cc_sets cc_counts clades_set,
    calculate_topology_probabilities (F:=F) topology_newick_of ts
    = Some (topology_set, topology_counts, cc_sets, cc_counts, clades_set) ∧
    StronglySorted str_le (hashes_array clades_set) ∧
    NoDup (hashes_array clades_set) ∧
    (∀ p, p ∈ hashes_array clades_set ↔ p ∈ map node_clade (sample_nodes ts)) ∧
    (∀ i p, hashes_array clades_set !! i = Some p →
       data_array clades_set !! i = Some (clade_size p)) ∧
    (∀ p, is_Some (cc_sets !! p) ↔ p ∈ hashes_array clades_set ∧ 3 ≤ clade_size p).
Proof.
  intros Hl1 Hl2 Hstripped.
  destruct (count_result (F:=F) topology_newick_of ts Hl1 Hl2)
    as (st & clades_set' & cc_sets & Htop & Hcc & Hclades' & Hsets & Heq).
  destruct (new_table_stripped (F:=F) (topology_data st)) as (t & Hnew & _).
  { intros h Hh. apply Hstripped. rewrite <- (sample_hashes_upto ts Hl1).
    apply (is_Some_count_entry h). rewrite <- (top_counts _ _ _ _ Htop).
    by apply (top_data_dom _ _ _ _ Htop). }
  destruct (new_table_stripped (F:=F) (clade_sizes st)) as (clades_set & Hclades & Hh & Hd & _).
  { intros p. by apply (clade_keys_stripped (sample_nodes ts)). }
  assert (clades_set' = clades_set) as -> by congruence.
  pose proof (cc_sizes _ _ Hcc) as Hsz.
  assert (∀ p, p ∈ hashes_array clades_set ↔ p ∈ map node_clade (sample_nodes ts)) as Hmem.
  { intros p. rewrite Hh, elem_of_sorted_keys, Hsz. case_decide; split; eauto; done. }
  exists t, (topology_counts st), cc_sets, (cc_counts st), clades_set.
  split; [by rewrite Heq, Hnew|].
  split; [rewrite Hh; apply sorted_spec|].
  split; [rewrite Hh; apply NoDup_sorted_keys|].
  split; [done|].
  split.
  - intros i p Hi. rewrite (Hd i p Hi), Hsz.
    apply decide_True. apply Hmem. by eapply list_elem_of_lookup_2.
  - intros p. rewrite Hmem, <- big_keys_clade.
    pose proof (splits_table_spec ts st cc_sets p Hcc Hsets) as Hspec.
    assert (is_Some (cc_sets !! p) ↔ is_Some (cc_data st !! p)) as ->.
    { destruct (cc_data st !! p) as [splits_data|].
      - destruct Hspec as (t' & -> & _). split; eauto.
      - rewrite Hspec. done. }
    rewrite (cc_data_dom _ _ Hcc), (inner_nonempty_entry _ _ (cc_nonempty _ _ Hcc)).
    apply exist_proper. intros s. by rewrite (cc_entries _ _ Hcc), is_Some_count_entry.
Qed.

(** [calculate_topology_probabilities] fails on a topology hash that ends in
    a zero byte. The table of the topologies reads its hashes back without
    their trailing zero bytes: for a sample with one array and one newick
    string for each of its trees, when the hash of a tree, without its
    trailing zero bytes, is not the hash of a tree of the sample, the
    function fails, with [KeyError]. *)
Theorem calculate_topology_probabilities_key_error {F : Type} `{Float64 F}
    {N Hgt T : Type} (topology_newick_of : N → T) (ts : ultrametric_sample N Hgt) h :
  length (tree_arrays ts) = n_trees ts →
  length (newick_strings ts) = n_trees ts →
  h ∈ sample_hashes ts → rstrip_nul h ∉ sample_hashes ts →
  calculate_topology_probabilities (F:=F) topology_newick_of ts = None.
Proof.
  intros Hl1 Hl2 Hin Hout.
  destruct (count_result (F:=F) topology_newick_of ts Hl1 Hl2)
    as (st & clades_set & cc_sets & Htop & Hcc & Hclades & Hsets & Heq).
  destruct Htop as [Hc Ht Hdom Hfirst]. rewrite (sample_hashes_upto ts Hl1) in Hc.
  assert (∀ h, is_Some (topology_data st !! h) ↔ h ∈ sample_hashes ts) as Hkeys.
  { intros k. by rewrite Hdom, Hc, is_Some_count_entry. }
  rewrite Heq, (new_table_missing_key (topology_data st) h); [done | by apply Hkeys |].
  destruct (topology_data st !! rstrip_nul h) eqn:E; [|done].
  exfalso. apply Hout, Hkeys. eauto.
Qed.

(** ** A sample of three trees of four taxa *)

(** The array of the tree ((A,B),(C,D)), sorted by clade id. *)
Definition ex_balanced_array : list (string * string * Q) :=
  [(node_ids ex_order4 (Leaf "C") (Leaf "D"), 1%Q);
   (node_ids ex_order4 (Leaf "A") (Leaf "B"), 1%Q);
   (node_ids ex_order4 (Node (Leaf "A") (Leaf "B")) (Node (Leaf "C") (Leaf "D")), 2%Q)].

(** The array of the tree (((A,B),C),D), sorted by clade id. *)
Definition ex_ladder_array : list (string * string * Q) :=
  [(node_ids ex_order4 (Leaf "A") (Leaf "B"), 1%Q);
   (node_ids ex_order4 (Node (Leaf "A") (Leaf "B")) (Leaf "C"), 2%Q);
   (node_ids ex_order4 (Node (Node (Leaf "A") (Leaf "B")) (Leaf "C")) (Leaf "D"), 3%Q)].

Definition ex_sample : ultrametric_sample string Q :=
  UltrametricSample 3
    [ex_balanced_array; ex_ladder_array; ex_balanced_array]
    ["((A:1,B:1):1,(C:1,D:1):1);"; "(((A:1,B:1):1,C:2):1,D:3);"; "((D:1,C:1):1,(B:1,A:1):1);"].

(** The newick strings of the example are kept as they are. *)
Definition ex_newick_of (tree_newick : string) : string := tree_newick.

Lemma ex_sample_stripped : ∀ h, h ∈ sample_hashes ex_sample → rstrip_nul h = h.
Proof. apply Forall_forall. apply (bool_decide_unpack _). vm_compute. exact I. Qed.

(** The balanced topology is counted twice, the three trees are counted. *)
Lemma calculate_topology_probabilities_topologies_witness :
  ∃ topology_set topology_counts cc_sets cc_counts clades_set,
    calculate_topology_probabilities (F:=Q) ex_newick_of ex_sample
    = Some (topology_set, topology_counts, cc_sets, cc_counts, clades_set) ∧
    topology_counts !! topology_hash_of ex_balanced_array = Some 2%Z ∧
    total_count topology_counts = 3%Z ∧
    topology_hash_of ex_ladder_array ∈ hashes_array topology_set.
Proof.
  destruct (calculate_topology_probabilities_topologies (F:=Q) ex_newick_of ex_sample)
    as (topology_set & topology_counts & cc_sets & cc_counts & clades_set
        & Heq & Hcounts & Htotal & Hsorted & Hnodup & Hmem & Hdata & Hprobs);
    [reflexivity | reflexivity | exact ex_sample_stripped |].
  exists topology_set, topology_counts, cc_sets, cc_counts, clades_set.
  split; [exact Heq|]. split; [|split; [exact Htotal|]].
  - apply Hcounts. split; [|vm_compute; reflexivity].
    apply (bool_decide_unpack _). vm_compute. exact I.
  - apply Hmem. apply (bool_decide_unpack _). vm_compute. exact I.
Defined.

(** The root of four taxa has two splits in the sample, the first of them
    counted twice. *)
Lemma calculate_topology_probabilities_conditional_clades_witness :
  ∃ topology_set topology_counts cc_sets cc_counts clades_set,
    calculate_topology_probabilities (F:=Q) ex_newick_of ex_sample
    = Some (topology_set, topology_counts, cc_sets, cc_counts, clades_set) ∧
    entry2 cc_counts
      (node_key (node_ids ex_order4 (Node (Leaf "A") (Leaf "B")) (Node (Leaf "C") (Leaf "D")))).1
      (node_key (node_ids ex_order4 (Node (Leaf "A") (Leaf "B")) (Node (Leaf "C") (Leaf "D")))).2
    = Some 2%Z ∧
    is_Some (cc_sets !! calculate_root_hash 4).
Proof.
  destruct (calculate_topology_probabilities_conditional_clades (F:=Q) ex_newick_of ex_sample)
    as (topology_set & topology_counts & cc_sets & cc_counts & clades_set
        & Heq & Hcounts & Hdom & Hsets & Htables);
    [reflexivity | reflexivity | exact ex_sample_stripped |].
  exists topology_set, topology_counts, cc_sets, cc_counts, clades_set.
  split; [exact Heq|]. split.
  - apply Hcounts. split; [|vm_compute; reflexivity].
    apply (bool_decide_unpack _). vm_compute. exact I.
  - apply Hsets.
    exists (node_key (node_ids ex_order4 (Node (Leaf "A") (Leaf "B"))
                               (Node (Leaf "C") (Leaf "D")))).2.
    apply (bool_decide_unpack _). vm_compute. exact I.
Defined.

(** The root of four taxa is a clade of the sample, with a table of splits. *)
Lemma calculate_topology_probabilities_clades_witness :
  ∃ topology_set topology_counts cc_sets cc_counts clades_set,
    calculate_topology_probabilities (F:=Q) ex_newick_of ex_sample
    = Some (topology_set, topology_counts, cc_sets, cc_counts, clades_set) ∧
    calculate_root_hash 4 ∈ hashes_array clades_set ∧
    is_Some (cc_sets !! calculate_root_hash 4).
Proof.
  destruct (calculate_topology_probabilities_clades (F:=Q) ex_newick_of ex_sample)
    as (topology_set & topology_counts & cc_sets & cc_counts & clades_set
        & Heq & Hsorted & Hnodup & Hmem & Hdata & Hcc);
    [reflexivity | reflexivity | exact ex_sample_stripped |].
  exists topology_set, topology_counts, cc_sets, cc_counts, clades_set.
  split; [exact Heq|].
  assert (calculate_root_hash 4 ∈ hashes_array clades_set) as Hroot.
  { apply Hmem. apply (bool_decide_unpack _). vm_compute. exact I. }
  split; [exact Hroot|]. apply Hcc. split; [exact Hroot|].
  apply (bool_decide_unpack _). vm_compute. exact I.
Defined.

(** Nine taxa, with ids of two bytes. *)
Definition ex_order9 : list string := ["A"; "B"; "C"; "D"; "E"; "F"; "G"; "H"; "I"].

(** An array that ends with the record of the clade of A and B, whose id
    ends in a zero byte. *)
Definition ex_unsorted_array : list (string * string * Q) :=
  [(node_ids ex_order9 (Node (Leaf "A") (Leaf "B")) (Leaf "I"), 2%Q);
   (node_ids ex_order9 (Leaf "A") (Leaf "B"), 1%Q)].

Definition ex_unsorted_sample : ultrametric_sample string Q :=
  UltrametricSample 1 [ex_unsorted_array] ["((A:1,B:1):1,I:2);"].

Lemma calculate_topology_probabilities_key_error_witness :
  calculate_topology_probabilities (F:=Q) ex_newick_of ex_unsorted_sample = None.
Proof.
  apply (calculate_topology_probabilities_key_error (F:=Q) ex_newick_of ex_unsorted_sample
           (topology_hash_of ex_unsorted_array)); [reflexivity | reflexivity | |].
  - apply (bool_decide_unpack _). vm_compute. exact I.
  - apply (bool_decide_unpack _). vm_compute. exact I.
Defined.

(** ** Samples of ultrametric trees: the arrays *)

Section ByteOrder.

(** The number of a byte grows with its bits. *)
Lemma digits_le (l1 l2 : list bool) :
  Forall2 (λ b c : bool, b = true → c = true) l1 l2 →
  (N_of_digits l1 <= N_of_digits l2)%N.
Proof.
  induction 1 as [|b c l1 l2 Hbc _ IH]; [done|].
  cbn [N_of_digits]. destruct b, c; first [lia | by specialize (Hbc eq_refl)].
Qed.

Lemma ascii_compare_bits (b0 b1 b2 b3 b4 b5 b6 b7 c0 c1 c2 c3 c4 c5 c6 c7 : bool) :
  (b0 = true → c0 = true) → (b1 = true → c1 = true) → (b2 = true → c2 = true) →
  (b3 = true → c3 = true) → (b4 = true → c4 = true) → (b5 = true → c5 = true) →
  (b6 = true → c6 = true) → (b7 = true → c7 = true) →
  Ascii.compare (Ascii b0 b1 b2 b3 b4 b5 b6 b7) (Ascii c0 c1 c2 c3 c4 c5 c6 c7) ≠ Gt.
Proof.
  intros H0 H1 H2 H3 H4 H5 H6 H7.
  unfold Ascii.compare. apply N.compare_le_iff.
  apply (digits_le [b0; b1; b2; b3; b4; b5; b6; b7] [c0; c1; c2; c3; c4; c5; c6; c7]).
  repeat constructor; done.
Qed.

Lemma string_of_bytes_le l1 l2 :
  Forall2 (λ a b, Ascii.compare a b ≠ Gt) l1 l2 →
  String.compare (string_of_bytes l1) (string_of_bytes l2) ≠ Gt.
Proof.
  induction 1 as [|a b l1 l2 Hab _ IH]; simpl; [done|].
  by destruct (Ascii.compare a b).
Qed.

(** The ids of two arrays of bits of one length, one within the other. *)
Lemma packbits_le bits1 bits2 :
  length bits1 = length bits2 →
  (∀ i, bit bits1 i = true → bit bits2 i = true) →
  str_le (packbits bits1) (packbits bits2).
Proof.
  intros Hl Hsub. apply str_le_compare. unfold packbits. rewrite Hl.
  apply string_of_bytes_le. apply Forall2_fmap, Forall_Forall2_diag, Forall_forall.
  intros k _. unfold pack_byte. apply ascii_compare_bits; apply Hsub.
Qed.

Lemma last_byte_app s1 s2 :
  s2 ≠ EmptyString → last_byte (String.append s1 s2) = last_byte s2.
Proof.
  intros Hne. induction s1 as [|a s1 IH]; [done|].
  change (String.append (String a s1) s2) with (String a (String.append s1 s2)).
  rewrite <- IH. destruct s1 as [|b s1]; [|done].
  change (String.append "" s2) with s2. by destruct s2.
Qed.

Lemma last_byte_None s : last_byte s = None → s = EmptyString.
Proof.
  induction s as [|a s IH]; [done|]. destruct s; [done|].
  intros Hs. by specialize (IH Hs).
Qed.

Lemma last_byte_concat (l : list string) (s : string) :
  s ≠ EmptyString → last_byte (String.concat "" (l ++ [s])) = last_byte s.
Proof.
  intros Hne. induction l as [|x l IH]; [done|].
  change ((x :: l) ++ [s]) with (x :: (l ++ [s])).
  destruct (l ++ [s]) as [|y r] eqn:E; [by destruct l|].
  change (String.concat "" (x :: y :: r)) with (String.append x (String.concat "" (y :: r))).
  rewrite last_byte_app; [done|].
  intros E2. rewrite E2 in IH. symmetry in IH. by apply last_byte_None in IH.
Qed.

End ByteOrder.

Section RootId.

Variable taxon_order : list string.

(** No clade id is above the id of the root. *)
Lemma clade_id_le_root (children_a children_b : gset string) :
  str_le (calculate_node_hashes children_a children_b taxon_order).1
         (calculate_root_hash (length taxon_order)).
Proof.
  destruct (calculate_node_hashes_closed children_a children_b taxon_order) as (af & _ & ->).
  cbn [fst]. rewrite calculate_root_hash_eq.
  apply packbits_le; [by rewrite length_map, length_replicate|].
  intros i Hi. apply bit_replicate_true. apply bit_true_lt in Hi.
  by rewrite length_map in Hi.
Qed.

Lemma clade_id_cover (children_a children_b : gset string) :
  (∀ t, t ∈ taxon_order → t ∈ children_a ∪ children_b) →
  (calculate_node_hashes children_a children_b taxon_order).1
  = calculate_root_hash (length taxon_order).
Proof.
  intros Hall.
  destruct (calculate_node_hashes_closed children_a children_b taxon_order) as (af & _ & ->).
  cbn [fst]. rewrite calculate_root_hash_eq. f_equal.
  apply list_eq. intros i. rewrite list_lookup_fmap.
  destruct (taxon_order !! i) as [t|] eqn:E; simpl.
  - rewrite lookup_replicate_2 by (by eapply lookup_lt_Some).
    unfold member. rewrite bool_decide_eq_true_2; [done|].
    apply Hall. by eapply list_elem_of_lookup_2.
  - apply lookup_ge_None in E. symmetry. by apply lookup_replicate_None.
Qed.

Lemma root_hash_last_byte :
  taxon_order ≠ [] →
  ∃ a, last_byte (calculate_root_hash (length taxon_order)) = Some a ∧ a ≠ zero.
Proof.
  intros Hne. rewrite calculate_root_hash_eq.
  rewrite last_byte_packbits by (by destruct taxon_order).
  eexists. split; [done|].
  rewrite length_replicate.
  assert (0 < length taxon_order) as Hpos by (destruct taxon_order; [done | simpl; lia]).
  set (k := (length taxon_order + 7) / 8 - 1).
  assert (8 * k < length taxon_order) as Hk.
  { pose proof (Nat.div_mod_eq (length taxon_order + 7) 8) as Hd.
    pose proof (Nat.mod_upper_bound (length taxon_order + 7) 8). lia. }
  unfold pack_byte. rewrite (bit_replicate_true _ (8 * k)) by done.
  injection. done.
Qed.

Lemma record_le_clade (a b : string * string) : record_le a b → str_le a.1 b.1.
Proof.
  unfold record_le. rewrite str_le_compare. by destruct (String.compare a.1 b.1).
Qed.

(** The records of a topology are ids of sets of taxa; the last one, of a
    tree that is no leaf, is that of the root. *)
Lemma recurse_node_properties_ids t r :
  r ∈ recurse_node_properties taxon_order t [] →
  ∃ children_a children_b : gset string,
    r = calculate_node_hashes children_a children_b taxon_order.
Proof.
  induction t as [name | a IHa b IHb]; [by intros ?%elem_of_nil|].
  rewrite recurse_node_properties_Node.
  intros [?|[?|Hr%list_elem_of_singleton]%elem_of_app]%elem_of_app; [eauto | eauto |].
  subst r. eauto.
Qed.

End RootId.

Section NodeOrder.

Context {F : Type} `{Float64 F}.
Hypothesis f_leb_total : ∀ x y : F, f_leb x y = true ∨ f_leb y x = true.
Hypothesis f_leb_trans :
  ∀ x y z : F, f_leb x y = true → f_leb y z = true → f_leb x z = true.

Lemma node_le_total : Total (Ultrametric.node_le (F:=F)).
Proof.
  intros a b. unfold Ultrametric.node_le.
  destruct (decide (a.1 = b.1)) as [E|E].
  - rewrite E. destruct (total record_le b.1 b.1) as [Hr|Hr];
      (destruct (f_leb_total a.2 b.2); [left | right]; by split).
  - destruct (total record_le a.1 b.1); [left | right]; (split; [done | congruence]).
Qed.

Lemma node_le_trans : Transitive (Ultrametric.node_le (F:=F)).
Proof.
  intros a b c [Hab Fab] [Hbc Fbc]. split; [by etrans|].
  intros E. assert (a.1 = b.1) as Eab.
  { apply (anti_symm record_le); [done|]. by rewrite <- E in Hbc. }
  assert (b.1 = c.1) as Ebc by congruence.
  eapply f_leb_trans; eauto.
Qed.

Lemma node_sorted_records (l : list (string * string * F)) :
  StronglySorted Ultrametric.node_le l → StronglySorted record_le (map fst l).
Proof.
  induction 1 as [|a l Hs IH Ha]; simpl; constructor; [done|].
  apply Forall_fmap. eapply Forall_impl; [exact Ha|]. by intros b [Hb _].
Qed.

Lemma sorted_nodes (l : list (string * string * F)) :
  StronglySorted Ultrametric.node_le (merge_sort Ultrametric.node_le l).
Proof.
  apply (@StronglySorted_merge_sort _ Ultrametric.node_le _ node_le_trans node_le_total).
Qed.

(** Sorting by clade id, split id and height, then dropping the heights, is
    sorting by clade id and split id. *)
Lemma merge_sort_node_records (l : list (string * string * F)) :
  map fst (merge_sort Ultrametric.node_le l) = merge_sort record_le (map fst l).
Proof.
  apply (StronglySorted_unique record_le).
  - apply node_sorted_records, sorted_nodes.
  - apply (StronglySorted_merge_sort _).
  - by rewrite !merge_sort_Permutation.
Qed.

Lemma array_records_fst (l : list (string * string * F)) : array_records l = map fst l.
Proof. unfold array_records. apply map_ext. by intros [[? ?] ?]. Qed.

Lemma topology_hash_of_records (l : list (string * string * F)) :
  topology_hash_of l = String.concat "" (map fst (array_records l)).
Proof. unfold topology_hash_of. rewrite array_records_fst, map_map. done. Qed.

Lemma get_leaf_names_topology (t : tree_node F) :
  get_leaf_names (Ultrametric.topology t) = Ultrametric.get_leaf_names t.
Proof. induction t as [name d | a IHa b IHb d]; simpl; [done|]. by rewrite IHa, IHb. Qed.

(** The records of a tree, without their heights, are those of its topology. *)
Lemma recurse_records taxon_order (t : tree_node F) : ∀ node_height tree_values,
  map fst (Ultrametric.recurse_node_properties taxon_order t node_height tree_values)
  = recurse_node_properties taxon_order (Ultrametric.topology t) (map fst tree_values).
Proof.
  induction t as [name d | a IHa b IHb d]; intros node_height tree_values; simpl; [done|].
  by rewrite map_app, IHb, IHa, !get_leaf_names_topology.
Qed.

Lemma sorted_array_records taxon_order (t : tree_node F) node_height :
  array_records (merge_sort Ultrametric.node_le
                (Ultrametric.recurse_node_properties taxon_order t node_height []))
  = generate_topology_array taxon_order (Ultrametric.topology t).
Proof.
  rewrite array_records_fst, merge_sort_node_records, recurse_records. done.
Qed.

(** The root record of a tree that is no leaf. *)
Lemma root_record taxon_order (a b : tree_node F) d node_height :
  (calculate_node_hashes (list_to_set (Ultrametric.get_leaf_names a))
                         (list_to_set (Ultrametric.get_leaf_names b)) taxon_order,
   node_height)
  ∈ merge_sort Ultrametric.node_le
      (Ultrametric.recurse_node_properties taxon_order (TNode a b d) node_height []).
Proof.
  rewrite merge_sort_Permutation. simpl. apply elem_of_app. right. left.
Qed.

(** The topology hash of a tree with all the taxa of the order does not end
    in a zero byte: the record of the root is the last one. *)
Lemma tree_hash_stripped taxon_order (t : tree_node F) node_height :
  taxon_order ≠ [] →
  (∀ name, name ∈ taxon_order → name ∈ Ultrametric.get_leaf_names t) →
  let tree_array := merge_sort Ultrametric.node_le
                      (Ultrametric.recurse_node_properties taxon_order t node_height []) in
  rstrip_nul (topology_hash_of tree_array) = topology_hash_of tree_array.
Proof.
  intros Hne Hall tree_array.
  destruct t as [name d | a b d]; [done|].
  set (root_hash := calculate_root_hash (length taxon_order)).
  pose proof (root_record taxon_order a b d node_height) as Hroot.
  pose proof (sorted_nodes
                (Ultrametric.recurse_node_properties taxon_order (TNode a b d) node_height []))
    as Hsorted.
  assert (∀ z, z ∈ tree_array → str_le z.1.1 root_hash) as Hle.
  { intros z Hz. unfold tree_array in Hz. rewrite merge_sort_Permutation in Hz.
    assert (z.1 ∈ recurse_node_properties taxon_order (Ultrametric.topology (TNode a b d)) [])
      as Hin.
    { change [] with (map fst ([] : list (string * string * F))).
      rewrite <- (recurse_records taxon_order (TNode a b d) node_height []).
      apply list_elem_of_fmap. by exists z. }
    apply recurse_node_properties_ids in Hin as (ca & cb & ->).
    apply clade_id_le_root. }
  fold tree_array in Hroot, Hsorted.
  assert ((calculate_node_hashes (list_to_set (Ultrametric.get_leaf_names a))
             (list_to_set (Ultrametric.get_leaf_names b)) taxon_order).1 = root_hash) as Hid.
  { apply clade_id_cover. intros name Hn. specialize (Hall name Hn). cbn in Hall.
    apply elem_of_app in Hall. rewrite elem_of_union, !elem_of_list_to_set. done. }
  clearbody tree_array.
  destruct tree_array as [|z init _] using rev_ind; [by apply elem_of_nil in Hroot|].
  assert (z.1.1 = root_hash) as Hz.
  { apply (anti_symm str_le); [apply Hle, elem_of_app; right; left|].
    apply elem_of_app in Hroot as [Hin | Hr%list_elem_of_singleton].
    - apply StronglySorted_app in Hsorted as (Hx & _ & _).
      rewrite <- Hid. apply (record_le_clade (_, node_height).1 z.1).
      apply (Hx _ z Hin). left.
    - rewrite <- Hr. cbn [fst]. rewrite Hid.
      by destruct (total str_le root_hash root_hash). }
  destruct (root_hash_last_byte taxon_order Hne) as (c & Hc & Hnz). fold root_hash in Hc.
  apply rstrip_nul_fixed. unfold topology_hash_of. rewrite map_app. cbn [map].
  rewrite last_byte_concat; rewrite Hz; [by rewrite Hc; intros [= ->]|].
  intros E. by rewrite E in Hc.
Qed.

End NodeOrder.

(** ** Samples of ultrametric trees: from the trees to the counts *)

Section SampleFacts.

Context {F : Type} `{Float64 F} {N T : Type}.
Variable parse : N → tree_node F.
Variable calibration_distance : tree_node F → string → option F.
Hypothesis f_leb_total : ∀ x y : F, f_leb x y = true ∨ f_leb y x = true.
Hypothesis f_leb_trans :
  ∀ x y z : F, f_leb x y = true → f_leb y z = true → f_leb x z = true.

(** What [generate_tree_array] returns. *)
Lemma generate_tree_array_inv taxon_order newick_string calibration_taxon calibration_date
    tree_array :
  Ultrametric.generate_tree_array parse calibration_distance taxon_order newick_string
    calibration_taxon calibration_date = Some tree_array →
  ∃ distance,
    calibration_distance (parse newick_string) calibration_taxon = Some distance ∧
    tree_array = merge_sort Ultrametric.node_le
                   (Ultrametric.recurse_node_properties taxon_order (parse newick_string)
                      (f_add distance calibration_date) []).
Proof.
  unfold Ultrametric.generate_tree_array.
  destruct (calibration_distance (parse newick_string) calibration_taxon) as [distance|];
    [|done].
  intros [= <-]. eauto.
Qed.

Lemma sample_taxon_order_nonempty newick_strings :
  newick_strings ≠ [] → Ultrametric.sample_taxon_order parse newick_strings ≠ [].
Proof.
  destruct newick_strings as [|ns l]; [done|]. intros _ E.
  assert (length (Ultrametric.sample_taxon_order parse (ns :: l)) = 0) as Hl by (by rewrite E).
  unfold Ultrametric.sample_taxon_order, sorted in Hl. rewrite merge_sort_Permutation in Hl.
  assert (∀ t : tree_node F, 0 < length (Ultrametric.get_leaf_names t)) as Hpos.
  { induction t as [name d | a IHa b IHb d]; simpl; [lia|]. rewrite length_app. lia. }
  specialize (Hpos (parse ns)). lia.
Qed.

(** The loops and the tables of a sample whose topology hashes are stored as
    they are. *)
Lemma calculate_topology_probabilities_Some {Hgt : Type} (topology_newick_of : N → T)
    (ts : ultrametric_sample N Hgt) :
  length (tree_arrays ts) = n_trees ts → length (newick_strings ts) = n_trees ts →
  (∀ h, h ∈ sample_hashes ts → rstrip_nul h = h) →
  is_Some (calculate_topology_probabilities (F:=F) topology_newick_of ts).
Proof.
  intros Hl1 Hl2 Hstripped.
  destruct (count_result (F:=F) topology_newick_of ts Hl1 Hl2)
    as (st & clades_set & cc_sets & Htop & Hcc & Hclades & Hsets & Heq).
  destruct (new_table_stripped (F:=F) (topology_data st)) as (t & Hnew & _).
  { intros h Hh. apply Hstripped. rewrite <- (sample_hashes_upto ts Hl1).
    apply (is_Some_count_entry h). rewrite <- (top_counts _ _ _ _ Htop).
    by apply (top_data_dom _ _ _ _ Htop). }
  rewrite Heq, Hnew. eauto.
Qed.

End SampleFacts.




(** ** A sample built from three trees of four taxa *)

(** The trees of the example stand for their newick strings. *)
Definition ex_parse (newick : tree_node Q) : tree_node Q := newick.

(** The distance from a node down to the first leaf with a name: one
    function for the library's [get_distance]. *)
Fixpoint path_distance (node : tree_node Q) (name : string) : option Q :=
  match node with
  | TLeaf n _ => if decide (n = name) then Some 0%Q else None
  | TNode child1 child2 _ =>
      match path_distance child1 name with
      | Some d => Some (d + Ultrametric.dist child1)%Q
      | None => d ← path_distance child2 name; Some (d + Ultrametric.dist child2)%Q
      end
  end.

(** ((A:1,B:1):1,(C:1,D:1):1) *)
Definition ex_balanced : tree_node Q :=
  TNode (TNode (TLeaf "A" 1%Q) (TLeaf "B" 1%Q) 1%Q)
        (TNode (TLeaf "C" 1%Q) (TLeaf "D" 1%Q) 1%Q) 0%Q.

(** ((D:2,C:2):3,(B:4,A:4):1): the same topology with the children of
    every node in the other order, and other branch lengths. *)
Definition ex_balanced_swapped : tree_node Q :=
  TNode (TNode (TLeaf "D" 2%Q) (TLeaf "C" 2%Q) 3%Q)
        (TNode (TLeaf "B" 4%Q) (TLeaf "A" 4%Q) 1%Q) 0%Q.

(** (((A:1,B:1):1,C:2):1,D:3) *)
Definition ex_ladder : tree_node Q :=
  TNode (TNode (TNode (TLeaf "A" 1%Q) (TLeaf "B" 1%Q) 1%Q) (TLeaf "C" 2%Q) 1%Q)
        (TLeaf "D" 3%Q) 0%Q.

Definition ex_generate (newick : tree_node Q) (calibration_taxon : string)
    (calibration_date : Q) : option (list (string * string * Q)) :=
  Ultrametric.generate_tree_array ex_parse path_distance ex_order4 newick
    calibration_taxon calibration_date.




(** ** Melting: the sum over the topologies *)

(** What a clade receives: the probability of every topology, once for each
    time the clade is among the clade ids of the topology, in the order of
    the topologies. *)
Definition clade_increments {F : Type} (views : list (list string)) (probs : list F)
    (clade_hash : string) : list F :=
  mjoin (zip_with (λ clades p, replicate (occurrences clade_hash clades) p) views probs).

Section MeltFacts.

Context {F : Type} `{Float64 F} {D : Type}.
Variable numpy_view : nat → string → option (list string).

Lemma occurrences_cons (k c : string) clades :
  occurrences k (c :: clades)
  = (if decide (c = k) then 1 else 0) + occurrences k clades.
Proof. unfold occurrences. rewrite filter_cons. by destruct (decide (c = k)). Qed.

(** The loop over the clade ids of one topology. *)
Lemma melt_clade_fold (p : F) clades : ∀ m : gmap string F,
  (∀ c, c ∈ clades → is_Some (m !! c)) →
  ∃ m', foldl (melt_clade_step p) (Some m) clades = Some m' ∧
    ∀ k, m' !! k = (old ← m !! k; Some (foldl f_add old (replicate (occurrences k clades) p))).
Proof.
  induction clades as [|c clades IH]; intros m Hkeys.
  - exists m. split; [done|]. intros k. by destruct (m !! k).
  - destruct (Hkeys c) as [q Hq]; [left|].
    destruct (IH (<[c := f_add q p]> m)) as (m' & Hf & Hm').
    { intros c' Hc'. destruct (decide (c' = c)) as [->|Hne].
      - rewrite lookup_insert_eq. eauto.
      - rewrite lookup_insert_ne by done. apply Hkeys. by right. }
    exists m'. split.
    + cbn [foldl]. unfold melt_clade_step at 2. cbn [mbind option_bind].
      rewrite Hq. cbn [mbind option_bind]. exact Hf.
    + intros k. rewrite Hm', occurrences_cons.
      destruct (decide (c = k)) as [->|Hne].
      * rewrite lookup_insert_eq, Hq. done.
      * rewrite lookup_insert_ne by done. done.
Qed.

Lemma melt_clade_step_keys (p : F) (m m' : gmap string F) c :
  melt_clade_step p (Some m) c = Some m' → ∀ k, is_Some (m' !! k) ↔ is_Some (m !! k).
Proof.
  unfold melt_clade_step. cbn [mbind option_bind].
  destruct (m !! c) as [q|] eqn:Hq; [|done]. intros [= <-] k.
  destruct (decide (k = c)) as [->|Hne].
  - rewrite lookup_insert_eq, Hq. split; eauto.
  - by rewrite lookup_insert_ne.
Qed.

Lemma melt_clade_fold_keys (p : F) clades (m m' : gmap string F) :
  foldl (melt_clade_step p) (Some m) clades = Some m' →
  ∀ k, is_Some (m' !! k) ↔ is_Some (m !! k).
Proof.
  intros Hf.
  apply (foldl_step_inv (melt_clade_step p) (λ _, eq_refl)
           (λ m1, ∀ k, is_Some (m1 !! k) ↔ is_Some (m !! k)) clades) with (a := m);
    [|done|done].
  intros a c a' Ha Hs k. rewrite <- Ha. by apply (melt_clade_step_keys p a a' c).
Qed.

Lemma melt_clade_fold_None (p : F) clades : ∀ (m : gmap string F) c,
  c ∈ clades → m !! c = None → foldl (melt_clade_step p) (Some m) clades = None.
Proof.
  induction clades as [|c0 clades IH]; intros m c Hin Hc; [by apply elem_of_nil in Hin|].
  cbn [foldl]. destruct (melt_clade_step p (Some m) c0) as [m1|] eqn:Hs.
  - apply elem_of_cons in Hin as [->|Hin].
    + unfold melt_clade_step in Hs. cbn [mbind option_bind] in Hs. by rewrite Hc in Hs.
    + apply (IH m1 c Hin).
      destruct (m1 !! c) eqn:E; [|done].
      assert (is_Some (m !! c)) as [? ?] by (apply (melt_clade_step_keys p m m1 c0 Hs); eauto).
      congruence.
  - apply foldl_step_None. done.
Qed.

Lemma melt_topology_step_keys (topology_set : table F D) n_bytes (m m' : gmap string F) i :
  melt_topology_step numpy_view topology_set n_bytes (Some m) i = Some m' →
  ∀ k, is_Some (m' !! k) ↔ is_Some (m !! k).
Proof.
  unfold melt_topology_step. cbn [mbind option_bind].
  destruct (hashes_array topology_set !! i) as [h|]; [|done]. cbn [mbind option_bind].
  destruct (probabilities_array topology_set !! i) as [p|]; [|done]. cbn [mbind option_bind].
  destruct (numpy_view n_bytes h) as [clades|]; [|done]. cbn [mbind option_bind].
  apply melt_clade_fold_keys.
Qed.

Lemma clade_increments_snoc (views : list (list string)) (probs : list F) clades p k :
  length views = length probs →
  clade_increments (views ++ [clades]) (probs ++ [p]) k
  = clade_increments views probs k ++ replicate (occurrences k clades) p.
Proof.
  intros Hl. unfold clade_increments.
  rewrite zip_with_app by done. rewrite join_app. simpl. by rewrite app_nil_r.
Qed.

Variable self : table F nat.
Variable topology_set : table F D.
Variable n_bytes : nat.
Variable views : list (list string).

Hypothesis views_ok :
  mapM (numpy_view n_bytes) (hashes_array topology_set) = Some views.
Hypothesis probs_ok :
  length (probabilities_array topology_set) = length (hashes_array topology_set).

(** The loop over the first [j] topologies. *)
Lemma melt_fold j :
  j ≤ length (hashes_array topology_set) →
  (∀ clades c, clades ∈ take j views → c ∈ clades → is_Some (probabilities self !! c)) →
  ∃ m, foldl (melt_topology_step numpy_view topology_set n_bytes)
             (Some (probabilities self)) (seq 0 j) = Some m ∧
    ∀ k, m !! k
         = (old ← probabilities self !! k;
            Some (foldl f_add old
                    (clade_increments (take j views)
                       (take j (probabilities_array topology_set)) k))).
Proof.
  pose proof views_ok as Hv. apply mapM_Some in Hv.
  induction j as [|j IH]; intros Hj Hkeys.
  - exists (probabilities self). split; [done|]. intros k.
    by destruct (probabilities self !! k).
  - destruct (lookup_lt_is_Some_2 (hashes_array topology_set) j) as [h Hh]; [lia|].
    destruct (lookup_lt_is_Some_2 (probabilities_array topology_set) j) as [p Hp]; [lia|].
    destruct (Forall2_lookup_l _ _ _ _ _ Hv Hh) as (clades & Hc & Hview).
    rewrite (take_S_r _ _ _ Hc) in Hkeys.
    destruct IH as (m & Hf & Hm); [lia | |].
    { intros cs c Hcs. apply Hkeys. apply elem_of_app. by left. }
    destruct (melt_clade_fold p clades m) as (m' & Hf' & Hm').
    { intros c Hin. rewrite Hm.
      destruct (Hkeys clades c) as [old ->]; [apply elem_of_app; right; left | done |].
      simpl. eauto. }
    exists m'. split.
    + rewrite seq_S, foldl_app, Hf. cbn [foldl plus].
      unfold melt_topology_step. cbn [mbind option_bind].
      rewrite Hh. cbn [mbind option_bind]. rewrite Hp. cbn [mbind option_bind].
      rewrite Hview. cbn [mbind option_bind]. exact Hf'.
    + intros k. rewrite Hm', Hm. rewrite (take_S_r _ _ _ Hc), (take_S_r _ _ _ Hp).
      rewrite clade_increments_snoc.
      2:{ rewrite !length_take. apply Forall2_length in Hv. lia. }
      destruct (probabilities self !! k) as [old|]; [|done].
      simpl. by rewrite foldl_app.
Qed.

(** The loop fails at a clade without a probability. *)
Lemma melt_fold_None i clades c n :
  views !! i = Some clades → c ∈ clades → probabilities self !! c = None →
  i < n →
  foldl (melt_topology_step numpy_view topology_set n_bytes)
        (Some (probabilities self)) (seq 0 n) = None.
Proof.
  clear probs_ok. intros Hc Hin Hnone Hi.
  pose proof views_ok as Hv. apply mapM_Some in Hv.
  destruct (Forall2_lookup_r _ _ _ _ _ Hv Hc) as (h & Hh & Hview).
  replace n with (i + (1 + (n - S i))) by lia.
  rewrite !seq_app, !foldl_app. cbn [seq foldl plus].
  destruct (foldl (melt_topology_step numpy_view topology_set n_bytes)
                  (Some (probabilities self)) (seq 0 i)) as [m|] eqn:Hf.
  - assert (∀ k, is_Some (m !! k) ↔ is_Some (probabilities self !! k)) as Hkeys.
    { apply (foldl_step_inv (melt_topology_step numpy_view topology_set n_bytes)
               (λ _, eq_refl)
               (λ m1, ∀ k, is_Some (m1 !! k) ↔ is_Some (probabilities self !! k))
               (seq 0 i) ) with (a := probabilities self); [|done|done].
      intros a b a' Ha Hs k. rewrite <- Ha.
      apply (melt_topology_step_keys topology_set n_bytes a a' b Hs). }
    assert (melt_topology_step numpy_view topology_set n_bytes (Some m) i = None) as ->.
    { unfold melt_topology_step. cbn [mbind option_bind]. rewrite Hh. cbn [mbind option_bind].
      destruct (probabilities_array topology_set !! i) as [p|]; [|done].
      cbn [mbind option_bind]. rewrite Hview. cbn [mbind option_bind].
      apply (melt_clade_fold_None p clades m c Hin).
      destruct (m !! c) eqn:E; [|done].
      assert (is_Some (probabilities self !! c)) as [? ?] by (apply Hkeys; eauto).
      congruence. }
    by apply foldl_step_None.
  - assert (melt_topology_step numpy_view topology_set n_bytes None i = None) as -> by done.
    by apply foldl_step_None.
Qed.

End MeltFacts.

(** [melt_clade_probabilities] adds to the probability of every clade the
    probability of each topology that holds the clade, once for each time
    the clade id is among the clade ids of the topology hash, in the order of
    the topologies; it does not start from 0, so what a clade had before
    stays in the sum. This is for a table of topologies with one probability
    per hash whose hashes numpy can regroup in clade ids, all of them clades
    with a probability in the table of clades, and a table of clades whose
    hashes all have a probability. The hashes, the payloads and the keys of
    the mapping stay, and the array of probabilities is that of the hashes. *)
Theorem melt_clade_probabilities_sums {F : Type} `{Float64 F} {D : Type}
    (numpy_view : nat → string → option (list string))
    (self : table F nat) (topology_set : table F D) (n_taxa : nat)
    (views : list (list string)) :
  n_features topology_set = length (hashes_array topology_set) →
  length (probabilities_array topology_set) = length (hashes_array topology_set) →
  mapM (numpy_view (String.length (calculate_root_hash n_taxa))) (hashes_array topology_set)
  = Some views →
  (∀ clades c, clades ∈ views → c ∈ clades → is_Some (probabilities self !! c)) →
  (∀ h, h ∈ hashes_array self → is_Some (probabilities self !! h)) →
  ∃ t', melt_clade_probabilities numpy_view self topology_set n_taxa = Some t' ∧
    n_features t' = n_features self ∧
    hashes_array t' = hashes_array self ∧
    data_array t' = data_array self ∧
    (∀ k, probabilities t' !! k
          = (old ← probabilities self !! k;
             Some (foldl f_add old
                     (clade_increments views (probabilities_array topology_set) k)))) ∧
    mapM (λ h, probabilities t' !! h) (hashes_array t') = Some (probabilities_array t').
Proof.
  intros Hn Hp Hviews Hkeys Hself.
  destruct (melt_fold numpy_view self topology_set _ views Hviews Hp
              (length (hashes_array topology_set))) as (m & Hf & Hm); [done| |].
  { intros clades c (i & Hi & _)%elem_of_take. apply Hkeys.
    by eapply list_elem_of_lookup_2. }
  assert (length views = length (hashes_array topology_set)) as Hlv.
  { apply mapM_Some in Hviews. symmetry. by eapply Forall2_length. }
  rewrite (take_ge views), (take_ge (probabilities_array topology_set)) in Hm by lia.
  destruct (convert_probabilities_Some (set_probabilities self m)) as (parr & Hmap & Hc).
  { cbn [set_probabilities hashes_array probabilities]. intros h Hh. rewrite Hm.
    destruct (Hself h Hh) as [old ->]. simpl. eauto. }
  cbn [set_probabilities hashes_array probabilities n_features data_array] in Hmap, Hc.
  eexists. split.
  { unfold melt_clade_probabilities. rewrite Hn, Hf. cbn [mbind option_bind]. exact Hc. }
  cbn [n_features hashes_array data_array probabilities probabilities_array].
  done.
Qed.

(** [melt_clade_probabilities] fails, with [KeyError], when a topology of
    the table holds a clade id that has no probability in the table of
    clades. *)
Theorem melt_clade_probabilities_key_error {F : Type} `{Float64 F} {D : Type}
    (numpy_view : nat → string → option (list string))
    (self : table F nat) (topology_set : table F D) (n_taxa : nat)
    (views : list (list string)) (clades : list string) (clade_hash : string) :
  n_features topology_set = length (hashes_array topology_set) →
  mapM (numpy_view (String.length (calculate_root_hash n_taxa))) (hashes_array topology_set)
  = Some views →
  clades ∈ views → clade_hash ∈ clades → probabilities self !! clade_hash = None →
  melt_clade_probabilities numpy_view self topology_set n_taxa = None.
Proof.
  intros Hn Hviews [i Hi]%list_elem_of_lookup Hin Hnone.
  unfold melt_clade_probabilities.
  rewrite (melt_fold_None numpy_view self topology_set
             (String.length (calculate_root_hash n_taxa)) views Hviews i clades clade_hash
             (n_features topology_set) Hi Hin Hnone); [done|].
  rewrite Hn. apply mapM_Some in Hviews. rewrite (Forall2_length _ _ _ Hviews).
  by eapply lookup_lt_Some.
Qed.

(** ** Melting two topologies of four taxa *)

(** A list cut in groups of [n]. *)
Fixpoint chunk_list {A : Type} (fuel n : nat) (l : list A) : list (list A) :=
  match fuel with
  | 0 => []
  | S fuel' =>
      match l with
      | [] => []
      | _ => take n l :: chunk_list fuel' n (drop n l)
      end
  end.

(** The characters of a string regrouped in strings of [n_bytes] bytes, read
    without their trailing zero bytes: one function for numpy's view. *)
Definition chunk_view (n_bytes : nat) (s : string) : option (list string) :=
  if decide (n_bytes = 0 ∨ String.length s mod n_bytes ≠ 0) then None
  else Some (map (λ c, rstrip_nul (string_of_list_ascii c))
                 (chunk_list (String.length s) n_bytes (list_ascii_of_string s))).

Definition ex_clade_ab : string := (node_ids ex_order4 (Leaf "A") (Leaf "B")).1.
Definition ex_clade_cd : string := (node_ids ex_order4 (Leaf "C") (Leaf "D")).1.
Definition ex_clade_abc : string :=
  (node_ids ex_order4 (Node (Leaf "A") (Leaf "B")) (Leaf "C")).1.

(** The clades of the two topologies, with their sizes, all at 0. *)
Definition ex_melt_clades : table Q nat :=
  Table 4 [ex_clade_cd; ex_clade_ab; ex_clade_abc; calculate_root_hash 4] [2; 2; 3; 4]
        (list_to_map [(ex_clade_cd, 0%Q); (ex_clade_ab, 0%Q); (ex_clade_abc, 0%Q);
                      (calculate_root_hash 4, 0%Q)])
        [0%Q; 0%Q; 0%Q; 0%Q].

(** The same table without the clade of A, B and C. *)
Definition ex_melt_clades_short : table Q nat :=
  Table 3 [ex_clade_cd; ex_clade_ab; calculate_root_hash 4] [2; 2; 4]
        (list_to_map [(ex_clade_cd, 0%Q); (ex_clade_ab, 0%Q); (calculate_root_hash 4, 0%Q)])
        [0%Q; 0%Q; 0%Q].

(** The balanced topology at 3/4 and the ladder at 1/4. *)
Definition ex_melt_topologies : table Q tree :=
  Table 2 [topology_hash_of ex_balanced_array; topology_hash_of ex_ladder_array]
        [Node (Node (Leaf "A") (Leaf "B")) (Node (Leaf "C") (Leaf "D"));
         Node (Node (Node (Leaf "A") (Leaf "B")) (Leaf "C")) (Leaf "D")]
        (list_to_map [(topology_hash_of ex_balanced_array, (3 # 4)%Q);
                      (topology_hash_of ex_ladder_array, (1 # 4)%Q)])
        [(3 # 4)%Q; (1 # 4)%Q].

Definition ex_views : list (list string) :=
  [[ex_clade_cd; ex_clade_ab; calculate_root_hash 4];
   [ex_clade_ab; ex_clade_abc; calculate_root_hash 4]].

(** The clade of A and B is in both topologies, that of A, B and C in the
    second one. *)
Lemma melt_clade_probabilities_sums_witness :
  ∃ t',
    melt_clade_probabilities chunk_view ex_melt_clades ex_melt_topologies 4 = Some t' ∧
    hashes_array t' = hashes_array ex_melt_clades ∧
    probabilities t' !! ex_clade_ab = Some (0 + (3 # 4) + (1 # 4))%Q ∧
    probabilities t' !! ex_clade_abc = Some (0 + (1 # 4))%Q.
Proof.
  destruct (melt_clade_probabilities_sums (H:=Q_float64) chunk_view ex_melt_clades
              ex_melt_topologies 4 ex_views) as (t' & Hmelt & _ & Hhashes & _ & Hprobs & _).
  - reflexivity.
  - reflexivity.
  - vm_compute. reflexivity.
  - assert (Forall (λ clades, Forall (λ c, is_Some (probabilities ex_melt_clades !! c)) clades)
                   ex_views) as HF
      by (apply (bool_decide_unpack _); vm_compute; exact I).
    intros clades c Hclades Hc. rewrite Forall_forall in HF. specialize (HF clades Hclades).
    rewrite Forall_forall in HF. by apply HF.
  - apply Forall_forall. apply (bool_decide_unpack _). vm_compute. exact I.
  - exists t'. split; [exact Hmelt|]. split; [exact Hhashes|].
    rewrite !Hprobs. split; vm_compute; reflexivity.
Defined.

(** The ladder holds the clade of A, B and C, which the short table misses. *)
Lemma melt_clade_probabilities_key_error_witness :
  melt_clade_probabilities chunk_view ex_melt_clades_short ex_melt_topologies 4 = None.
Proof.
  apply (melt_clade_probabilities_key_error (H:=Q_float64) chunk_view ex_melt_clades_short
           ex_melt_topologies 4 ex_views [ex_clade_ab; ex_clade_abc; calculate_root_hash 4]
           ex_clade_abc).
  - reflexivity.
  - vm_compute. reflexivity.
  - apply (bool_decide_unpack _). vm_compute. exact I.
  - apply (bool_decide_unpack _). vm_compute. exact I.
  - vm_compute. reflexivity.
Defined.
